(** * vue-i18n-convert: text-to-key resolution and source rewriting

    A shallow embedding of the conversion engine of vue-i18n-convert
    (utils.js, templateParser.js, scriptParser.js), followed by the
    properties of its specification, proved about the embedding.

    JavaScript strings are sequences of UTF-16 code units; they are
    modelled as [list N], one number per code unit.  The translation map
    is a [gmap] from text to a key or an ordered array of keys, the set of
    unmatched texts is an insertion-ordered list without duplicates, and
    the module-level variables of utils.js form one [state] record that is
    threaded through every call. *)

From Stdlib Require Import Ascii.
From stdpp Require Import gmap list strings pretty.

Open Scope N_scope.

(** ** JavaScript strings *)

Abbreviation jsstring := (list N).

(** An ASCII literal of the source, as code units. *)
Fixpoint lit (s : string) : jsstring :=
  match s with
  | EmptyString => []
  | String a r => N_of_ascii a :: lit r
  end.
Arguments lit s%_string.

(** [String.prototype.startsWith]. *)
Fixpoint startsWith (p s : jsstring) : bool :=
  match p, s with
  | [], _ => true
  | _ :: _, [] => false
  | a :: p', b :: s' => (a =? b) && startsWith p' s'
  end.

(** [String.prototype.endsWith]. *)
Definition endsWith (p s : jsstring) : bool :=
  startsWith (rev p) (rev s).

(** [str.slice(0, -1)]: all code units but the last. *)
Definition sliceInit (s : jsstring) : jsstring := removelast s.

(** [String.prototype.includes]. *)
Fixpoint includes (p s : jsstring) : bool :=
  startsWith p s ||
  match s with
  | [] => false
  | _ :: s' => includes p s'
  end.

(** White space and line terminators removed by [String.prototype.trim]. *)
Definition isWhiteSpace (c : N) : bool :=
  (c =? 0x9) || (c =? 0xA) || (c =? 0xB) || (c =? 0xC) || (c =? 0xD) ||
  (c =? 0x20) || (c =? 0xA0) || (c =? 0x1680) ||
  ((0x2000 <=? c) && (c <=? 0x200A)) ||
  (c =? 0x2028) || (c =? 0x2029) || (c =? 0x202F) || (c =? 0x205F) ||
  (c =? 0x3000) || (c =? 0xFEFF).

Fixpoint trimStart (s : jsstring) : jsstring :=
  match s with
  | [] => []
  | c :: s' => if isWhiteSpace c then trimStart s' else s
  end.

Definition trimEnd (s : jsstring) : jsstring := rev (trimStart (rev s)).

(** [String.prototype.trim]. *)
Definition trim (s : jsstring) : jsstring := trimEnd (trimStart s).

(** The regular expression class [\d]. *)
Definition isDigit (c : N) : bool := (0x30 <=? c) && (c <=? 0x39).

(** The regular expression class [[一-龥]]. *)
Definition isChineseChar (c : N) : bool := (0x4E00 <=? c) && (c <=? 0x9FA5).

(** The two colons recognised as a suffix. *)
Definition fullwidthColon : N := 0xFF1A.
Definition asciiColon : N := 0x3A.

(** ** utils.js: classification and normalisation *)

(** [isOnlyChinese]: true iff the trimmed string is not empty, is not made
    of digits only, and contains a character of U+4E00..U+9FA5. *)
Definition isOnlyChinese (str : jsstring) : bool :=
  match str with
  | [] => false
  | _ =>
    let str := trim str in
    if (length str =? 0)%nat then false
    else if forallb isDigit str then false
    else existsb isChineseChar str
  end.

(** [cleanString]. *)
Definition cleanString (str : jsstring) : jsstring :=
  match str with
  | [] => []
  | _ => trim str
  end.

(** Result of [detectColonSuffix]. *)
Record ColonSuffix := {
  hasColonSuffix : bool;
  colonChar : jsstring;
  textWithoutColon : jsstring
}.

(** [detectColonSuffix]. *)
Definition detectColonSuffix (str : jsstring) : ColonSuffix :=
  match str with
  | [] => {| hasColonSuffix := false; colonChar := []; textWithoutColon := str |}
  | _ =>
    if endsWith [fullwidthColon] str then
      {| hasColonSuffix := true; colonChar := [fullwidthColon];
         textWithoutColon := sliceInit str |}
    else if endsWith [asciiColon] str then
      {| hasColonSuffix := true; colonChar := [asciiColon];
         textWithoutColon := sliceInit str |}
    else
      {| hasColonSuffix := false; colonChar := []; textWithoutColon := str |}
  end.

(** *** extractTemplateVars

    The regular expression [/\$\{[^}]+\}/g] is matched from left to right.
    At a position holding a dollar sign and an opening brace, the greedy
    class takes every code unit up to the next closing brace; the match
    succeeds iff at least one unit was taken and a closing brace follows. *)

Definition dollar : N := 0x24.
Definition lbrace : N := 0x7B.
Definition rbrace : N := 0x7D.

(** The units before the first closing brace, and what follows that
    brace; [None] when there is no closing brace. *)
Fixpoint untilBrace (s : jsstring) : option (jsstring * jsstring) :=
  match s with
  | [] => None
  | c :: s' =>
    if c =? rbrace then Some ([], s')
    else match untilBrace s' with
         | Some (e, rest) => Some (c :: e, rest)
         | None => None
         end
  end.

(** One attempt of the pattern at the head of [s]: the captured
    expression and the rest after the match. *)
Definition matchVar (s : jsstring) : option (jsstring * jsstring) :=
  match s with
  | c1 :: c2 :: s' =>
    if (c1 =? dollar) && (c2 =? lbrace) then
      match untilBrace s' with
      | Some (e, rest) =>
        match e with
        | [] => None
        | _ => Some (e, rest)
        end
      | None => None
      end
    else None
  | _ => None
  end.

(** A piece of a scanned template: a code unit outside every match, or
    the capture of a match. *)
Inductive piece :=
  | PUnit (c : N)
  | PVar (expr : jsstring).

(** All matches of the global pattern, in order. *)
Fixpoint scanVars (fuel : nat) (s : jsstring) : list piece :=
  match fuel with
  | O => []
  | S fuel' =>
    match s with
    | [] => []
    | c :: s' =>
      match matchVar s with
      | Some (e, rest) => PVar e :: scanVars fuel' rest
      | None => PUnit c :: scanVars fuel' s'
      end
    end
  end.

Definition pieces (template : jsstring) : list piece :=
  scanVars (S (length template)) template.

(** One entry of [params]. *)
Record Param := { name : jsstring; expr : jsstring }.

(** The synthetic parameter name [`param${paramIndex}`]. *)
Definition paramName (paramIndex : nat) : jsstring :=
  lit "param" ++ lit (pretty paramIndex).

(** [template.replace(/\$\{[^}]+\}/g, '')]. *)
Fixpoint stripVars (ps : list piece) : jsstring :=
  match ps with
  | [] => []
  | PUnit c :: ps' => c :: stripVars ps'
  | PVar _ :: ps' => stripVars ps'
  end.

(** The replacement callback of the second pass, run over the matches
    with the counter [paramIndex]. *)
Fixpoint substVars (paramIndex : nat) (ps : list piece)
  : jsstring * list Param :=
  match ps with
  | [] => ([], [])
  | PUnit c :: ps' =>
    let '(text, params) := substVars paramIndex ps' in
    (c :: text, params)
  | PVar e :: ps' =>
    let '(text, params) := substVars (S paramIndex) ps' in
    ([lbrace] ++ paramName paramIndex ++ [rbrace] ++ text,
     {| name := paramName paramIndex; expr := trim e |} :: params)
  end.

(** Result of [extractTemplateVars]. *)
Record TemplateVars := {
  text : jsstring;
  params : list Param;
  hasChinese : bool
}.

(** [extractTemplateVars]. *)
Definition extractTemplateVars (template : jsstring) : TemplateVars :=
  let textWithoutVars := stripVars (pieces template) in
  let '(text, params) := substVars 1 (pieces template) in
  {| text := text; params := params;
     hasChinese := isOnlyChinese textWithoutVars |}.

(** ** utils.js: the dictionary index *)

(** A loaded language pack: nested objects with string leaves.  The
    fields of an object are listed in [for ... in] order; [VArray] is an
    array with its elements, and [VOther] stands for every value that is
    neither a plain object, a string nor an array (a number, a boolean,
    [null], [undefined], a function), with its truthiness; such a value
    has no enumerable property. *)
Inductive jsvalue :=
  | VObject (fields : list (jsstring * jsvalue))
  | VString (s : jsstring)
  | VArray (elements : list jsvalue)
  | VOther (truthy : bool).

(** A value of [i18nMap]: one key, or the array of the keys that share a
    text.  An array is created with two keys and only grows, so it is
    kept as its element 0 and the elements after it. *)
Inductive keyOrKeys :=
  | Single (key : jsstring)
  | Multi (first : jsstring) (others : list jsstring).

(** The elements of an array value, in order. *)
Definition keysOf (first : jsstring) (others : list jsstring) : list jsstring :=
  first :: others.

(** Truthiness of [result.get(text)]: absent and the empty string are
    falsy, every array is truthy. *)
Definition existingOf (result : gmap jsstring keyOrKeys) (text : jsstring)
  : option keyOrKeys :=
  match result !! text with
  | Some (Single []) => None
  | r => r
  end.

(** The string branch of the loop body of [flattenI18nObject]. *)
Definition addKey (value fullKey : jsstring) (result : gmap jsstring keyOrKeys)
  : gmap jsstring keyOrKeys :=
  let textWithoutColon := textWithoutColon (detectColonSuffix value) in
  match existingOf result textWithoutColon with
  | Some (Multi first others) =>
    <[textWithoutColon := Multi first (others ++ [fullKey])]> result
  | Some (Single existing) =>
    <[textWithoutColon := Multi existing [fullKey]]> result
  | None =>
    <[textWithoutColon := Single fullKey]> result
  end.

(** [prefix ? `${prefix}.${key}` : key]. *)
Definition fullKeyOf (prefix key : jsstring) : jsstring :=
  match prefix with
  | [] => key
  | _ => prefix ++ lit "." ++ key
  end.

(** One iteration of the loop of [flattenI18nObject], for the property
    whose full key is [fullKey]; the nested loop runs over the fields of
    an object value. *)
Fixpoint flattenValue (value : jsvalue) (fullKey : jsstring)
    (result : gmap jsstring keyOrKeys) : gmap jsstring keyOrKeys :=
  match value with
  | VObject fields =>
    (fix loop (fields : list (jsstring * jsvalue))
         (result : gmap jsstring keyOrKeys) : gmap jsstring keyOrKeys :=
       match fields with
       | [] => result
       | (key, value) :: fields' =>
         loop fields' (flattenValue value (fullKeyOf fullKey key) result)
       end) fields result
  | VString s => addKey s fullKey result
  | VArray _ => result
  | VOther _ => result
  end.

(** [flattenI18nObject(obj, prefix, result)]. *)
Fixpoint flattenI18nObject (obj : list (jsstring * jsvalue)) (prefix : jsstring)
    (result : gmap jsstring keyOrKeys) : gmap jsstring keyOrKeys :=
  match obj with
  | [] => result
  | (key, value) :: obj' =>
    flattenI18nObject obj' prefix
      (flattenValue value (fullKeyOf prefix key) result)
  end.

(** *** The module state of utils.js *)

(** [i18nMap], [unmatchedTexts] (a [Set]: insertion-ordered, without
    duplicates), [skipUnmatched] and [matchPath] ([None] is [null]). *)
Record state := {
  i18nMap : gmap jsstring keyOrKeys;
  unmatchedTexts : list jsstring;
  skipUnmatched : bool;
  matchPath : option jsstring
}.

(** [Set.prototype.add]. *)
Definition setAdd (x : jsstring) (s : list jsstring) : list jsstring :=
  if decide (x ∈ s) then s else s ++ [x].

(** [unmatchedTexts.add(chineseText)]. *)
Definition addUnmatched (chineseText : jsstring) (st : state) : state :=
  {| i18nMap := i18nMap st;
     unmatchedTexts := setAdd chineseText (unmatchedTexts st);
     skipUnmatched := skipUnmatched st;
     matchPath := matchPath st |}.

(** [setConvertOptions]: [options.matchPath || null] turns the empty
    string into [null]. *)
Definition setConvertOptions (skip : bool) (path : option jsstring)
    (st : state) : state :=
  {| i18nMap := i18nMap st;
     unmatchedTexts := unmatchedTexts st;
     skipUnmatched := skip;
     matchPath := match path with Some [] => None | p => p end |}.

(** [resetUnmatchedTexts]. *)
Definition resetUnmatchedTexts (st : state) : state :=
  {| i18nMap := i18nMap st;
     unmatchedTexts := [];
     skipUnmatched := skipUnmatched st;
     matchPath := matchPath st |}.

(** Truthiness of a value. *)
Definition isTruthy (value : jsvalue) : bool :=
  match value with
  | VObject _ => true
  | VString [] => false
  | VString (_ :: _) => true
  | VArray _ => true
  | VOther truthy => truthy
  end.

(** [obj[name]] on a plain object; [None] is [undefined]. *)
Fixpoint fieldOf (name : jsstring) (fields : list (jsstring * jsvalue))
  : option jsvalue :=
  match fields with
  | [] => None
  | (key, value) :: fields' =>
    if bool_decide (key = name) then Some value else fieldOf name fields'
  end.

(** What [for (const key in obj)] and [obj[key]] give on a value: the
    fields of an object, the elements of an array and the code units of
    a string under their indices, and nothing on any other value. *)
Definition enumerate (value : jsvalue) : list (jsstring * jsvalue) :=
  match value with
  | VObject fields => fields
  | VString s => imap (fun i c => (lit (pretty i), VString [c])) s
  | VArray elements => imap (fun i element => (lit (pretty i), element)) elements
  | VOther _ => []
  end.

(** [if (zhData && zhData.default) { zhData = zhData.default; }] of
    [loadI18nMap], for a module that exports an object. *)
Definition unwrapDefault (zhData : list (jsstring * jsvalue))
  : list (jsstring * jsvalue) :=
  match fieldOf (lit "default") zhData with
  | Some value => if isTruthy value then enumerate value else zhData
  | None => zhData
  end.

(** [loadI18nMap], once the module has been read: the [default] wrapper
    is taken off and [i18nMap = flattenI18nObject(zhData)]. *)
Definition loadI18nMap (zhData : list (jsstring * jsvalue)) (st : state) : state :=
  {| i18nMap := flattenI18nObject (unwrapDefault zhData) [] ∅;
     unmatchedTexts := unmatchedTexts st;
     skipUnmatched := skipUnmatched st;
     matchPath := matchPath st |}.

(** The state of a fresh module. *)
Definition initialState : state :=
  {| i18nMap := ∅; unmatchedTexts := []; skipUnmatched := false;
     matchPath := None |}.

(** Truthiness of [matchPath]: the prefix when it is a non-empty string. *)
Definition activePath (st : state) : option jsstring :=
  match matchPath st with
  | Some (c :: p) => Some (c :: p)
  | _ => None
  end.

(** [isKeyPathMatched]. *)
Definition isKeyPathMatched (key : jsstring) (st : state) : bool :=
  match activePath st with
  | None => true
  | Some path =>
    if startsWith (lit "common.") key then true
    else if startsWith (path ++ lit ".") key then true
    else false
  end.

(** The tail shared by every miss of [getKeyForChinese]: record the text,
    then answer [null] in skip mode and the text itself otherwise. *)
Definition unmatched (chineseText : jsstring) (st : state)
  : option jsstring * state :=
  let st := addUnmatched chineseText st in
  if skipUnmatched st then (None, st) else (Some chineseText, st).

(** [getKeyForChinese]; [None] is [null]. *)
Definition getKeyForChinese (chineseText : jsstring) (st : state)
  : option jsstring * state :=
  match i18nMap st !! chineseText with
  | Some (Single key) =>
    if negb (isKeyPathMatched key st) then unmatched chineseText st
    else (Some key, st)
  | Some (Multi first others) =>
    match find (startsWith (lit "common.")) (keysOf first others) with
    | Some commonKey => (Some commonKey, st)
    | None =>
      let byPath :=
        match activePath st with
        | Some path => find (startsWith (path ++ lit ".")) (keysOf first others)
        | None => None
        end in
      match byPath with
      | Some matchPathKey => (Some matchPathKey, st)
      | None =>
        let selectedKey := first in
        if negb (isKeyPathMatched selectedKey st) then unmatched chineseText st
        else (Some selectedKey, st)
      end
    end
  | None => unmatched chineseText st
  end.

(** ** scriptParser.js: the syntax tree *)

(** The nodes of the parsed script that the visitor reads.  A
    [StringLiteral] is a [Literal] whose value is a string, an
    [OtherLiteral] any other literal (number, boolean, [null], regular
    expression).  A [TemplateLiteral] carries the cooked value of each
    static segment and its embedded expressions.  [Property] stands for
    both [Property] and [ObjectProperty]; [OtherNode] for every node type
    for which the visitor defines no method. *)
Inductive node :=
  | Identifier (name : jsstring)
  | StringLiteral (value : jsstring)
  | OtherLiteral (raw : jsstring)
  | TemplateLiteral (quasis : list jsstring) (expressions : list node)
  | BinaryExpression (operator : jsstring) (left right : node)
  | CallExpression (callee : node) (arguments : list node)
  | MemberExpression (object property : node)
  | ObjectExpression (properties : list node)
  | Property (key value : node)
  | OtherNode (type : jsstring) (children : list node).

(** What a visitor method reads of the parent of the node at a path. *)
Inductive frame :=
  | FCall (callee : node)
  | FBinary (operator : jsstring)
  | FPropertyKey
  | FOther.

(** The path of a node: its ancestors, nearest first. *)
Abbreviation path := (list frame).

Definition jsEq (a b : jsstring) : bool := bool_decide (a = b).

(** [node.name === s]. *)
Definition nameIs (n : node) (s : jsstring) : bool :=
  match n with
  | Identifier name => jsEq name s
  | _ => false
  end.

(** The test in the loop of [isInConsoleCall]. *)
Definition isConsoleCall (f : frame) : bool :=
  match f with
  | FCall (MemberExpression object _) => nameIs object (lit "console")
  | _ => false
  end.

(** [isInConsoleCall]: some ancestor is a call on a member of [console]. *)
Definition isInConsoleCall (p : path) : bool := existsb isConsoleCall p.

(** [isInI18nCall]: the parent is a call of [i18n.t], [$i18n.t], a [$t]
    member or the identifier [$t]. *)
Definition isInI18nCall (p : path) : bool :=
  match p with
  | FCall callee :: _ =>
    match callee with
    | MemberExpression object property =>
      ((nameIs object (lit "i18n") || nameIs object (lit "$i18n"))
         && nameIs property (lit "t"))
      || nameIs property (lit "$t")
    | Identifier name => jsEq name (lit "$t")
    | _ => false
    end
  | _ => false
  end.

(** [isObjectPropertyKey]. *)
Definition isObjectPropertyKey (p : path) : bool :=
  match p with
  | FPropertyKey :: _ => true
  | _ => false
  end.

(** The parent is a [+] expression. *)
Definition isPlusOperand (p : path) : bool :=
  match p with
  | FBinary operator :: _ => jsEq operator (lit "+")
  | _ => false
  end.

(** [containsStringLiteral]. *)
Fixpoint containsStringLiteral (n : node) : bool :=
  match n with
  | StringLiteral _ => true
  | BinaryExpression operator l r =>
    if jsEq operator (lit "+")
    then containsStringLiteral l || containsStringLiteral r
    else false
  | _ => false
  end.

(** A part of a concatenation chain. *)
Inductive part :=
  | PartString (value : jsstring)
  | PartExpression (n : node).

(** [part.type === 'string']. *)
Definition isStringPart (part : part) : bool :=
  match part with
  | PartString _ => true
  | PartExpression _ => false
  end.

(** [collectBinaryParts]. *)
Fixpoint collectBinaryParts (n : node) : list part :=
  match n with
  | BinaryExpression operator l r =>
    if jsEq operator (lit "+") then
      if containsStringLiteral l || containsStringLiteral r
      then collectBinaryParts l ++ collectBinaryParts r
      else [PartExpression n]
    else [PartExpression n]
  | StringLiteral value => [PartString value]
  | _ => [PartExpression n]
  end.

(** One entry of [variables]. *)
Record Variable_ := { vname : jsstring; expression : node }.

(** The loop over [parts] that builds [templateText] and [variables]. *)
Fixpoint composeParts (parts : list part) (templateText : jsstring)
    (variables : list Variable_) : jsstring * list Variable_ :=
  match parts with
  | [] => (templateText, variables)
  | PartString value :: parts' =>
    composeParts parts' (templateText ++ value) variables
  | PartExpression n :: parts' =>
    let paramName := paramName (length variables + 1) in
    composeParts parts'
      (templateText ++ [lbrace] ++ paramName ++ [rbrace])
      (variables ++ [{| vname := paramName; expression := n |}])
  end.

(** *** Builders *)

(** [b.memberExpression(b.identifier('$i18n'), b.identifier('t'))]. *)
Definition i18nCallee : node :=
  MemberExpression (Identifier (lit "$i18n")) (Identifier (lit "t")).

(** [b.callExpression(..., [b.literal(key), ...])]. *)
Definition i18nCall (key : node) (rest : list node) : node :=
  CallExpression i18nCallee (key :: rest).

(** [b.binaryExpression('+', i18nCall, b.literal(colonChar))]. *)
Definition plusColon (call colon : node) : node :=
  BinaryExpression (lit "+") call colon.

(** *** Running a visitor method *)

(** A method returns, or throws; the state survives a throw. *)
Inductive outcome (A : Type) :=
  | Returned (a : A)
  | Thrown.
Arguments Returned {A} a.
Arguments Thrown {A}.

Definition M (A : Type) : Type := state -> outcome A * state.

Definition ret {A} (a : A) : M A := fun st => (Returned a, st).

Definition throw {A} : M A := fun st => (Thrown, st).

Definition bind {A B} (m : M A) (k : A -> M B) : M B :=
  fun st =>
    match m st with
    | (Returned a, st') => k a st'
    | (Thrown, st') => (Thrown, st')
    end.

Declare Scope visit_scope.
Delimit Scope visit_scope with visit.
Notation "'let*' x ':=' m 'in' k" := (bind m (fun x => k))
  (at level 10, x name, m at level 100, k at level 200) : visit_scope.

(** The children of a node, visited in order. *)
Definition visitAll (f : node -> M node) : list node -> M (list node) :=
  fix go (l : list node) : M (list node) :=
    match l with
    | [] => ret []
    | n :: l' =>
      (let* n' := f n in
       let* l'' := go l' in
       ret (n' :: l''))%visit
    end.

(** [getKeyForChinese] as a step of a visitor method. *)
Definition resolveKey (chineseText : jsstring) : M (option jsstring) :=
  fun st => let '(key, st') := getKeyForChinese chineseText st in
            (Returned key, st').

(** *** visitLiteral

    [processed] tells whether the node is in [processedNodes].  After
    [path.replace], [this.traverse(path)] visits the new literals of the
    replacement with the same method; [fuel] bounds these revisits. *)
Fixpoint visitLiteral (fuel : nat) (p : path) (processed : bool)
    (value : jsstring) (st : state) : node * state :=
  let n := StringLiteral value in
  if processed then (n, st)
  else if isPlusOperand p then (n, st)
  else if isObjectPropertyKey p then (n, st)
  else if isInConsoleCall p then (n, st)
  else if isInI18nCall p then (n, st)
  else
    let cleaned := cleanString value in
    if isOnlyChinese cleaned then
      let suffix := detectColonSuffix cleaned in
      if hasColonSuffix suffix then
        match getKeyForChinese (textWithoutColon suffix) st with
        | (None, st) => (n, st)
        | (Some key, st) =>
          match fuel with
          | O => (plusColon (i18nCall (StringLiteral key) [])
                            (StringLiteral (colonChar suffix)), st)
          | S fuel' =>
            let '(key', st) :=
              visitLiteral fuel' (FCall i18nCallee :: FBinary (lit "+") :: p)
                           false key st in
            let '(colon', st) :=
              visitLiteral fuel' (FBinary (lit "+") :: p) false
                           (colonChar suffix) st in
            (plusColon (i18nCall key' []) colon', st)
          end
        end
      else
        match getKeyForChinese cleaned st with
        | (None, st) => (n, st)
        | (Some key, st) =>
          match fuel with
          | O => (i18nCall (StringLiteral key) [], st)
          | S fuel' =>
            let '(key', st) :=
              visitLiteral fuel' (FCall i18nCallee :: p) false key st in
            (i18nCall key' [], st)
          end
        end
    else (n, st).

(** *** The visitor *)

Section Visitor.

(** [recast.print(node).code], the pretty printer of the Recast library. *)
Variable printCode : node -> jsstring.

(** [getTemplateString]: the cooked segments with every expression
    printed back between the interpolation markers. *)
Fixpoint getTemplateString (quasis : list jsstring) (expressions : list node)
  : jsstring :=
  match quasis with
  | [] => []
  | cooked :: quasis' =>
    match expressions with
    | e :: expressions' =>
      cooked ++ lit "${" ++ printCode e ++ lit "}"
        ++ getTemplateString quasis' expressions'
    | [] => cooked ++ getTemplateString quasis' []
    end
  end.

(** [b.property('init', b.identifier(name), value)]. *)
Definition initProperty (name : jsstring) (value : node) : node :=
  Property (Identifier name) value.

(** [params.map((param, index) => b.property(...,
    node.expressions[index]))]: the builder throws when the expression is
    [undefined]. *)
Fixpoint pairParams (params : list Param) (expressions : list node)
  : option (list node) :=
  match params with
  | [] => Some []
  | param :: params' =>
    match expressions with
    | [] => None
    | e :: expressions' =>
      match pairParams params' expressions' with
      | Some properties => Some (initProperty (name param) e :: properties)
      | None => None
      end
    end
  end.

(** [variables.map(v => b.property('init', b.identifier(v.name),
    v.expression))]. *)
Definition variableProperties (variables : list Variable_) : list node :=
  map (fun v => initProperty (vname v) (expression v)) variables.

(** The literals made by a builder are visited by [visitLiteral] when
    the replacement is traversed. *)
Definition visitNewLiteral (p : path) (value : jsstring) : M node :=
  fun st => let '(n, st') := visitLiteral 1 p false value st in
            (Returned n, st').

(** The traversal of a replacement [$i18n.t(key, ...rest)] at path [p],
    where [visitRest] visits the arguments after the key. *)
Definition traverseCall (p : path) (key : jsstring)
    (visitRest : path -> M (list node)) : M node :=
  (let* key' := visitNewLiteral (FCall i18nCallee :: p) key in
   let* rest' := visitRest (FCall i18nCallee :: p) in
   ret (i18nCall key' rest'))%visit.

(** The traversal of a replacement [$i18n.t(key, ...rest) + colon]. *)
Definition traversePlusColon (p : path) (key colon : jsstring)
    (visitRest : path -> M (list node)) : M node :=
  (let* call' := traverseCall (FBinary (lit "+") :: p) key visitRest in
   let* colon' := visitNewLiteral (FBinary (lit "+") :: p) colon in
   ret (plusColon call' colon'))%visit.

(** The traversal of the properties built from the expressions of a
    template literal: each value is visited below its property, the
    object expression and the call. *)
Definition visitProperties (visit : path -> node -> M node)
  : list node -> list Param -> path -> M (list node) :=
  fix go (expressions : list node) (params : list Param) (p : path)
    {struct expressions} : M (list node) :=
    match expressions, params with
    | e :: expressions', param :: params' =>
      (let* e' := visit (FOther :: FOther :: p) e in
       let* rest := go expressions' params' p in
       ret (initProperty (name param) e' :: rest))%visit
    | _, _ => ret []
    end.

(** [visit(ast, {visitBinaryExpression, visitLiteral,
    visitTemplateLiteral})] at the node [n] with path [p]; [processed]
    tells whether [n] is in [processedNodes].  A node of any other type
    is traversed.  [markProcessedNodes] marks a chain and the operands of
    its binary expressions, which is what [processed] records on the way
    down. *)
Fixpoint visit (p : path) (processed : bool) (n : node) {struct n} : M node :=
  match n with
  | Identifier _ => ret n
  | OtherLiteral _ => ret n
  | StringLiteral value =>
    fun st => let '(n', st') := visitLiteral 1 p processed value st in
              (Returned n', st')
  | TemplateLiteral quasis expressions =>
    let traverse :=
      (let* expressions' := visitAll (visit (FOther :: p) false) expressions in
       ret (TemplateLiteral quasis expressions'))%visit in
    if isInConsoleCall p then traverse
    else if isInI18nCall p then traverse
    else
      let templateText := getTemplateString quasis expressions in
      let cleaned := cleanString templateText in
      if negb (isOnlyChinese cleaned) then traverse
      else
        match expressions with
        | _ :: _ =>
          let vars := extractTemplateVars templateText in
          let suffix := detectColonSuffix (text vars) in
          let finalText :=
            if hasColonSuffix suffix then textWithoutColon suffix
            else text vars in
          (let* key := resolveKey finalText in
           match key with
           | None => traverse
           | Some key =>
             match pairParams (params vars) expressions with
             | None => throw
             | Some _ =>
               let visitRest := fun p' =>
                 (let* properties' :=
                    visitProperties (fun q => visit q false) expressions
                                    (params vars) p' in
                  ret [ObjectExpression properties'])%visit in
               if hasColonSuffix suffix
               then traversePlusColon p key (colonChar suffix) visitRest
               else traverseCall p key visitRest
             end
           end)%visit
        | [] =>
          let suffix := detectColonSuffix cleaned in
          let finalText :=
            if hasColonSuffix suffix then textWithoutColon suffix
            else cleaned in
          (let* key := resolveKey finalText in
           match key with
           | None => traverse
           | Some key =>
             if hasColonSuffix suffix
             then traversePlusColon p key (colonChar suffix) (fun _ => ret [])
             else traverseCall p key (fun _ => ret [])
           end)%visit
        end
  | BinaryExpression operator l r =>
    let traverse := fun marked =>
      (let* l' := visit (FBinary operator :: p) marked l in
       let* r' := visit (FBinary operator :: p) marked r in
       ret (BinaryExpression operator l' r'))%visit in
    if processed then traverse true
    else if negb (jsEq operator (lit "+")) then traverse false
    else if isInConsoleCall p then traverse false
    else if isInI18nCall p then traverse false
    else
      let parts := collectBinaryParts n in
      let hasStringLiteral := existsb isStringPart parts in
      if negb hasStringLiteral then traverse false
      else
        let '(templateText, variables) := composeParts parts [] [] in
        let cleaned := cleanString templateText in
        if negb (isOnlyChinese cleaned) then traverse false
        else
          let suffix := detectColonSuffix cleaned in
          let finalText :=
            if hasColonSuffix suffix then textWithoutColon suffix
            else cleaned in
          (let* key := resolveKey finalText in
           match key with
           | None => traverse true
           | Some key =>
             let rest :=
               match variables with
               | [] => []
               | _ => [ObjectExpression (variableProperties variables)]
               end in
             let i18nCall := i18nCall (StringLiteral key) rest in
             if hasColonSuffix suffix
             then ret (plusColon i18nCall (StringLiteral (colonChar suffix)))
             else ret i18nCall
           end)%visit
  | CallExpression callee arguments =>
    (let* callee' := visit (FCall callee :: p) false callee in
     let* arguments' := visitAll (visit (FCall callee' :: p) false) arguments in
     ret (CallExpression callee' arguments'))%visit
  | MemberExpression object property =>
    (let* object' := visit (FOther :: p) false object in
     let* property' := visit (FOther :: p) false property in
     ret (MemberExpression object' property'))%visit
  | ObjectExpression properties =>
    (let* properties' := visitAll (visit (FOther :: p) false) properties in
     ret (ObjectExpression properties'))%visit
  | Property key value =>
    (let* key' := visit (FPropertyKey :: p) false key in
     let* value' := visit (FOther :: p) false value in
     ret (Property key' value'))%visit
  | OtherNode type children =>
    (let* children' := visitAll (visit (FOther :: p) false) children in
     ret (OtherNode type children'))%visit
  end.

End Visitor.

(** *** convertScript *)

Section ConvertScript.

(** The Recast library: [recast.parse] ([None] when it throws),
    [recast.print(node).code] for one expression, and
    [recast.print(ast, ...).code] for the tree of a parsed source, which
    reuses the original text of that source. *)
Variable parse : jsstring -> option node.
Variable printCode : node -> jsstring.
Variable print : jsstring -> node -> jsstring.

(** [convertScript]: whatever is thrown inside [try] is caught and the
    original script is returned. *)
Definition convertScript (scriptContent : jsstring) (st : state)
  : jsstring * state :=
  match scriptContent with
  | [] => ([], st)
  | _ =>
    match parse scriptContent with
    | None => (scriptContent, st)
    | Some ast =>
      match visit printCode [] false ast st with
      | (Returned ast', st') => (print scriptContent ast', st')
      | (Thrown, st') => (scriptContent, st')
      end
    end
  end.

End ConvertScript.

(** ** Regions without convertible text *)

(** No string literal and no template literal of the tree has a text
    that [isOnlyChinese] accepts once cleaned. *)
Fixpoint noConvertibleText (printCode : node -> jsstring) (n : node) : bool :=
  match n with
  | Identifier _ => true
  | OtherLiteral _ => true
  | StringLiteral value => negb (isOnlyChinese (cleanString value))
  | TemplateLiteral quasis expressions =>
    negb (isOnlyChinese
            (cleanString (getTemplateString printCode quasis expressions)))
    && forallb (noConvertibleText printCode) expressions
  | BinaryExpression _ l r =>
    noConvertibleText printCode l && noConvertibleText printCode r
  | CallExpression callee arguments =>
    noConvertibleText printCode callee
    && forallb (noConvertibleText printCode) arguments
  | MemberExpression object property =>
    noConvertibleText printCode object && noConvertibleText printCode property
  | ObjectExpression properties =>
    forallb (noConvertibleText printCode) properties
  | Property key value =>
    noConvertibleText printCode key && noConvertibleText printCode value
  | OtherNode _ children => forallb (noConvertibleText printCode) children
  end.

(** ** A small printer and parser

    Instances of the Recast functions on a fragment of the language, used
    to run the rewriter on concrete sources. *)

Fixpoint joinWith (sep : jsstring) (l : list jsstring) : jsstring :=
  match l with
  | [] => []
  | [s] => s
  | s :: l' => s ++ sep ++ joinWith sep l'
  end.

Definition quote : N := 0x22.
Definition backslash : N := 0x5C.
Definition backtick : N := 0x60.

(** Source text of a node of the fragment. *)
Fixpoint samplePrint (n : node) : jsstring :=
  match n with
  | Identifier name => name
  | StringLiteral value => [quote] ++ value ++ [quote]
  | OtherLiteral raw => raw
  | TemplateLiteral quasis expressions =>
    [backtick]
      ++ (fix segments (expressions : list node) (quasis : list jsstring)
            {struct expressions} : jsstring :=
            match expressions, quasis with
            | e :: expressions', cooked :: quasis' =>
              cooked ++ lit "${" ++ samplePrint e ++ lit "}"
                ++ segments expressions' quasis'
            | [], _ => concat quasis
            | _ :: _, [] => []
            end) expressions quasis
      ++ [backtick]
  | BinaryExpression operator l r =>
    samplePrint l ++ lit " " ++ operator ++ lit " " ++ samplePrint r
  | CallExpression callee arguments =>
    samplePrint callee ++ lit "("
      ++ joinWith (lit ", ") (map samplePrint arguments) ++ lit ")"
  | MemberExpression object property =>
    samplePrint object ++ lit "." ++ samplePrint property
  | ObjectExpression properties =>
    lit "{" ++ joinWith (lit ", ") (map samplePrint properties) ++ lit "}"
  | Property key value => samplePrint key ++ lit ": " ++ samplePrint value
  | OtherNode _ children => concat (map samplePrint children)
  end.

(** A character of a double-quoted literal without escapes. *)
Definition plainChar (c : N) : bool :=
  negb ((c =? quote) || (c =? backslash) || (c =? 0xA) || (c =? 0xD)).

(** A parser of the sources made of one double-quoted string literal;
    it throws on every other source. *)
Definition sampleParse (source : jsstring) : option node :=
  match source with
  | c :: rest =>
    if (c =? quote) && endsWith [quote] rest && forallb plainChar (sliceInit rest)
    then Some (OtherNode (lit "File")
                 [OtherNode (lit "ExpressionStatement")
                    [StringLiteral (sliceInit rest)]])
    else None
  | [] => None
  end.

(** The printer of a whole tree; it does not need the original source. *)
Definition sampleReprint (original : jsstring) (ast : node) : jsstring :=
  samplePrint ast.

(** ** Sample sources *)

(** The source ["ok"], a string literal without convertible text. *)
Definition plainSource : jsstring := [quote] ++ lit "ok" ++ [quote].

(** A source that is not a script. *)
Definition brokenSource : jsstring := lit "const = ;".

(** The template literal [`中\${a}${b}`]: its first cooked segment holds
    an interpolation marker of its own. *)
Definition escapedTemplate : node :=
  TemplateLiteral [[0x4E2D] ++ lit "${a}"; []] [Identifier (lit "b")].

(** ** templateParser.js: regular expressions

    [str.replace(regex, callback)] with a global regular expression tries
    the pattern at each position from left to right, calls the callback
    on every match and resumes after the match.  Every pattern of
    templateParser.js is a sequence of literals and repeated character
    classes in which no class shares a character with what follows it, so
    a greedy scan without backtracking decides each attempt; the two lazy
    patterns stop at the first occurrence of their closing literal. *)

(** [cls*]: the longest prefix in the class, and the rest. *)
Fixpoint takeWhile (cls : N -> bool) (s : jsstring) : jsstring * jsstring :=
  match s with
  | [] => ([], [])
  | c :: s' =>
    if cls c then let '(taken, rest) := takeWhile cls s' in (c :: taken, rest)
    else ([], s)
  end.

(** [cls+]. *)
Definition takeSome (cls : N -> bool) (s : jsstring)
  : option (jsstring * jsstring) :=
  match takeWhile cls s with
  | ([], _) => None
  | r => Some r
  end.

(** A literal. *)
Definition expect (p s : jsstring) : option jsstring :=
  if startsWith p s then Some (drop (length p) s) else None.

(** One character of a class. *)
Definition oneOf (cls : N -> bool) (s : jsstring) : option (N * jsstring) :=
  match s with
  | c :: s' => if cls c then Some (c, s') else None
  | [] => None
  end.

(** [[\s\S]*?] followed by the literal [p]: what precedes the first
    occurrence of [p], and what follows it. *)
Fixpoint untilLit (p s : jsstring) : option (jsstring * jsstring) :=
  match expect p s with
  | Some rest => Some ([], rest)
  | None =>
    match s with
    | [] => None
    | c :: s' =>
      match untilLit p s' with
      | Some (before, rest) => Some (c :: before, rest)
      | None => None
      end
    end
  end.

Definition isQuoteChar (c : N) : bool := (c =? 0x22) || (c =? 0x27).
Definition notQuoteChar (c : N) : bool := negb (isQuoteChar c).
Definition notBacktick (c : N) : bool := negb (c =? 0x60).
Definition notLt (c : N) : bool := negb (c =? 0x3C).
Definition notDoubleQuote (c : N) : bool := negb (c =? 0x22).
Definition isLetter (c : N) : bool :=
  ((0x61 <=? c) && (c <=? 0x7A)) || ((0x41 <=? c) && (c <=? 0x5A)).

(** The class [[a-zA-Z-:@]]. *)
Definition isAttrNameChar (c : N) : bool :=
  isLetter c || (c =? 0x2D) || (c =? 0x3A) || (c =? 0x40).

(** The class [[a-zA-Z-]]. *)
Definition isBoundNameChar (c : N) : bool := isLetter c || (c =? 0x2D).

(** [/<!--[\s\S]*?-->/]. *)
Definition matchComment (s : jsstring) : option (unit * jsstring) :=
  match expect (lit "<!--") s with
  | Some s1 =>
    match untilLit (lit "-->") s1 with
    | Some (_, rest) => Some (tt, rest)
    | None => None
    end
  | None => None
  end.

(** The pattern of pass 1: two opening braces, white space, a single or
    double quote, one or more characters that are not quotes (the group),
    a quote, white space, two closing braces. *)
Definition matchInterpolatedString (s : jsstring)
  : option (jsstring * jsstring) :=
  match expect (lit "{{") s with
  | Some s1 =>
    let '(_, s2) := takeWhile isWhiteSpace s1 in
    match oneOf isQuoteChar s2 with
    | Some (_, s3) =>
      match takeSome notQuoteChar s3 with
      | Some (text, s4) =>
        match oneOf isQuoteChar s4 with
        | Some (_, s5) =>
          let '(_, s6) := takeWhile isWhiteSpace s5 in
          match expect (lit "}}") s6 with
          | Some rest => Some (text, rest)
          | None => None
          end
        | None => None
        end
      | None => None
      end
    | None => None
    end
  | None => None
  end.

(** The pattern of pass 1.5: two opening braces, white space, a template
    between backticks (its content is the group), white space, two
    closing braces. *)
Definition matchInterpolatedTemplate (s : jsstring)
  : option (jsstring * jsstring) :=
  match expect (lit "{{") s with
  | Some s1 =>
    let '(_, s2) := takeWhile isWhiteSpace s1 in
    match expect [backtick] s2 with
    | Some s3 =>
      let '(templateContent, s4) := takeWhile notBacktick s3 in
      match expect [backtick] s4 with
      | Some s5 =>
        let '(_, s6) := takeWhile isWhiteSpace s5 in
        match expect (lit "}}") s6 with
        | Some rest => Some (templateContent, rest)
        | None => None
        end
      | None => None
      end
    | None => None
    end
  | None => None
  end.

(** [/>([^<]+)</]; the group is the text between two tags. *)
Definition matchTextNode (s : jsstring) : option (jsstring * jsstring) :=
  match expect (lit ">") s with
  | Some s1 =>
    match takeSome notLt s1 with
    | Some (text, s2) =>
      match expect (lit "<") s2 with
      | Some rest => Some (text, rest)
      | None => None
      end
    | None => None
    end
  | None => None
  end.

(** [/\{\{[\s\S]*?\}\}/]. *)
Definition matchInterpolation (s : jsstring) : option (unit * jsstring) :=
  match expect (lit "{{") s with
  | Some s1 =>
    match untilLit (lit "}}") s1 with
    | Some (_, rest) => Some (tt, rest)
    | None => None
    end
  | None => None
  end.

(** The pattern of pass 3: white space, an attribute name (the first
    group), an equals sign, and a non-empty value between double quotes
    (the second group). *)
Definition matchStaticAttribute (s : jsstring)
  : option (jsstring * jsstring * jsstring) :=
  match takeSome isWhiteSpace s with
  | Some (_, s1) =>
    match takeSome isAttrNameChar s1 with
    | Some (attrName, s2) =>
      match expect (lit "=" ++ [quote]) s2 with
      | Some s3 =>
        match takeSome notDoubleQuote s3 with
        | Some (attrValue, s4) =>
          match expect [quote] s4 with
          | Some rest => Some (attrName, attrValue, rest)
          | None => None
          end
        | None => None
        end
      | None => None
      end
    | None => None
    end
  | None => None
  end.

(** The pattern of pass 4: a colon, an attribute name, an equals sign,
    a quote, then the full value (any characters that are not quotes, a
    quote, the non-empty inner text without quotes, a quote, any
    characters that are not quotes), and a quote.  The groups are the
    attribute name, the full value and the inner text. *)
Definition matchBoundLiteral (s : jsstring)
  : option (jsstring * jsstring * jsstring * jsstring) :=
  match expect (lit ":") s with
  | Some s1 =>
    match takeSome isBoundNameChar s1 with
    | Some (attrName, s2) =>
      match expect (lit "=") s2 with
      | Some s3 =>
        match oneOf isQuoteChar s3 with
        | Some (_, s4) =>
          let '(before, s5) := takeWhile notQuoteChar s4 in
          match oneOf isQuoteChar s5 with
          | Some (q1, s6) =>
            match takeSome notQuoteChar s6 with
            | Some (innerText, s7) =>
              match oneOf isQuoteChar s7 with
              | Some (q2, s8) =>
                let '(after, s9) := takeWhile notQuoteChar s8 in
                match oneOf isQuoteChar s9 with
                | Some (_, rest) =>
                  Some (attrName,
                        before ++ [q1] ++ innerText ++ [q2] ++ after,
                        innerText, rest)
                | None => None
                end
              | None => None
              end
            | None => None
            end
          | None => None
          end
        | None => None
        end
      | None => None
      end
    | None => None
    end
  | None => None
  end.

(** The pattern of pass 5: a colon, an attribute name, an equals sign,
    a quote, a template between backticks, and a quote.  The groups are
    the attribute name and the template content. *)
Definition matchBoundTemplate (s : jsstring)
  : option (jsstring * jsstring * jsstring) :=
  match expect (lit ":") s with
  | Some s1 =>
    match takeSome isBoundNameChar s1 with
    | Some (attrName, s2) =>
      match expect (lit "=") s2 with
      | Some s3 =>
        match oneOf isQuoteChar s3 with
        | Some (_, s4) =>
          match expect [backtick] s4 with
          | Some s5 =>
            let '(templateContent, s6) := takeWhile notBacktick s5 in
            match expect [backtick] s6 with
            | Some s7 =>
              match oneOf isQuoteChar s7 with
              | Some (_, rest) => Some (attrName, templateContent, rest)
              | None => None
              end
            | None => None
            end
          | None => None
          end
        | None => None
        end
      | None => None
      end
    | None => None
    end
  | None => None
  end.

(** [/___COMMENT_PLACEHOLDER___(\d+)___/]; the group is the index. *)
Definition matchPlaceholder (s : jsstring) : option (jsstring * jsstring) :=
  match expect (lit "___COMMENT_PLACEHOLDER___") s with
  | Some s1 =>
    match takeSome isDigit s1 with
    | Some (index, s2) =>
      match expect (lit "___") s2 with
      | Some rest => Some (index, rest)
      | None => None
      end
    | None => None
    end
  | None => None
  end.

(** The text of a match that leaves [rest] of [s]. *)
Definition matchedText (s rest : jsstring) : jsstring :=
  take (length s - length rest) s.

(** [s.replace(regex, callback)] for a global pattern with groups [G],
    and a callback that runs in a state [S]. *)
Fixpoint replaceAll {G S : Type} (fuel : nat)
    (matchAt : jsstring -> option (G * jsstring))
    (callback : jsstring -> G -> S -> jsstring * S)
    (s : jsstring) (st : S) : jsstring * S :=
  match fuel with
  | O => (s, st)
  | Datatypes.S fuel' =>
    match matchAt s with
    | Some (groups, rest) =>
      let '(replacement, st) := callback (matchedText s rest) groups st in
      let '(tail, st) := replaceAll fuel' matchAt callback rest st in
      (replacement ++ tail, st)
    | None =>
      match s with
      | [] => ([], st)
      | c :: s' =>
        let '(tail, st) := replaceAll fuel' matchAt callback s' st in
        (c :: tail, st)
      end
    end
  end.

Definition replace {G S : Type} (matchAt : jsstring -> option (G * jsstring))
    (callback : jsstring -> G -> S -> jsstring * S)
    (s : jsstring) (st : S) : jsstring * S :=
  replaceAll (Datatypes.S (length s)) matchAt callback s st.

(** ** templateParser.js: the markup rewriter *)

Definition apostrophe : N := 0x27.

(** [convertToI18n]; [None] is [null]. *)
Definition convertToI18n (text format : jsstring) (st : state)
  : option jsstring * state :=
  let suffix := detectColonSuffix text in
  if hasColonSuffix suffix then
    match getKeyForChinese (textWithoutColon suffix) st with
    | (None, st) => (None, st)
    | (Some key, st) =>
      if jsEq format (lit "template") then
        (Some (lit "{{ $t('" ++ key ++ lit "') + " ++ [quote]
                 ++ colonChar suffix ++ [quote] ++ lit " }}"), st)
      else if jsEq format (lit "attr") then
        (Some (lit "$t('" ++ key ++ lit "') + '" ++ colonChar suffix
                 ++ lit "'"), st)
      else (None, st)
    end
  else
    match getKeyForChinese text st with
    | (None, st) => (None, st)
    | (Some key, st) =>
      if jsEq format (lit "template") then
        (Some (lit "{{ $t('" ++ key ++ lit "') }}"), st)
      else if jsEq format (lit "attr") then
        (Some (lit "$t('" ++ key ++ lit "')"), st)
      else (None, st)
    end.

(** [converted !== null ? converted : original] after cleaning and
    classifying a piece of text. *)
Definition convertPiece (original : jsstring) (st : state) : jsstring * state :=
  let cleaned := cleanString original in
  if isOnlyChinese cleaned then
    match convertToI18n cleaned (lit "template") st with
    | (Some converted, st) => (converted, st)
    | (None, st) => (original, st)
    end
  else (original, st).

(** Pass 0: a comment is stored and replaced by a numbered placeholder. *)
Definition protectComment (matched : jsstring) (_ : unit)
    (comments : list jsstring) : jsstring * list jsstring :=
  let comments := comments ++ [matched] in
  (lit "___COMMENT_PLACEHOLDER___" ++ lit (pretty (length comments - 1)%nat)
     ++ lit "___", comments).

(** Pass 1: a string literal inside an interpolation. *)
Definition convertInterpolatedString (matched text : jsstring) (st : state)
  : jsstring * state :=
  if includes (lit "$t(") matched then (matched, st)
  else
    let cleaned := cleanString text in
    if isOnlyChinese cleaned then
      match convertToI18n cleaned (lit "template") st with
      | (Some converted, st) => (converted, st)
      | (None, st) => (matched, st)
      end
    else (matched, st).

(** [params.map(p => `${p.name}: ${p.expr}`).join(', ')]. *)
Definition paramsObj (params : list Param) : jsstring :=
  joinWith (lit ", ") (map (fun p => name p ++ lit ": " ++ expr p) params).

(** The translation call of a template with its parameters, without the
    wrapper of the pass. *)
Definition templateCall (key : jsstring) (params : list Param) : jsstring :=
  match params with
  | [] => lit "$t('" ++ key ++ lit "')"
  | _ => lit "$t('" ++ key ++ lit "', { " ++ paramsObj params ++ lit " })"
  end.

(** The body shared by passes 1.5 and 5, where [wrap] builds the
    replacement from the call and the colon. *)
Definition convertTemplateContent (wrap : jsstring -> jsstring -> jsstring)
    (matched templateContent : jsstring) (st : state) : jsstring * state :=
  let vars := extractTemplateVars templateContent in
  if hasChinese vars then
    let cleaned := cleanString (text vars) in
    let suffix := detectColonSuffix cleaned in
    if hasColonSuffix suffix then
      match getKeyForChinese (textWithoutColon suffix) st with
      | (None, st) => (matched, st)
      | (Some key, st) =>
        (wrap (templateCall key (params vars)) (colonChar suffix), st)
      end
    else
      match getKeyForChinese cleaned st with
      | (None, st) => (matched, st)
      | (Some key, st) => (wrap (templateCall key (params vars)) [], st)
      end
  else (matched, st).

(** [call] alone, or [call + 'colon']. *)
Definition plusColonText (call colon : jsstring) : jsstring :=
  match colon with
  | [] => call
  | _ => call ++ lit " + '" ++ colon ++ lit "'"
  end.

(** Pass 1.5: a template literal inside an interpolation. *)
Definition convertInterpolatedTemplate (matched templateContent : jsstring)
    (st : state) : jsstring * state :=
  if includes (lit "$t(") matched then (matched, st)
  else
    convertTemplateContent
      (fun call colon => lit "{{ " ++ plusColonText call colon ++ lit " }}")
      matched templateContent st.

(** The loop of pass 2 over the interpolations of a text: the text
    before each interpolation with that interpolation, and the text
    after the last one. *)
Fixpoint scanInterpolations (fuel : nat) (s before : jsstring)
  : list (jsstring * jsstring) * jsstring :=
  match fuel with
  | O => ([], before ++ s)
  | S fuel' =>
    match matchInterpolation s with
    | Some (_, rest) =>
      let '(more, after) := scanInterpolations fuel' rest [] in
      ((before, matchedText s rest) :: more, after)
    | None =>
      match s with
      | [] => ([], before)
      | c :: s' => scanInterpolations fuel' s' (before ++ [c])
      end
    end
  end.

(** [if (beforeText) { ... parts.push(...) }]. *)
Definition pushText (piece : jsstring) (st : state)
  : list jsstring * state :=
  match piece with
  | [] => ([], st)
  | _ => let '(part, st) := convertPiece piece st in ([part], st)
  end.

Fixpoint convertSegments (segments : list (jsstring * jsstring))
    (afterText : jsstring) (st : state) : list jsstring * state :=
  match segments with
  | [] => pushText afterText st
  | (beforeText, interpolation) :: segments' =>
    let '(parts, st) := pushText beforeText st in
    let '(more, st) := convertSegments segments' afterText st in
    (parts ++ interpolation :: more, st)
  end.

(** Pass 2: the text between two tags. *)
Definition convertTextNode (matched text : jsstring) (st : state)
  : jsstring * state :=
  if includes (lit "{{") text && includes (lit "}}") text then
    let '(segments, afterText) :=
      scanInterpolations (S (length text)) text [] in
    let '(parts, st) := convertSegments segments afterText st in
    if negb (length parts =? 0)%nat && negb (jsEq (concat parts) text)
    then (lit ">" ++ concat parts ++ lit "<", st)
    else (matched, st)
  else
    let cleaned := cleanString text in
    if isOnlyChinese cleaned then
      match convertToI18n cleaned (lit "template") st with
      | (Some converted, st) => (lit ">" ++ converted ++ lit "<", st)
      | (None, st) => (matched, st)
      end
    else (matched, st).

(** Pass 3: the value of a static attribute. *)
Definition convertStaticAttribute (matched : jsstring)
    (groups : jsstring * jsstring) (st : state) : jsstring * state :=
  let '(attrName, attrValue) := groups in
  if startsWith (lit ":") attrName || startsWith (lit "v-") attrName
  then (matched, st)
  else
    let cleaned := cleanString attrValue in
    if isOnlyChinese cleaned then
      match convertToI18n cleaned (lit "attr") st with
      | (Some converted, st) =>
        (lit " :" ++ attrName ++ lit "=" ++ [quote] ++ converted ++ [quote],
         st)
      | (None, st) => (matched, st)
      end
    else (matched, st).

(** Pass 4: a string literal that is the whole value of a bound
    attribute. *)
Definition convertBoundLiteral (matched : jsstring)
    (groups : jsstring * jsstring * jsstring) (st : state)
  : jsstring * state :=
  let '(attrName, fullValue, innerText) := groups in
  let cleaned := cleanString innerText in
  if isOnlyChinese cleaned then
    if jsEq (trim fullValue) ([apostrophe] ++ innerText ++ [apostrophe])
       || jsEq (trim fullValue) ([quote] ++ innerText ++ [quote])
    then
      let suffix := detectColonSuffix cleaned in
      if hasColonSuffix suffix then
        match getKeyForChinese (textWithoutColon suffix) st with
        | (None, st) => (matched, st)
        | (Some key, st) =>
          (lit ":" ++ attrName ++ lit "=" ++ [quote] ++ lit "$t('" ++ key
             ++ lit "') + '" ++ colonChar suffix ++ lit "'" ++ [quote], st)
        end
      else
        match getKeyForChinese cleaned st with
        | (None, st) => (matched, st)
        | (Some key, st) =>
          (lit ":" ++ attrName ++ lit "=" ++ [quote] ++ lit "$t('" ++ key
             ++ lit "')" ++ [quote], st)
        end
    else (matched, st)
  else (matched, st).

(** Pass 5: a template literal that is the value of a bound attribute. *)
Definition convertBoundTemplate (matched : jsstring)
    (groups : jsstring * jsstring) (st : state) : jsstring * state :=
  let '(attrName, templateContent) := groups in
  convertTemplateContent
    (fun call colon =>
       lit ":" ++ attrName ++ lit "=" ++ [quote] ++ plusColonText call colon
         ++ [quote])
    matched templateContent st.

(** [parseInt] of a string of digits. *)
Definition parseInt (digits : jsstring) : nat :=
  fold_left (fun n c => (10 * n + N.to_nat (c - 0x30))%nat) digits O.

(** Pass 6: [comments[parseInt(index)]]; a missing entry is printed as
    [undefined]. *)
Definition restoreComment (comments : list jsstring) (_ index : jsstring)
    (u : unit) : jsstring * unit :=
  (nth (parseInt index) comments (lit "undefined"), u).

(** [convertTemplate]. *)
Definition convertTemplate (templateContent : jsstring) (st : state)
  : jsstring * state :=
  match templateContent with
  | [] => ([], st)
  | _ =>
    let '(result, comments) :=
      replace matchComment protectComment templateContent [] in
    let '(result, st) :=
      replace matchInterpolatedString convertInterpolatedString result st in
    let '(result, st) :=
      replace matchInterpolatedTemplate convertInterpolatedTemplate result st in
    let '(result, st) := replace matchTextNode convertTextNode result st in
    let '(result, st) :=
      replace matchStaticAttribute convertStaticAttribute result st in
    let '(result, st) :=
      replace matchBoundLiteral convertBoundLiteral result st in
    let '(result, st) :=
      replace matchBoundTemplate convertBoundTemplate result st in
    let '(result, _) :=
      replace matchPlaceholder (restoreComment comments) result tt in
    (result, st)
  end.

(** ** Notions of the specification *)

(** The priority order of the specification, for the candidate keys of
    one text: a key below [common.], else a key below the scope prefix
    when one is set, else the first-seen key. *)
Definition selectByPriority (scope : option jsstring) (first : jsstring)
    (others : list jsstring) : jsstring :=
  match find (startsWith (lit "common.")) (keysOf first others) with
  | Some commonKey => commonKey
  | None =>
    match scope with
    | Some prefix =>
      match find (startsWith (prefix ++ lit ".")) (keysOf first others) with
      | Some scoped => scoped
      | None => first
      end
    | None => first
    end
  end.

(** A text has a usable key when the dictionary has an entry for it
    whose selected key passes the scope rule. *)
Definition hasUsableKey (st : state) (chineseText : jsstring) : bool :=
  match i18nMap st !! chineseText with
  | None => false
  | Some (Single key) => isKeyPathMatched key st
  | Some (Multi first others) =>
    isKeyPathMatched (selectByPriority (activePath st) first others) st
  end.

(** The text that is looked up for a piece of markup: cleaned, without
    its trailing colon. *)
Definition lookedUp (raw : jsstring) : jsstring :=
  textWithoutColon (detectColonSuffix (cleanString raw)).

(** The states after resolving a text [n] times. *)
Fixpoint resolveTimes (n : nat) (chineseText : jsstring) (st : state) : state :=
  match n with
  | O => st
  | S n' => resolveTimes n' chineseText (getKeyForChinese chineseText st).2
  end.

(** ** Sample markup *)

(** The text of the skip law, and a text with a key. *)
Definition newFeature : jsstring := [0x65B0; 0x529F; 0x80FD].
Definition deleteText : jsstring := [0x5220; 0x9664].

(** A run in skip mode whose dictionary knows [deleteText] only. *)
Definition skipRun : state :=
  {| i18nMap := {[ deleteText := Single (lit "common.delete") ]};
     unmatchedTexts := []; skipUnmatched := true; matchPath := None |}.

(** Markup in which [newFeature] occurs in a comment, in a text node, in
    a text node before an interpolation (with a colon) and in a bound
    attribute, next to a text that has a key. *)
Definition skipMarkup : jsstring :=
  lit "<div><!-- " ++ newFeature ++ lit " --><h1>" ++ newFeature
    ++ lit "</h1><button title=" ++ [quote] ++ deleteText ++ [quote]
    ++ lit ">" ++ deleteText ++ lit "</button><p>" ++ newFeature
    ++ lit ":{{ a.b }}</p><i :t=" ++ [quote] ++ lit "'" ++ newFeature
    ++ lit "'" ++ [quote] ++ lit "></i></div>".

(** The same markup with the text that has a key converted. *)
Definition skipMarkupConverted : jsstring :=
  lit "<div><!-- " ++ newFeature ++ lit " --><h1>" ++ newFeature
    ++ lit "</h1><button :title=" ++ [quote] ++ lit "$t('common.delete')"
    ++ [quote] ++ lit ">{{ $t('common.delete') }}</button><p>" ++ newFeature
    ++ lit ":{{ a.b }}</p><i :t=" ++ [quote] ++ lit "'" ++ newFeature
    ++ lit "'" ++ [quote] ++ lit "></i></div>".

(** ** Sample code *)

(** The literal of the punctuation law, and a dictionary with its key. *)
Definition titleText : jsstring := [0x6807; 0x9898].

Definition titleRun : state :=
  {| i18nMap := {[ titleText := Single (lit "common.title") ]};
     unmatchedTexts := []; skipUnmatched := false; matchPath := None |}.

(** The template literal of the parameter-extraction property, with the
    dictionary of that property. *)
Definition userText : jsstring := [0x5F53; 0x524D; 0x7528; 0x6237].

Definition username : node := Identifier (lit "username").

Definition userTemplate : node :=
  TemplateLiteral [userText ++ [fullwidthColon]; []] [username].

Definition userRun : state :=
  {| i18nMap := {[ userText := Single (lit "user.current") ]};
     unmatchedTexts := []; skipUnmatched := false; matchPath := None |}.

(** The text that is looked up for [userTemplate]. *)
Definition userBody : jsstring :=
  userText ++ [fullwidthColon] ++ lit "{param1}".

(** The same template with the colon at its end, and its body. *)
Definition userTemplateColonLast : node :=
  TemplateLiteral [userText; [fullwidthColon]] [username].

Definition userBodyColonLast : jsstring := userText ++ lit "{param1}".

(** [{param1: username}]. *)
Definition userParams : node :=
  ObjectExpression [Property (Identifier (lit "param1")) username].

(** A template literal with an ideograph in its expression only. *)
Definition asciiTemplate : node :=
  TemplateLiteral [lit "abc"; []] [Identifier [0x540D]].

(** The chain ["你好" + f("世界")]. *)
Definition helloText : jsstring := [0x4F60; 0x597D].
Definition worldText : jsstring := [0x4E16; 0x754C].

Definition nestedChain : node :=
  BinaryExpression (lit "+") (StringLiteral helloText)
    (CallExpression (Identifier (lit "f")) [StringLiteral worldText]).

(** The text of [userTemplate] and of [userTemplateColonLast], with the
    expression printed as [username]. *)
Definition userSource : jsstring :=
  userText ++ [fullwidthColon] ++ lit "${username}".

Definition userSourceColonLast : jsstring :=
  userText ++ lit "${username}" ++ [fullwidthColon].

(** The parameter extracted from both. *)
Definition userParam : Param :=
  {| name := lit "param1"; expr := lit "username" |}.

(** ** Repeated runs *)

(** A tree without [+] and without a template literal that has
    expressions. *)
Fixpoint plainLiterals (n : node) : bool :=
  match n with
  | Identifier _ => true
  | StringLiteral _ => true
  | OtherLiteral _ => true
  | TemplateLiteral _ expressions =>
    match expressions with
    | [] => true
    | _ :: _ => false
    end
  | BinaryExpression operator l r =>
    negb (jsEq operator (lit "+")) && plainLiterals l && plainLiterals r
  | CallExpression callee arguments =>
    plainLiterals callee && forallb plainLiterals arguments
  | MemberExpression object property =>
    plainLiterals object && plainLiterals property
  | ObjectExpression properties => forallb plainLiterals properties
  | Property key value => plainLiterals key && plainLiterals value
  | OtherNode _ children => forallb plainLiterals children
  end.

(** What [isInConsoleCall] and [isInI18nCall] read of a callee. *)
Inductive calleeShape :=
  | ShapeMember (object property : option jsstring)
  | ShapeIdentifier (name : jsstring)
  | ShapeOther.

Definition identifierName (n : node) : option jsstring :=
  match n with
  | Identifier name => Some name
  | _ => None
  end.

Definition shapeOf (n : node) : calleeShape :=
  match n with
  | MemberExpression object property =>
    ShapeMember (identifierName object) (identifierName property)
  | Identifier name => ShapeIdentifier name
  | _ => ShapeOther
  end.

(** Two frames that the visitor methods cannot tell apart. *)
Definition sameFrame (f g : frame) : Prop :=
  match f, g with
  | FCall c, FCall c' => shapeOf c = shapeOf c'
  | FBinary o, FBinary o' => o = o'
  | FPropertyKey, FPropertyKey => True
  | FOther, FOther => True
  | _, _ => False
  end.

Definition samePath (p q : path) : Prop := Forall2 sameFrame p q.

(** The part of the state that resolution reads. *)
Definition optionsOf (st : state)
  : gmap jsstring keyOrKeys * bool * option jsstring :=
  (i18nMap st, skipUnmatched st, matchPath st).

(** [nestedChain] after one run and after two runs with an empty
    dictionary. *)
Definition nestedChainOnce : node :=
  i18nCall (StringLiteral (helloText ++ lit "{param1}"))
    [ObjectExpression
       [Property (Identifier (lit "param1"))
          (CallExpression (Identifier (lit "f")) [StringLiteral worldText])]].

Definition nestedChainTwice : node :=
  i18nCall (StringLiteral (helloText ++ lit "{param1}"))
    [ObjectExpression
       [Property (Identifier (lit "param1"))
          (CallExpression (Identifier (lit "f"))
             [i18nCall (StringLiteral worldText) []])]].

(** ** Notions used by the properties *)

(** A string part with an ideograph. *)
Definition partChinese (part : part) : bool :=
  match part with
  | PartString value => existsb isChineseChar value
  | PartExpression _ => false
  end.

(** No text is twice in the unmatched set. *)
Definition distinctUnmatched (st : state) : Prop :=
  NoDup (unmatchedTexts st).

(** What a literal or a template without expressions becomes, given the
    answer of the tests on its path and its cleaned text. *)
Definition rewriteLeaf (skipped : bool) (cleaned : jsstring) (original : node)
    (st : state) : node * state :=
  if skipped then (original, st)
  else if isOnlyChinese cleaned then
    let suffix := detectColonSuffix cleaned in
    match getKeyForChinese (textWithoutColon suffix) st with
    | (None, st') => (original, st')
    | (Some key, st') =>
      (if hasColonSuffix suffix
       then plusColon (i18nCall (StringLiteral key) [])
                      (StringLiteral (colonChar suffix))
       else i18nCall (StringLiteral key) [], st')
    end
  else (original, st).

Definition literalSkipped (p : path) (processed : bool) : bool :=
  processed || isPlusOperand p || isObjectPropertyKey p
  || isInConsoleCall p || isInI18nCall p.

(** A later visit, at a path and in a state that the methods cannot tell
    from [p] and [st1], returns [n1] as it is. *)
Definition stableAt (printCode : node -> jsstring) (n1 : node) (p : path)
    (st1 : state) : Prop :=
  forall q st2,
    samePath p q -> optionsOf st1 = optionsOf st2 ->
    exists st2', visit printCode q false n1 st2 = (Returned n1, st2') /\
                 optionsOf st2' = optionsOf st2.

(** One run returns a tree of the same shape, which is stable. *)
Definition runsOnce (printCode : node -> jsstring) (n : node) : Prop :=
  forall p st1,
    exists n1 st1',
      visit printCode p false n st1 = (Returned n1, st1') /\
      optionsOf st1' = optionsOf st1 /\
      shapeOf n1 = shapeOf n /\
      stableAt printCode n1 p st1.

(** A pattern makes progress when every match leaves a shorter rest. *)
Definition makesProgress {G : Type}
    (matchAt : jsstring -> option (G * jsstring)) : Prop :=
  forall s groups rest,
    matchAt s = Some (groups, rest) -> (length rest < length s)%nat.

(** ** Sample dictionaries *)

(** A state whose dictionary maps the text T to a.x, common.y and b.z. *)
Definition threeKeys : state :=
  {| i18nMap := {[ lit "T" := Multi (lit "a.x") [lit "common.y"; lit "b.z"] ]};
     unmatchedTexts := []; skipUnmatched := false; matchPath := None |}.

(** The text of the scope-prefix law and its two dictionaries. *)
Definition wenben : jsstring := [0x6587; 0x672C].

Definition dictPdaOther : list (jsstring * jsvalue) :=
  [(lit "pda", VObject [(lit "a", VString wenben)]);
   (lit "other", VObject [(lit "a", VString wenben)])].

Definition dictOther : list (jsstring * jsvalue) :=
  [(lit "other", VObject [(lit "a", VString wenben)])].

(** The state of a run started with [--match-path pda]. *)
Definition pdaRun (zhData : list (jsstring * jsvalue)) (skip : bool)
    (st : state) : state :=
  loadI18nMap zhData
    (setConvertOptions skip (Some (lit "pda")) (resetUnmatchedTexts st)).

(** ** Notions used by the further properties *)

(** A string that does not start with white space. *)
Definition startsNonWhite (s : jsstring) : Prop :=
  match s with
  | [] => True
  | c :: _ => isWhiteSpace c = false
  end.

(** The expressions of the parts of a chain that are not string
    literals, in order. *)
Fixpoint holesOf (parts : list part) : list node :=
  match parts with
  | [] => []
  | PartString _ :: parts' => holesOf parts'
  | PartExpression n :: parts' => n :: holesOf parts'
  end.

(** The captures of the matches of a scanned template, in order. *)
Fixpoint capturesOf (ps : list piece) : list jsstring :=
  match ps with
  | [] => []
  | PUnit _ :: ps' => capturesOf ps'
  | PVar e :: ps' => e :: capturesOf ps'
  end.

(** The text under which a dictionary value is indexed. *)
Definition textOf (value : jsstring) : jsstring :=
  textWithoutColon (detectColonSuffix value).

(** The string leaves below a value whose full key is [fullKey], with
    their full keys, in the order of the loop. *)
Fixpoint leavesOfValue (value : jsvalue) (fullKey : jsstring)
  : list (jsstring * jsstring) :=
  match value with
  | VObject fields =>
    (fix loop (fields : list (jsstring * jsvalue))
       : list (jsstring * jsstring) :=
       match fields with
       | [] => []
       | (key, value) :: fields' =>
         leavesOfValue value (fullKeyOf fullKey key) ++ loop fields'
       end) fields
  | VString s => [(fullKey, s)]
  | VArray _ => []
  | VOther _ => []
  end.

(** The string leaves of an object, with their full keys. *)
Fixpoint leavesOf (obj : list (jsstring * jsvalue)) (prefix : jsstring)
  : list (jsstring * jsstring) :=
  match obj with
  | [] => []
  | (key, value) :: obj' =>
    leavesOfValue value (fullKeyOf prefix key) ++ leavesOf obj' prefix
  end.

(** The keys of an entry of the index, in order. *)
Definition entryKeys (entry : option keyOrKeys) : list jsstring :=
  match entry with
  | None => []
  | Some (Single key) => [key]
  | Some (Multi first others) => first :: others
  end.

(** The entry that holds a list of keys. *)
Definition groupOf (keys : list jsstring) : option keyOrKeys :=
  match keys with
  | [] => None
  | [key] => Some (Single key)
  | first :: others => Some (Multi first others)
  end.

(** The full keys of the leaves indexed under a text, in order. *)
Definition keysFor (chineseText : jsstring)
    (leaves : list (jsstring * jsstring)) : list jsstring :=
  map fst (List.filter (fun leaf => jsEq (textOf leaf.2) chineseText) leaves).

(** A step of a visitor method keeps a property of the state, whether it
    returns or throws. *)
Definition keeps {A} (I : state -> Prop) (m : M A) : Prop :=
  forall st, I st -> I (m st).2.

(** What a run that starts in [st0] may have done when it is in [st]: the
    dictionary and the options are those of [st0]; the unmatched texts of
    [st0] are still there, in front and in order; no text has been added
    twice; and every text that has been added is one that resolution
    misses in [st0]. *)
Definition recordsMissesOf (st0 st : state) : Prop :=
  optionsOf st = optionsOf st0 /\
  unmatchedTexts st0 `prefix_of` unmatchedTexts st /\
  (NoDup (unmatchedTexts st0) -> NoDup (unmatchedTexts st)) /\
  forall chineseText,
    chineseText ∈ unmatchedTexts st ->
    chineseText ∈ unmatchedTexts st0 \/
    (getKeyForChinese chineseText st0).1 =
      (if skipUnmatched st0 then None else Some chineseText) /\
    chineseText ∈ unmatchedTexts (getKeyForChinese chineseText st0).2.

(** A string without an ideograph. *)
Definition noChinese (s : jsstring) : Prop :=
  existsb isChineseChar s = false.

(** The markup after pass 0: every comment replaced by its placeholder. *)
Definition outsideComments (templateContent : jsstring) : jsstring :=
  (replace matchComment protectComment templateContent []).1.

(** ** parser.js: a single-file component put together again *)

(** [String.prototype.indexOf(search, position)]: the first index at or
    after the clamped position where [search] occurs, or [-1]. *)
Fixpoint findFrom (search s : jsstring) (i : nat) : option nat :=
  if startsWith search s then Some i
  else match s with
       | [] => None
       | _ :: s' => findFrom search s' (S i)
       end.

Definition clampIndex (s : jsstring) (i : Z) : nat :=
  Z.to_nat (Z.min (Z.max i 0) (Z.of_nat (length s))).

Definition indexOf (search s : jsstring) (position : Z) : Z :=
  let start := clampIndex s position in
  match findFrom search (drop start s) start with
  | Some i => Z.of_nat i
  | None => -1
  end.

(** [String.prototype.substring(start, end)]: both indices are clamped
    to the string, and swapped when the first is the larger one. *)
Definition substring (s : jsstring) (indexStart indexEnd : Z) : jsstring :=
  let a := clampIndex s indexStart in
  let b := clampIndex s indexEnd in
  take (Nat.max a b - Nat.min a b) (drop (Nat.min a b) s).

(** [String.prototype.substring(start)]. *)
Definition substringFrom (s : jsstring) (indexStart : Z) : jsstring :=
  substring s indexStart (Z.of_nat (length s)).

(** The blocks of a parsed component that [parseVueFile] reads: the
    content of each block that is present. *)
Record descriptor := {
  template : option jsstring;
  script : option jsstring;
  scriptSetup : option jsstring
}.

Section ParseVueFile.

(** [parse] of the Vue compiler ([None] when it reports errors) and the
    three functions of the Recast library. *)
Variable sfcParse : jsstring -> option descriptor.
Variable parse : jsstring -> option node.
Variable printCode : node -> jsstring.
Variable print : jsstring -> node -> jsstring.

(** [parseVueFile], from the source that has been read. *)
Definition parseVueFile (source : jsstring) (st : state)
  : outcome jsstring * state :=
  match sfcParse source with
  | None => (Thrown, st)
  | Some descriptor =>
    let '(result, currentIndex, st) :=
      match template descriptor with
      | Some originalContent =>
        let '(convertedContent, st) := convertTemplate originalContent st in
        let templateStart := indexOf originalContent source 0 in
        let beforeTemplate := substring source 0 templateStart in
        (beforeTemplate ++ convertedContent,
         (templateStart + Z.of_nat (length originalContent))%Z, st)
      | None => ([], 0%Z, st)
      end in
    let scriptBlock :=
      match script descriptor with
      | Some block => Some block
      | None => scriptSetup descriptor
      end in
    let '(result, currentIndex, st) :=
      match scriptBlock with
      | Some originalContent =>
        let '(convertedContent, st) :=
          convertScript parse printCode print originalContent st in
        let scriptStart := indexOf originalContent source currentIndex in
        let beforeScript := substring source currentIndex scriptStart in
        (result ++ beforeScript ++ convertedContent,
         (scriptStart + Z.of_nat (length originalContent))%Z, st)
      | None => (result, currentIndex, st)
      end in
    (Returned (result ++ substringFrom source currentIndex), st)
  end.

End ParseVueFile.

(** [descriptor.script || descriptor.scriptSetup]. *)
Definition scriptBlockOf (d : descriptor) : option jsstring :=
  match script d with
  | Some block => Some block
  | None => scriptSetup d
  end.

(** *** A small component

    A parser of components for concrete runs: the content of the first
    template block and of the first script block, when there is one. *)
Definition blockContent (open close source : jsstring) : option jsstring :=
  match untilLit open source with
  | Some (_, rest) =>
    match untilLit close rest with
    | Some (content, _) => Some content
    | None => None
    end
  | None => None
  end.

Definition sampleSfc (source : jsstring) : option descriptor :=
  Some {| template := blockContent (lit "<template>") (lit "</template>") source;
          script := blockContent (lit "<script>") (lit "</script>") source;
          scriptSetup := None |}.

(** A component with the template block first, and the same blocks with
    the script block first. *)
Definition sampleTemplate : jsstring := lit "<p>" ++ deleteText ++ lit "</p>".
Definition sampleScript : jsstring := [quote] ++ deleteText ++ [quote].

Definition templateFirst : jsstring :=
  lit "<template>" ++ sampleTemplate ++ lit "</template><script>"
    ++ sampleScript ++ lit "</script>".

Definition scriptFirst : jsstring :=
  lit "<script>" ++ sampleScript ++ lit "</script><template>"
    ++ sampleTemplate ++ lit "</template>".

(** ** utils.js: the report of unmatched texts *)

(** [text.replace(/c/g, replacement)] for a pattern of one character. *)
Definition replaceChar (c : N) (replacement s : jsstring) : jsstring :=
  flat_map (fun x => if x =? c then replacement else [x]) s.

Definition lineFeed : N := 0xA.
Definition carriageReturn : N := 0xD.
Definition tab : N := 0x9.

(** The four replacements of [saveUnmatchedKeys], in their order: the
    backslash first, then line feed, carriage return and tab. *)
Definition escapeText (text : jsstring) : jsstring :=
  replaceChar tab [backslash; 0x74]
    (replaceChar carriageReturn [backslash; 0x72]
       (replaceChar lineFeed [backslash; 0x6E]
          (replaceChar backslash [backslash; backslash] text))).

(** The two lines written before the texts. *)
Definition reportHeader (timestamp : jsstring) (size : nat) : jsstring :=
  [lineFeed] ++ lit "========== " ++ timestamp ++ lit " ==========" ++ [lineFeed]
    ++ [0x672A; 0x5339; 0x914D; 0x7684; 0x4E2D; 0x6587; 0x6587; 0x672C]
    ++ lit " (" ++ [0x5171] ++ lit " " ++ lit (pretty size) ++ lit " "
    ++ [0x4E2A] ++ lit "):" ++ [lineFeed].

(** [saveUnmatchedKeys]: what nomatch.txt holds afterwards, given what it
    held before ([fs.appendFileSync]) and the time stamp of the run. *)
Definition saveUnmatchedKeys (timestamp : jsstring) (st : state)
    (nomatch : jsstring) : jsstring :=
  match unmatchedTexts st with
  | [] => nomatch
  | texts =>
    let content :=
      reportHeader timestamp (length texts)
        ++ joinWith [lineFeed]
             (map (fun text => [apostrophe] ++ escapeText text ++ [apostrophe])
                  texts)
        ++ [lineFeed] in
    nomatch ++ content
  end.

(** The escape of one character. *)
Definition escapeChar (c : N) : jsstring :=
  if c =? backslash then [backslash; backslash]
  else if c =? lineFeed then [backslash; 0x6E]
  else if c =? carriageReturn then [backslash; 0x72]
  else if c =? tab then [backslash; 0x74]
  else [c].

(** ** parser.js: one run *)

(** What the search for the language pack ends with: a pack that has been
    read, a pack that cannot be read ([loadI18nMap] catches the error and
    empties the index), or no pack at all. *)
Inductive languagePack :=
  | PackLoaded (zhData : list (jsstring * jsvalue))
  | PackUnreadable
  | PackMissing.

Definition usePack (pack : languagePack) (st : state) : state :=
  match pack with
  | PackLoaded zhData => loadI18nMap zhData st
  | PackUnreadable =>
    {| i18nMap := ∅; unmatchedTexts := unmatchedTexts st;
       skipUnmatched := skipUnmatched st; matchPath := matchPath st |}
  | PackMissing => st
  end.

Section ConvertVueFile.

Variable sfcParse : jsstring -> option descriptor.
Variable parse : jsstring -> option node.
Variable printCode : node -> jsstring.
Variable print : jsstring -> node -> jsstring.

(** [convertVueFile]: the content of the component and of nomatch.txt
    afterwards, given their content before; [fileExists] is the answer of
    [fs.existsSync(filePath)].  Reading and writing are taken to succeed. *)
Definition convertVueFile (filePath : jsstring) (fileExists : bool)
    (pack : languagePack) (skip : bool) (path : option jsstring)
    (timestamp source nomatch : jsstring) (st : state)
  : jsstring * jsstring * state :=
  if negb fileExists then (source, nomatch, st)
  else if negb (endsWith (lit ".vue") filePath) then (source, nomatch, st)
  else
    let st := resetUnmatchedTexts st in
    let st := setConvertOptions skip path st in
    let st := usePack pack st in
    match parseVueFile sfcParse parse printCode print source st with
    | (Returned convertedContent, st) =>
      (convertedContent, saveUnmatchedKeys timestamp st nomatch, st)
    | (Thrown, st) => (source, nomatch, st)
    end.

End ConvertVueFile.

(** ** scriptParser.js, the earlier version

    The earlier version of the visitor has two methods, [visitLiteral]
    and [visitTemplateLiteral]; it builds calls of [i18n.t], does not
    look at [+] chains, at marked nodes or at property keys, and
    [getTemplateString] reads the raw text of the segments, so here the
    strings of a [TemplateLiteral] stand for [quasi.value.raw].
    [isInConsoleCall] is the same function in both versions. *)

Module Legacy.

(** [isInI18nCall]: the parent is a call of [i18n.t], of a [$t] member
    or of the identifier [$t]. *)
Definition isInI18nCall (p : path) : bool :=
  match p with
  | FCall callee :: _ =>
    match callee with
    | MemberExpression object property =>
      (nameIs object (lit "i18n") && nameIs property (lit "t"))
      || nameIs property (lit "$t")
    | Identifier name => jsEq name (lit "$t")
    | _ => false
    end
  | _ => false
  end.

(** [b.memberExpression(b.identifier('i18n'), b.identifier('t'))]. *)
Definition i18nCallee : node :=
  MemberExpression (Identifier (lit "i18n")) (Identifier (lit "t")).

Definition i18nCall (key : node) (rest : list node) : node :=
  CallExpression i18nCallee (key :: rest).

(** [visitLiteral] on a string literal; [fuel] bounds the visits of the
    literals of a replacement. *)
Fixpoint visitLiteral (fuel : nat) (p : path) (value : jsstring) (st : state)
  : node * state :=
  let n := StringLiteral value in
  if isInConsoleCall p then (n, st)
  else if isInI18nCall p then (n, st)
  else
    let cleaned := cleanString value in
    if isOnlyChinese cleaned then
      let suffix := detectColonSuffix cleaned in
      if hasColonSuffix suffix then
        match getKeyForChinese (textWithoutColon suffix) st with
        | (None, st) => (n, st)
        | (Some key, st) =>
          match fuel with
          | O => (plusColon (i18nCall (StringLiteral key) [])
                            (StringLiteral (colonChar suffix)), st)
          | S fuel' =>
            let '(key', st) :=
              visitLiteral fuel' (FCall i18nCallee :: FBinary (lit "+") :: p)
                           key st in
            let '(colon', st) :=
              visitLiteral fuel' (FBinary (lit "+") :: p)
                           (colonChar suffix) st in
            (plusColon (i18nCall key' []) colon', st)
          end
        end
      else
        match getKeyForChinese cleaned st with
        | (None, st) => (n, st)
        | (Some key, st) =>
          match fuel with
          | O => (i18nCall (StringLiteral key) [], st)
          | S fuel' =>
            let '(key', st) :=
              visitLiteral fuel' (FCall i18nCallee :: p) key st in
            (i18nCall key' [], st)
          end
        end
    else (n, st).

Definition visitNewLiteral (p : path) (value : jsstring) : M node :=
  fun st => let '(n, st') := visitLiteral 1 p value st in (Returned n, st').

Definition traverseCall (p : path) (key : jsstring)
    (visitRest : path -> M (list node)) : M node :=
  (let* key' := visitNewLiteral (FCall i18nCallee :: p) key in
   let* rest' := visitRest (FCall i18nCallee :: p) in
   ret (i18nCall key' rest'))%visit.

Definition traversePlusColon (p : path) (key colon : jsstring)
    (visitRest : path -> M (list node)) : M node :=
  (let* call' := traverseCall (FBinary (lit "+") :: p) key visitRest in
   let* colon' := visitNewLiteral (FBinary (lit "+") :: p) colon in
   ret (plusColon call' colon'))%visit.

Section Visitor.

Variable printCode : node -> jsstring.

(** [visit(ast, {visitLiteral, visitTemplateLiteral})] at the node [n]
    with path [p]; a node of any other type is traversed. *)
Fixpoint visit (p : path) (n : node) {struct n} : M node :=
  match n with
  | Identifier _ => ret n
  | OtherLiteral _ => ret n
  | StringLiteral value =>
    fun st => let '(n', st') := visitLiteral 1 p value st in
              (Returned n', st')
  | TemplateLiteral quasis expressions =>
    let traverse :=
      (let* expressions' := visitAll (visit (FOther :: p)) expressions in
       ret (TemplateLiteral quasis expressions'))%visit in
    if isInConsoleCall p then traverse
    else if isInI18nCall p then traverse
    else
      let templateText := getTemplateString printCode quasis expressions in
      let cleaned := cleanString templateText in
      if negb (isOnlyChinese cleaned) then traverse
      else
        match expressions with
        | _ :: _ =>
          let vars := extractTemplateVars templateText in
          let suffix := detectColonSuffix (text vars) in
          let finalText :=
            if hasColonSuffix suffix then textWithoutColon suffix
            else text vars in
          (let* key := resolveKey finalText in
           match key with
           | None => traverse
           | Some key =>
             match pairParams (params vars) expressions with
             | None => throw
             | Some _ =>
               let visitRest := fun p' =>
                 (let* properties' :=
                    visitProperties visit expressions (params vars) p' in
                  ret [ObjectExpression properties'])%visit in
               if hasColonSuffix suffix
               then traversePlusColon p key (colonChar suffix) visitRest
               else traverseCall p key visitRest
             end
           end)%visit
        | [] =>
          let suffix := detectColonSuffix cleaned in
          let finalText :=
            if hasColonSuffix suffix then textWithoutColon suffix
            else cleaned in
          (let* key := resolveKey finalText in
           match key with
           | None => traverse
           | Some key =>
             if hasColonSuffix suffix
             then traversePlusColon p key (colonChar suffix) (fun _ => ret [])
             else traverseCall p key (fun _ => ret [])
           end)%visit
        end
  | BinaryExpression operator l r =>
    (let* l' := visit (FBinary operator :: p) l in
     let* r' := visit (FBinary operator :: p) r in
     ret (BinaryExpression operator l' r'))%visit
  | CallExpression callee arguments =>
    (let* callee' := visit (FCall callee :: p) callee in
     let* arguments' := visitAll (visit (FCall callee' :: p)) arguments in
     ret (CallExpression callee' arguments'))%visit
  | MemberExpression object property =>
    (let* object' := visit (FOther :: p) object in
     let* property' := visit (FOther :: p) property in
     ret (MemberExpression object' property'))%visit
  | ObjectExpression properties =>
    (let* properties' := visitAll (visit (FOther :: p)) properties in
     ret (ObjectExpression properties'))%visit
  | Property key value =>
    (let* key' := visit (FPropertyKey :: p) key in
     let* value' := visit (FOther :: p) value in
     ret (Property key' value'))%visit
  | OtherNode type children =>
    (let* children' := visitAll (visit (FOther :: p)) children in
     ret (OtherNode type children'))%visit
  end.

Variable parse : jsstring -> option node.
Variable print : jsstring -> node -> jsstring.

(** [convertScript]: whatever is thrown inside [try] is caught and the
    original script is returned. *)
Definition convertScript (scriptContent : jsstring) (st : state)
  : jsstring * state :=
  match scriptContent with
  | [] => ([], st)
  | _ =>
    match parse scriptContent with
    | None => (scriptContent, st)
    | Some ast =>
      match visit [] ast st with
      | (Returned ast', st') => (print scriptContent ast', st')
      | (Thrown, st') => (scriptContent, st')
      end
    end
  end.

End Visitor.

End Legacy.

(** ** index.js: the command line *)

Module Cli.

(** [filePath], [zhFilePath], [skipUnmatched] and [matchPath]; [None] is
    [null]. *)
Record options := {
  filePath : option jsstring;
  zhFilePath : option jsstring;
  skipUnmatched : bool;
  matchPath : option jsstring
}.

Definition initial : options :=
  {| filePath := None; zhFilePath := None; skipUnmatched := false;
     matchPath := None |}.

Definition isSkipFlag (arg : jsstring) : bool :=
  jsEq arg (lit "--skip-unmatched") || jsEq arg (lit "-s").

Definition isMatchFlag (arg : jsstring) : bool :=
  jsEq arg (lit "--match-path") || jsEq arg (lit "-mp").

(** The loop over [args], from the argument at the head of the list. *)
Fixpoint parseLoop (args : list jsstring) (acc : options) : options :=
  match args with
  | [] => acc
  | arg :: rest =>
    if isSkipFlag arg then
      parseLoop rest
        {| filePath := filePath acc; zhFilePath := zhFilePath acc;
           skipUnmatched := true; matchPath := matchPath acc |}
    else if isMatchFlag arg then
      match rest with
      | value :: rest' =>
        parseLoop rest'
          {| filePath := filePath acc; zhFilePath := zhFilePath acc;
             skipUnmatched := skipUnmatched acc; matchPath := Some value |}
      | [] => acc
      end
    else if endsWith (lit ".vue") arg then
      parseLoop rest
        {| filePath := Some arg; zhFilePath := zhFilePath acc;
           skipUnmatched := skipUnmatched acc; matchPath := matchPath acc |}
    else if endsWith (lit ".js") arg then
      parseLoop rest
        {| filePath := filePath acc; zhFilePath := Some arg;
           skipUnmatched := skipUnmatched acc; matchPath := matchPath acc |}
    else parseLoop rest acc
  end.

(** What the program does with its arguments: print the usage and exit
    with 0, complain and exit with 1, or call [convertVueFile]. *)
Inductive action :=
  | Usage
  | MissingFile
  | Convert (filePath : jsstring) (rest : options).

Definition main (args : list jsstring) : action :=
  match args with
  | [] => Usage
  | _ =>
    let parsed := parseLoop args initial in
    match filePath parsed with
    | Some file => Convert file parsed
    | None => MissingFile
    end
  end.

End Cli.

(** The text of a template literal with the placeholder [{paramN}] in
    the place of each expression, counted from [paramIndex]. *)
Fixpoint withPlaceholders (paramIndex : nat) (quasis : list jsstring)
    (expressions : list node) : jsstring :=
  match quasis with
  | [] => []
  | cooked :: quasis' =>
    match expressions with
    | _ :: expressions' =>
      cooked ++ [lbrace] ++ paramName paramIndex ++ [rbrace]
        ++ withPlaceholders (S paramIndex) quasis' expressions'
    | [] => cooked ++ withPlaceholders paramIndex quasis' []
    end
  end.

(** The pieces of a template literal: the units of each segment, and
    the printed source of each expression. *)
Fixpoint literalPieces (printCode : node -> jsstring) (quasis : list jsstring)
    (expressions : list node) : list piece :=
  match quasis with
  | [] => []
  | cooked :: quasis' =>
    match expressions with
    | e :: expressions' =>
      map PUnit cooked ++ PVar (printCode e)
        :: literalPieces printCode quasis' expressions'
    | [] => map PUnit cooked ++ literalPieces printCode quasis' []
    end
  end.

(** A pack whose module exports an object with a [default] field beside
    another field: [{default: {a: '文本'}, other: {b: '删除'}}]. *)
Definition wrappedPack : list (jsstring * jsvalue) :=
  [(lit "default", VObject [(lit "a", VString wenben)]);
   (lit "other", VObject [(lit "b", VString deleteText)])].

(** The template literal [`标题${x}： `], where a space follows the
    colon; the same text as a [+] chain; the text looked up for its body,
    and a run whose dictionary has that body. *)
Definition spacedTemplate : node :=
  TemplateLiteral [titleText; [fullwidthColon; 0x20]] [Identifier (lit "x")].

Definition spacedChain : node :=
  BinaryExpression (lit "+")
    (BinaryExpression (lit "+") (StringLiteral titleText)
                      (Identifier (lit "x")))
    (StringLiteral [fullwidthColon; 0x20]).

Definition spacedSource : jsstring :=
  titleText ++ lit "${x}" ++ [fullwidthColon; 0x20].

Definition spacedBody : jsstring := titleText ++ lit "{param1}".

Definition spacedRun : state :=
  {| i18nMap := {[ spacedBody := Single (lit "m.title") ]};
     unmatchedTexts := []; skipUnmatched := false; matchPath := None |}.

(** [{param1: x}]. *)
Definition spacedParams : node :=
  ObjectExpression [Property (Identifier (lit "param1")) (Identifier (lit "x"))].

(** *** A region with CRLF line ends

    Recast keeps the lines of the source it parsed and, when it prints,
    joins them again with its line terminator, which is that of the
    platform.  [lineFeedReprint] is such a printer for a tree that has not
    been modified, on a platform whose line terminator is the line feed;
    [lineParse] is [sampleParse] with the white space after the statement
    allowed. *)
Fixpoint joinLines (source : jsstring) : jsstring :=
  match source with
  | c :: rest =>
    match rest with
    | d :: _ =>
      if (c =? 0xD) && (d =? 0xA) then joinLines rest
      else c :: joinLines rest
    | [] => [c]
    end
  | [] => []
  end.

Definition lineFeedReprint (original : jsstring) (ast : node) : jsstring :=
  joinLines original.

Definition lineParse (source : jsstring) : option node :=
  sampleParse (trimEnd source).

(** The source ["ok"] followed by a carriage return and a line feed. *)
Definition crlfSource : jsstring := plainSource ++ [0xD; 0xA].

(** * Properties *)

(** ** Key resolution *)

Lemma find_some_true {A} (f : A -> bool) l x : find f l = Some x -> f x = true.
Proof. intros H. apply find_some in H. tauto. Qed.

Lemma isKeyPathMatched_common key st :
  startsWith (lit "common.") key = true -> isKeyPathMatched key st = true.
Proof. unfold isKeyPathMatched. intros ->. by destruct (activePath st). Qed.

Lemma isKeyPathMatched_scoped key st prefix :
  activePath st = Some prefix ->
  startsWith (prefix ++ lit ".") key = true -> isKeyPathMatched key st = true.
Proof.
  unfold isKeyPathMatched. intros -> ->.
  by destruct (startsWith (lit "common.") key).
Qed.

Lemma isKeyPathMatched_unset key st :
  activePath st = None -> isKeyPathMatched key st = true.
Proof. unfold isKeyPathMatched. by intros ->. Qed.

(** Resolution of a text with several keys returns the key selected by
    priority when it passes the scope rule, and misses otherwise. *)
Lemma getKeyForChinese_multi st chineseText first others :
  i18nMap st !! chineseText = Some (Multi first others) ->
  getKeyForChinese chineseText st =
    let selected := selectByPriority (activePath st) first others in
    if isKeyPathMatched selected st then (Some selected, st)
    else unmatched chineseText st.
Proof.
  intros Hm. unfold getKeyForChinese, selectByPriority. rewrite Hm. cbn zeta.
  destruct (find (startsWith (lit "common.")) (keysOf first others))
    as [ck|] eqn:Hc.
  - by rewrite (isKeyPathMatched_common ck st (find_some_true _ _ _ Hc)).
  - destruct (activePath st) as [prefix|] eqn:Hp.
    + destruct (find (startsWith (prefix ++ lit ".")) (keysOf first others))
        as [sk|] eqn:Hs.
      * by rewrite (isKeyPathMatched_scoped sk st prefix Hp
                      (find_some_true _ _ _ Hs)).
      * by destruct (isKeyPathMatched first st).
    + by rewrite (isKeyPathMatched_unset first st Hp).
Qed.

(** C1.  For a text whose entry lists two or more candidate keys,
    resolution selects a key below [common.] if there is one, else a key
    below the active scope prefix when a prefix is set, else the
    first-seen key (which is returned when it passes the scope rule).
    For the candidates a.x, common.y, b.z: without scope and with scope b
    the result is common.y; without common.y and with scope b it is b.z;
    without common.y and without scope it is a.x. *)
Theorem disambiguation_law st chineseText first others :
  i18nMap st !! chineseText = Some (Multi first others) ->
  (2 <= length (keysOf first others))%nat ->
  let keys := keysOf first others in
  let result := getKeyForChinese chineseText st in
  (forall commonKey,
      find (startsWith (lit "common.")) keys = Some commonKey ->
      result = (Some commonKey, st)) /\
  (forall prefix scoped,
      find (startsWith (lit "common.")) keys = None ->
      activePath st = Some prefix ->
      find (startsWith (prefix ++ lit ".")) keys = Some scoped ->
      result = (Some scoped, st)) /\
  (find (startsWith (lit "common.")) keys = None ->
   (forall prefix, activePath st = Some prefix ->
                   find (startsWith (prefix ++ lit ".")) keys = None) ->
   selectByPriority (activePath st) first others = first /\
   result = if isKeyPathMatched first st then (Some first, st)
            else unmatched chineseText st) /\
  (keys = [lit "a.x"; lit "common.y"; lit "b.z"] ->
   activePath st = None -> result = (Some (lit "common.y"), st)) /\
  (keys = [lit "a.x"; lit "common.y"; lit "b.z"] ->
   activePath st = Some (lit "b") -> result = (Some (lit "common.y"), st)) /\
  (keys = [lit "a.x"; lit "b.z"] ->
   activePath st = Some (lit "b") -> result = (Some (lit "b.z"), st)) /\
  (keys = [lit "a.x"; lit "b.z"] ->
   activePath st = None -> result = (Some (lit "a.x"), st)).
Proof.
  intros Hm _ keys result.
  assert (result =
          let selected := selectByPriority (activePath st) first others in
          if isKeyPathMatched selected st then (Some selected, st)
          else unmatched chineseText st) as Hr
    by apply (getKeyForChinese_multi _ _ _ _ Hm).
  unfold selectByPriority in Hr. fold keys in Hr. cbn zeta in Hr.
  assert (forall commonKey,
             find (startsWith (lit "common.")) keys = Some commonKey ->
             result = (Some commonKey, st)) as Tier1.
  { intros ck Hc. rewrite Hr, Hc.
    by rewrite (isKeyPathMatched_common ck st (find_some_true _ _ _ Hc)). }
  assert (forall prefix scoped,
             find (startsWith (lit "common.")) keys = None ->
             activePath st = Some prefix ->
             find (startsWith (prefix ++ lit ".")) keys = Some scoped ->
             result = (Some scoped, st)) as Tier2.
  { intros prefix sk Hc Hp Hs. rewrite Hr, Hc, Hp, Hs.
    by rewrite (isKeyPathMatched_scoped sk st prefix Hp
                  (find_some_true _ _ _ Hs)). }
  assert (find (startsWith (lit "common.")) keys = None ->
          (forall prefix, activePath st = Some prefix ->
                          find (startsWith (prefix ++ lit ".")) keys = None) ->
          selectByPriority (activePath st) first others = first /\
          result = if isKeyPathMatched first st then (Some first, st)
                   else unmatched chineseText st) as Tier3.
  { intros Hc Hs. rewrite Hr. unfold selectByPriority. fold keys. rewrite Hc.
    destruct (activePath st) as [prefix|]; [|done].
    by rewrite (Hs prefix eq_refl). }
  split_and!; try assumption.
  - intros Hk _. apply Tier1. rewrite Hk. vm_compute. reflexivity.
  - intros Hk _. apply Tier1. rewrite Hk. vm_compute. reflexivity.
  - intros Hk Hp. apply (Tier2 (lit "b")); [|done|];
      rewrite Hk; vm_compute; reflexivity.
  - intros Hk Hp. destruct Tier3 as [_ ->].
    + rewrite Hk. vm_compute. reflexivity.
    + intros prefix Hp'. congruence.
    + injection Hk as -> _. by rewrite isKeyPathMatched_unset.
Qed.


Lemma disambiguation_law_witness :
  getKeyForChinese (lit "T") threeKeys = (Some (lit "common.y"), threeKeys).
Proof.
  destruct (disambiguation_law threeKeys (lit "T") (lit "a.x")
              [lit "common.y"; lit "b.z"]) as (_ & _ & _ & H & _).
  - vm_compute. reflexivity.
  - simpl. lia.
  - apply H; reflexivity.
Defined.

Lemma elem_of_setAdd x s : x ∈ setAdd x s.
Proof.
  unfold setAdd. destruct (decide (x ∈ s)); [done|].
  apply elem_of_app. right. apply list_elem_of_singleton. done.
Qed.

Lemma unmatched_eq chineseText st :
  unmatched chineseText st =
    (if skipUnmatched st then None else Some chineseText,
     addUnmatched chineseText st).
Proof. unfold unmatched. cbn. by destruct (skipUnmatched st). Qed.


(** C4.  A text with a single key that is neither below [common.] nor
    below the active scope prefix is treated as not found: the text is
    added to the unmatched set and the result is [null] in skip mode and
    the text itself otherwise.  With prefix pda, the dictionary with
    pda.a and other.a resolves the text to pda.a, and the dictionary with
    other.a alone leaves it unmatched. *)
Theorem scope_prefix_law st chineseText key prefix :
  i18nMap st !! chineseText = Some (Single key) ->
  activePath st = Some prefix ->
  startsWith (lit "common.") key = false ->
  startsWith (prefix ++ lit ".") key = false ->
  getKeyForChinese chineseText st =
    (if skipUnmatched st then None else Some chineseText,
     addUnmatched chineseText st) /\
  chineseText ∈ unmatchedTexts (addUnmatched chineseText st) /\
  (forall skip st0,
      getKeyForChinese wenben (pdaRun dictPdaOther skip st0) =
        (Some (lit "pda.a"), pdaRun dictPdaOther skip st0)) /\
  (forall skip st0,
      getKeyForChinese wenben (pdaRun dictOther skip st0) =
        (if skip then None else Some wenben,
         addUnmatched wenben (pdaRun dictOther skip st0))).
Proof.
  intros Hm Hp Hc Hs. split_and!.
  - unfold getKeyForChinese, isKeyPathMatched. rewrite Hm, Hp, Hc, Hs. cbn.
    apply unmatched_eq.
  - cbn. apply elem_of_setAdd.
  - intros skip st0.
    assert (i18nMap (pdaRun dictPdaOther skip st0) !! wenben =
            Some (Multi (lit "pda.a") [lit "other.a"])) as Hl
      by (vm_compute; reflexivity).
    rewrite (getKeyForChinese_multi _ _ _ _ Hl). cbn zeta.
    replace (selectByPriority (activePath (pdaRun dictPdaOther skip st0))
               (lit "pda.a") [lit "other.a"]) with (lit "pda.a")
      by (vm_compute; reflexivity).
    rewrite (isKeyPathMatched_scoped _ _ (lit "pda")); [done|done|].
    vm_compute. reflexivity.
  - intros skip st0.
    assert (i18nMap (pdaRun dictOther skip st0) !! wenben =
            Some (Single (lit "other.a"))) as Hl
      by (vm_compute; reflexivity).
    unfold getKeyForChinese. rewrite Hl.
    replace (isKeyPathMatched (lit "other.a") (pdaRun dictOther skip st0))
      with false by (vm_compute; reflexivity).
    cbn [negb]. rewrite unmatched_eq. done.
Qed.

Lemma scope_prefix_law_witness :
  getKeyForChinese wenben (pdaRun dictOther true initialState) =
    (None, addUnmatched wenben (pdaRun dictOther true initialState)).
Proof.
  destruct (scope_prefix_law (pdaRun dictOther true initialState) wenben
              (lit "other.a") (lit "pda")) as (H & _).
  - vm_compute. reflexivity.
  - vm_compute. reflexivity.
  - vm_compute. reflexivity.
  - vm_compute. reflexivity.
  - exact H.
Defined.

(** ** The syntax-tree rewriter *)

(** Induction on a syntax tree, with the hypothesis for every child of a
    node that carries a list of children. *)
Lemma node_forall_ind (P : node -> Prop) :
  (forall name, P (Identifier name)) ->
  (forall value, P (StringLiteral value)) ->
  (forall raw, P (OtherLiteral raw)) ->
  (forall quasis expressions,
      Forall P expressions -> P (TemplateLiteral quasis expressions)) ->
  (forall operator l r, P l -> P r -> P (BinaryExpression operator l r)) ->
  (forall callee arguments,
      P callee -> Forall P arguments -> P (CallExpression callee arguments)) ->
  (forall object property,
      P object -> P property -> P (MemberExpression object property)) ->
  (forall properties, Forall P properties -> P (ObjectExpression properties)) ->
  (forall key value, P key -> P value -> P (Property key value)) ->
  (forall type children, Forall P children -> P (OtherNode type children)) ->
  forall n, P n.
Proof.
  intros HId HStr HLit HTpl HBin HCall HMem HObj HProp HOther.
  fix IH 1. intros n.
  assert (forall l, Forall P l) as IHs.
  { fix IHl 1. intros [|m l]; constructor; [apply IH | apply IHl]. }
  destruct n.
  - apply HId.
  - apply HStr.
  - apply HLit.
  - apply HTpl, IHs.
  - apply HBin; apply IH.
  - apply HCall; [apply IH | apply IHs].
  - apply HMem; apply IH.
  - apply HObj, IHs.
  - apply HProp; apply IH.
  - apply HOther, IHs.
Qed.

Lemma bind_returned {A B} (m : M A) (k : A -> M B) st a st' :
  m st = (Returned a, st') -> bind m k st = k a st'.
Proof. unfold bind. by intros ->. Qed.

Lemma bind_thrown {A B} (m : M A) (k : A -> M B) st st' :
  m st = (Thrown, st') -> bind m k st = (Thrown, st').
Proof. unfold bind. by intros ->. Qed.

(** A list of children that the visitor returns as they are, in a state
    it does not change. *)
Lemma visitAll_unchanged (f : node -> M node) l :
  Forall (fun n => forall st, f n st = (Returned n, st)) l ->
  forall st, visitAll f l st = (Returned l, st).
Proof.
  induction 1 as [|n l Hn _ IH]; intros st; [done|].
  cbn. rewrite (bind_returned _ _ _ _ _ (Hn st)).
  by rewrite (bind_returned _ _ _ _ _ (IH st)).
Qed.

(** The literals of a replacement are returned as they are: the key is
    an argument of the translation call, the colon an operand of [+]. *)
Lemma visitLiteral_in_i18nCall fuel p callee processed value st :
  isInI18nCall (FCall callee :: p) = true ->
  visitLiteral fuel (FCall callee :: p) processed value st =
    (StringLiteral value, st).
Proof.
  intros H. destruct fuel; cbn [visitLiteral isPlusOperand isObjectPropertyKey];
    rewrite H; destruct processed; by repeat case_match.
Qed.

Lemma visitLiteral_plus_operand fuel p processed value st :
  visitLiteral fuel (FBinary (lit "+") :: p) processed value st =
    (StringLiteral value, st).
Proof.
  destruct fuel; cbn [visitLiteral]; destruct processed; try done;
    by replace (isPlusOperand (FBinary (lit "+") :: p)) with true
      by (symmetry; apply bool_decide_eq_true; reflexivity).
Qed.

Lemma isInI18nCall_i18nCallee p : isInI18nCall (FCall i18nCallee :: p) = true.
Proof. vm_compute. reflexivity. Qed.

Lemma visitLiteral_in_console fuel p processed value st :
  isInConsoleCall p = true ->
  visitLiteral fuel p processed value st = (StringLiteral value, st).
Proof.
  intros H. destruct fuel; cbn [visitLiteral]; rewrite H;
    by repeat case_match.
Qed.

Section VisitorFacts.

Variable printCode : node -> jsstring.

Lemma isInConsoleCall_cons f p :
  isInConsoleCall p = true -> isInConsoleCall (f :: p) = true.
Proof. unfold isInConsoleCall. cbn. intros ->. apply orb_true_r. Qed.

(** Below a call on a member of [console], the visitor returns every
    node as it is and does not touch the state. *)
Lemma visit_in_console n :
  forall p processed st,
    isInConsoleCall p = true ->
    visit printCode p processed n st = (Returned n, st).
Proof.
  induction n as [name|value|raw|quasis expressions IH|operator l r IHl IHr
                 |callee arguments IHc IHa|object property IHo IHp
                 |properties IH|key value IHk IHv|type children IH]
    using node_forall_ind; intros p processed st Hp.
  - done.
  - cbn [visit]. by rewrite visitLiteral_in_console.
  - done.
  - cbn [visit]. rewrite Hp. unfold bind.
    rewrite visitAll_unchanged; [done|].
    eapply Forall_impl; [exact IH|]. cbn. intros n Hn st'.
    apply Hn. by apply isInConsoleCall_cons.
  - assert (forall marked st,
               (let* l' := visit printCode (FBinary operator :: p) marked l in
                let* r' := visit printCode (FBinary operator :: p) marked r in
                ret (BinaryExpression operator l' r'))%visit st =
               (Returned (BinaryExpression operator l r), st)) as Htr.
    { intros marked st0. unfold bind.
      rewrite IHl by by apply isInConsoleCall_cons.
      rewrite IHr by by apply isInConsoleCall_cons. done. }
    cbn [visit]. rewrite Hp. destruct processed; [apply Htr|].
    destruct (negb _); apply Htr.
  - cbn [visit]. unfold bind. rewrite IHc by by apply isInConsoleCall_cons.
    rewrite visitAll_unchanged; [done|].
    eapply Forall_impl; [exact IHa|]. cbn. intros n Hn st'.
    apply Hn. by apply isInConsoleCall_cons.
  - cbn [visit]. unfold bind. rewrite IHo by by apply isInConsoleCall_cons.
    rewrite IHp by by apply isInConsoleCall_cons. done.
  - cbn [visit]. unfold bind. rewrite visitAll_unchanged; [done|].
    eapply Forall_impl; [exact IH|]. cbn. intros n Hn st'.
    apply Hn. by apply isInConsoleCall_cons.
  - cbn [visit]. unfold bind. rewrite IHk by by apply isInConsoleCall_cons.
    rewrite IHv by by apply isInConsoleCall_cons. done.
  - cbn [visit]. unfold bind. rewrite visitAll_unchanged; [done|].
    eapply Forall_impl; [exact IH|]. cbn. intros n Hn st'.
    apply Hn. by apply isInConsoleCall_cons.
Qed.

End VisitorFacts.

(** C10.  Every node below a call whose callee is a member of [console],
    at any depth, is returned as it is: the whole call, its arguments
    and every string or template literal inside them stay unconverted. *)
Theorem console_call_untouched printCode property arguments frames p
    processed st n :
  let consoleCallee := MemberExpression (Identifier (lit "console")) property in
  visit printCode (frames ++ FCall consoleCallee :: p) processed n st =
    (Returned n, st) /\
  visit printCode p processed (CallExpression consoleCallee arguments) st =
    (Returned (CallExpression consoleCallee arguments), st).
Proof.
  intros consoleCallee.
  assert (forall q, isInConsoleCall (q ++ FCall consoleCallee :: p) = true)
    as Hq.
  { intros q. unfold isInConsoleCall. rewrite existsb_app. cbn.
    apply orb_true_r. }
  split.
  - apply visit_in_console, Hq.
  - cbn [visit]. unfold bind.
    rewrite (visit_in_console printCode consoleCallee
               (FCall consoleCallee :: p) false st (Hq [])).
    rewrite visitAll_unchanged; [done|].
    apply Forall_forall. intros m _ st'.
    apply visit_in_console, (Hq []).
Qed.

(** *** Text without ideographs *)

Lemma isWhiteSpace_not_chinese c :
  isWhiteSpace c = true -> isChineseChar c = false.
Proof.
  unfold isWhiteSpace, isChineseChar. intros H.
  apply andb_false_iff. rewrite !N.leb_gt.
  repeat (apply orb_prop in H; destruct H as [H|H]);
    try (apply andb_prop in H as [H1 H2]; apply N.leb_le in H1, H2);
    try apply N.eqb_eq in H; lia.
Qed.

Lemma existsb_chinese_trimStart s :
  existsb isChineseChar (trimStart s) = existsb isChineseChar s.
Proof.
  induction s as [|c s IH]; [done|]. cbn.
  destruct (isWhiteSpace c) eqn:Hc; [|done].
  by rewrite (isWhiteSpace_not_chinese c Hc).
Qed.

Lemma existsb_rev {A} (f : A -> bool) l : existsb f (rev l) = existsb f l.
Proof.
  induction l as [|a l IH]; [done|]. cbn. rewrite existsb_app, IH. cbn.
  rewrite orb_false_r. apply orb_comm.
Qed.

Lemma existsb_chinese_trim s :
  existsb isChineseChar (trim s) = existsb isChineseChar s.
Proof.
  unfold trim, trimEnd.
  by rewrite existsb_rev, existsb_chinese_trimStart, existsb_rev,
    existsb_chinese_trimStart.
Qed.

Lemma chinese_not_digits s :
  existsb isChineseChar s = true -> forallb isDigit s = false.
Proof.
  induction s as [|c s IH]; [done|]. cbn. intros H.
  apply orb_prop in H as [H|H].
  - replace (isDigit c) with false; [done|].
    unfold isChineseChar, isDigit in *. apply andb_prop in H as [H1 H2].
    apply N.leb_le in H1, H2.
    symmetry. apply andb_false_iff. rewrite !N.leb_gt. lia.
  - rewrite (IH H). apply andb_false_r.
Qed.

Lemma cleanString_trim s : cleanString s = trim s.
Proof. by destruct s. Qed.

(** [isOnlyChinese] tests for an ideograph and nothing else. *)
Lemma isOnlyChinese_spec s :
  isOnlyChinese s = existsb isChineseChar s.
Proof.
  destruct s as [|c s]; [done|]. unfold isOnlyChinese.
  rewrite <- (existsb_chinese_trim (c :: s)).
  destruct (existsb isChineseChar (trim (c :: s))) eqn:H.
  - rewrite (chinese_not_digits _ H).
    destruct (trim (c :: s)); [done|done].
  - by repeat case_match.
Qed.

Lemma isOnlyChinese_cleanString s :
  isOnlyChinese (cleanString s) = existsb isChineseChar s.
Proof. by rewrite isOnlyChinese_spec, cleanString_trim, existsb_chinese_trim. Qed.

Lemma lit_not_chinese s : existsb isChineseChar (lit s) = false.
Proof.
  induction s as [|a s IH]; [done|]. cbn. rewrite IH, orb_false_r.
  pose proof (N_ascii_bounded a). unfold isChineseChar.
  apply andb_false_iff. rewrite !N.leb_gt. lia.
Qed.

Lemma paramName_not_chinese k : existsb isChineseChar (paramName k) = false.
Proof. unfold paramName. by rewrite existsb_app, !lit_not_chinese. Qed.

(** *** Regions without convertible text *)


(** The composed text of a chain has an ideograph only if one of its
    string parts has. *)
Lemma composeParts_chinese parts :
  forall templateText variables,
    existsb isChineseChar (composeParts parts templateText variables).1 =
      existsb isChineseChar templateText || existsb partChinese parts.
Proof.
  induction parts as [|[value|m] parts IH]; intros templateText variables.
  - cbn. by rewrite orb_false_r.
  - cbn [composeParts]. rewrite IH, existsb_app. cbn. by rewrite orb_assoc.
  - cbn [composeParts]. cbn zeta. rewrite IH, !existsb_app.
    rewrite paramName_not_chinese.
    change (existsb isChineseChar [lbrace]) with false.
    change (existsb isChineseChar [rbrace]) with false.
    cbn [existsb partChinese orb]. by rewrite !orb_false_r.
Qed.

Lemma forallb_elem {A} (f : A -> bool) l x :
  forallb f l = true -> x ∈ l -> f x = true.
Proof.
  intros H Hx. rewrite forallb_forall in H. by apply H, list_elem_of_In.
Qed.

Section RoundTrip.

Variable printCode : node -> jsstring.

Lemma collectBinaryParts_chinese n :
  noConvertibleText printCode n = true ->
  existsb partChinese (collectBinaryParts n) = false.
Proof.
  induction n as [name|value|raw|quasis expressions IH|operator l r IHl IHr
                 |callee arguments IHc IHa|object property IHo IHp
                 |properties IH|key value IHk IHv|type children IH]
    using node_forall_ind; intros Hn; try done.
  - cbn in Hn |- *. rewrite isOnlyChinese_cleanString in Hn.
    apply negb_true_iff in Hn. by rewrite Hn.
  - cbn [noConvertibleText] in Hn. apply andb_prop in Hn as [Hl Hr].
    cbn [collectBinaryParts]. repeat case_match; try done.
    rewrite existsb_app, IHl, IHr; done.
Qed.

Lemma visitLiteral_not_convertible fuel p processed value st :
  isOnlyChinese (cleanString value) = false ->
  visitLiteral fuel p processed value st = (StringLiteral value, st).
Proof.
  intros H. destruct fuel; cbn [visitLiteral]; rewrite H;
    by repeat case_match.
Qed.

(** The visitor returns a tree without convertible text as it is, and
    leaves the state as it was. *)
Lemma visit_unchanged n :
  noConvertibleText printCode n = true ->
  forall p processed st, visit printCode p processed n st = (Returned n, st).
Proof.
  induction n as [name|value|raw|quasis expressions IH|operator l r IHl IHr
                 |callee arguments IHc IHa|object property IHo IHp
                 |properties IH|key value IHk IHv|type children IH]
    using node_forall_ind; intros Hn p processed st.
  - done.
  - cbn [visit]. rewrite visitLiteral_not_convertible; [done|].
    by apply negb_true_iff.
  - done.
  - cbn [noConvertibleText] in Hn. apply andb_prop in Hn as [Ht He].
    apply negb_true_iff in Ht.
    assert ((let* expressions' :=
               visitAll (visit printCode (FOther :: p) false) expressions in
             ret (TemplateLiteral quasis expressions'))%visit st =
            (Returned (TemplateLiteral quasis expressions), st)) as Htr.
    { unfold bind. rewrite visitAll_unchanged; [done|].
      rewrite Forall_forall in IH.
      apply Forall_forall. intros m Hm st'. apply IH; [done|].
      by apply (forallb_elem _ _ _ He). }
    cbn [visit]. rewrite Ht. cbn [negb]. repeat case_match; apply Htr.
  - pose proof Hn as Hn'.
    cbn [noConvertibleText] in Hn. apply andb_prop in Hn as [Hl Hr].
    assert (forall marked,
               (let* l' := visit printCode (FBinary operator :: p) marked l in
                let* r' := visit printCode (FBinary operator :: p) marked r in
                ret (BinaryExpression operator l' r'))%visit st =
               (Returned (BinaryExpression operator l r), st)) as Htr.
    { intros marked. unfold bind. by rewrite IHl, IHr. }
    destruct (composeParts (collectBinaryParts (BinaryExpression operator l r))
                [] []) as [templateText variables] eqn:Hcp.
    assert (isOnlyChinese (cleanString templateText) = false) as Ht.
    { rewrite isOnlyChinese_cleanString.
      pose proof (composeParts_chinese
                    (collectBinaryParts (BinaryExpression operator l r))
                    [] []) as Hc.
      rewrite Hcp in Hc. cbn [fst] in Hc.
      by rewrite Hc, (collectBinaryParts_chinese _ Hn'). }
    cbn [visit]. rewrite Hcp, Ht. cbn [negb].
    repeat case_match; apply Htr.
  - cbn [noConvertibleText] in Hn. apply andb_prop in Hn as [Hc Ha].
    cbn [visit]. unfold bind. rewrite IHc by done.
    rewrite visitAll_unchanged; [done|].
    rewrite Forall_forall in IHa. apply Forall_forall. intros m Hm st'.
    apply IHa; [done|]. by apply (forallb_elem _ _ _ Ha).
  - cbn [noConvertibleText] in Hn. apply andb_prop in Hn as [Ho Hp].
    cbn [visit]. unfold bind. by rewrite IHo, IHp.
  - cbn [noConvertibleText] in Hn.
    cbn [visit]. unfold bind. rewrite visitAll_unchanged; [done|].
    rewrite Forall_forall in IH. apply Forall_forall. intros m Hm st'.
    apply IH; [done|]. by apply (forallb_elem _ _ _ Hn).
  - cbn [noConvertibleText] in Hn. apply andb_prop in Hn as [Hk Hv].
    cbn [visit]. unfold bind. by rewrite IHk, IHv.
  - cbn [noConvertibleText] in Hn.
    cbn [visit]. unfold bind. rewrite visitAll_unchanged; [done|].
    rewrite Forall_forall in IH. apply Forall_forall. intros m Hm st'.
    apply IH; [done|]. by apply (forallb_elem _ _ _ Hn).
Qed.

End RoundTrip.




(** C9.  When the parser throws on a code region, or a visitor method
    throws while the tree is rewritten, [convertScript] returns the
    original code of the region; it never raises. *)
Theorem fail_soft parse printCode print scriptContent st :
  parse scriptContent = None \/
  (exists ast st', parse scriptContent = Some ast /\
                   visit printCode [] false ast st = (Thrown, st')) ->
  (convertScript parse printCode print scriptContent st).1 = scriptContent.
Proof.
  unfold convertScript. intros [Hparse|(ast & st' & Hparse & Hvisit)].
  - rewrite Hparse. by destruct scriptContent.
  - rewrite Hparse, Hvisit. by destruct scriptContent.
Qed.

Lemma fail_soft_witness :
  (convertScript sampleParse samplePrint sampleReprint brokenSource
                 initialState).1 = brokenSource.
Proof.
  apply fail_soft. left. vm_compute. reflexivity.
Defined.

(** A rewriting failure: the text of the template has two interpolation
    markers and the node one expression, so the builder of the second
    property throws. *)
Example visit_escapedTemplate_throws :
  (visit samplePrint [] false escapedTemplate initialState).1 = Thrown.
Proof. vm_compute. reflexivity. Qed.

(** ** The unmatched set and the markup rewriter *)

Lemma getKeyForChinese_unusable st chineseText :
  hasUsableKey st chineseText = false ->
  getKeyForChinese chineseText st = unmatched chineseText st.
Proof.
  unfold hasUsableKey. intros H.
  destruct (i18nMap st !! chineseText) as [[key|first others]|] eqn:Hm.
  - unfold getKeyForChinese. by rewrite Hm, H.
  - rewrite (getKeyForChinese_multi _ _ _ _ Hm). cbn zeta. by rewrite H.
  - unfold getKeyForChinese. by rewrite Hm.
Qed.

Lemma NoDup_setAdd x s : NoDup s -> NoDup (setAdd x s).
Proof.
  intros H. unfold setAdd. destruct (decide (x ∈ s)) as [|Hx]; [done|].
  apply NoDup_app. split_and!; [done| |apply NoDup_singleton].
  intros y Hy Hy'. apply list_elem_of_singleton in Hy'. by subst.
Qed.

Lemma setAdd_elem x s : x ∈ s -> setAdd x s = s.
Proof. intros H. unfold setAdd. by destruct (decide (x ∈ s)). Qed.

(** Resolution leaves the state as it is, or adds the text to the
    unmatched set. *)
Lemma getKeyForChinese_state chineseText st :
  (getKeyForChinese chineseText st).2 = st \/
  (getKeyForChinese chineseText st).2 = addUnmatched chineseText st.
Proof.
  unfold getKeyForChinese, unmatched.
  repeat case_match; cbn; auto.
Qed.


Lemma getKeyForChinese_distinct chineseText st key st' :
  getKeyForChinese chineseText st = (key, st') ->
  distinctUnmatched st -> distinctUnmatched st'.
Proof.
  intros H Hd. replace st' with (getKeyForChinese chineseText st).2
    by by rewrite H.
  destruct (getKeyForChinese_state chineseText st) as [-> | ->]; [done|].
  by apply NoDup_setAdd.
Qed.

Ltac distinct_steps :=
  repeat match goal with
         | H : getKeyForChinese _ _ = (_, _) |- _ =>
           apply getKeyForChinese_distinct in H; [|assumption]
         end.

Lemma convertToI18n_distinct text format st converted st' :
  convertToI18n text format st = (converted, st') ->
  distinctUnmatched st -> distinctUnmatched st'.
Proof.
  unfold convertToI18n. intros H Hd.
  repeat case_match; simplify_eq; distinct_steps; done.
Qed.

Ltac distinct_steps' :=
  repeat match goal with
         | H : getKeyForChinese _ _ = (_, _) |- _ =>
           apply getKeyForChinese_distinct in H; [|assumption]
         | H : convertToI18n _ _ _ = (_, _) |- _ =>
           apply convertToI18n_distinct in H; [|assumption]
         end.

Lemma convertPiece_distinct original st part st' :
  convertPiece original st = (part, st') ->
  distinctUnmatched st -> distinctUnmatched st'.
Proof.
  unfold convertPiece. intros H Hd.
  repeat case_match; simplify_eq; distinct_steps'; done.
Qed.

Lemma convertSegments_distinct segments afterText :
  forall st parts st',
    convertSegments segments afterText st = (parts, st') ->
    distinctUnmatched st -> distinctUnmatched st'.
Proof.
  induction segments as [|[beforeText interpolation] segments IH];
    intros st parts st' H Hd; cbn [convertSegments] in H.
  - unfold pushText in H. repeat case_match; simplify_eq; [done|].
    by eapply convertPiece_distinct.
  - unfold pushText in H. repeat case_match; simplify_eq.
    + by eapply IH.
    + eapply IH; [done|]. by eapply convertPiece_distinct.
Qed.

Lemma convertTemplateContent_distinct wrap matched templateContent st out st' :
  convertTemplateContent wrap matched templateContent st = (out, st') ->
  distinctUnmatched st -> distinctUnmatched st'.
Proof.
  unfold convertTemplateContent. intros H Hd.
  repeat case_match; simplify_eq; distinct_steps'; done.
Qed.

(** A property of the state that every call of the callback keeps is
    kept by the whole replacement. *)
Lemma replaceAll_invariant {G S : Type} (I : S -> Prop)
    (matchAt : jsstring -> option (G * jsstring))
    (callback : jsstring -> G -> S -> jsstring * S) :
  (forall matched groups st, I st -> I (callback matched groups st).2) ->
  forall fuel s st, I st -> I (replaceAll fuel matchAt callback s st).2.
Proof.
  intros Hcb. induction fuel as [|fuel IH]; intros s st Hst; [done|].
  cbn [replaceAll]. destruct (matchAt s) as [[groups rest]|].
  - specialize (Hcb (matchedText s rest) groups st Hst).
    destruct (callback (matchedText s rest) groups st) as [replacement st1].
    specialize (IH rest st1 Hcb).
    by destruct (replaceAll fuel matchAt callback rest st1).
  - destruct s as [|c s]; [done|].
    specialize (IH s st Hst).
    by destruct (replaceAll fuel matchAt callback s st).
Qed.

(** A run of the markup rewriter keeps the unmatched texts distinct. *)
Lemma convertTemplate_distinct templateContent st :
  distinctUnmatched st -> distinctUnmatched (convertTemplate templateContent st).2.
Proof.
  intros Hd. unfold convertTemplate, replace.
  destruct templateContent as [|c s]; [done|].
  destruct (replaceAll _ matchComment protectComment (c :: s) [])
    as [r0 comments].
  pose proof (replaceAll_invariant distinctUnmatched matchInterpolatedString
                convertInterpolatedString) as H1.
  pose proof (replaceAll_invariant distinctUnmatched matchInterpolatedTemplate
                convertInterpolatedTemplate) as H2.
  pose proof (replaceAll_invariant distinctUnmatched matchTextNode
                convertTextNode) as H3.
  pose proof (replaceAll_invariant distinctUnmatched matchStaticAttribute
                convertStaticAttribute) as H4.
  pose proof (replaceAll_invariant distinctUnmatched matchBoundLiteral
                convertBoundLiteral) as H5.
  pose proof (replaceAll_invariant distinctUnmatched matchBoundTemplate
                convertBoundTemplate) as H6.
  match goal with
  | |- context [replaceAll ?f matchInterpolatedString _ ?r ?s] =>
    specialize (H1 ltac:(
      intros matched groups st0 Hst; unfold convertInterpolatedString;
      repeat case_match; simplify_eq; distinct_steps'; done) f r s Hd);
    destruct (replaceAll f matchInterpolatedString
                convertInterpolatedString r s) as [r1 st1]
  end.
  match goal with
  | |- context [replaceAll ?f matchInterpolatedTemplate _ ?r ?s] =>
    specialize (H2 ltac:(
      intros matched groups st0 Hst; unfold convertInterpolatedTemplate;
      case_match; [done|];
      destruct (convertTemplateContent _ matched groups st0) eqn:E;
      by eapply convertTemplateContent_distinct) f r s H1);
    destruct (replaceAll f matchInterpolatedTemplate
                convertInterpolatedTemplate r s) as [r2 st2]
  end.
  match goal with
  | |- context [replaceAll ?f matchTextNode _ ?r ?s] =>
    specialize (H3 ltac:(
      intros matched groups st0 Hst; unfold convertTextNode;
      repeat case_match; simplify_eq; cbn [snd]; distinct_steps'; try done;
      by eapply convertSegments_distinct) f r s H2);
    destruct (replaceAll f matchTextNode convertTextNode r s) as [r3 st3]
  end.
  match goal with
  | |- context [replaceAll ?f matchStaticAttribute _ ?r ?s] =>
    specialize (H4 ltac:(
      intros matched groups st0 Hst; unfold convertStaticAttribute;
      repeat case_match; simplify_eq; distinct_steps'; done) f r s H3);
    destruct (replaceAll f matchStaticAttribute convertStaticAttribute r s)
      as [r4 st4]
  end.
  match goal with
  | |- context [replaceAll ?f matchBoundLiteral _ ?r ?s] =>
    specialize (H5 ltac:(
      intros matched groups st0 Hst; unfold convertBoundLiteral;
      repeat case_match; simplify_eq; distinct_steps'; done) f r s H4);
    destruct (replaceAll f matchBoundLiteral convertBoundLiteral r s)
      as [r5 st5]
  end.
  match goal with
  | |- context [replaceAll ?f matchBoundTemplate _ ?r ?s] =>
    specialize (H6 ltac:(
      intros matched groups st0 Hst; unfold convertBoundTemplate;
      destruct groups as [attrName templateContent];
      destruct (convertTemplateContent _ matched templateContent st0) eqn:E;
      by eapply convertTemplateContent_distinct) f r s H5);
    destruct (replaceAll f matchBoundTemplate convertBoundTemplate r s)
      as [r6 st6]
  end.
  by destruct (replaceAll _ matchPlaceholder (restoreComment comments) r6 tt).
Qed.

Lemma unmatched_skip chineseText st :
  skipUnmatched st = true ->
  unmatched chineseText st = (None, addUnmatched chineseText st).
Proof. intros H. rewrite unmatched_eq. by rewrite H. Qed.

Lemma convertToI18n_skip st raw format :
  skipUnmatched st = true ->
  hasUsableKey st (lookedUp raw) = false ->
  convertToI18n (cleanString raw) format st =
    (None, addUnmatched (lookedUp raw) st).
Proof.
  intros Hskip Hno. unfold convertToI18n, lookedUp in *.
  destruct (hasColonSuffix (detectColonSuffix (cleanString raw))) eqn:Hc.
  - by rewrite (getKeyForChinese_unusable _ _ Hno), (unmatched_skip _ _ Hskip).
  - assert (textWithoutColon (detectColonSuffix (cleanString raw)) =
            cleanString raw) as Ht.
    { revert Hc. unfold detectColonSuffix. by repeat case_match. }
    rewrite Ht in Hno.
    by rewrite (getKeyForChinese_unusable _ _ Hno), (unmatched_skip _ _ Hskip),
      Ht.
Qed.

Lemma resolveTimes_member n chineseText :
  forall st,
    hasUsableKey st chineseText = false ->
    chineseText ∈ unmatchedTexts st ->
    resolveTimes n chineseText st = st.
Proof.
  induction n as [|n IH]; intros st Hno Hin; [done|].
  cbn [resolveTimes].
  rewrite (getKeyForChinese_unusable _ _ Hno), unmatched_eq. cbn [snd].
  assert (addUnmatched chineseText st = st) as ->.
  { unfold addUnmatched. rewrite (setAdd_elem _ _ Hin). by destruct st. }
  by apply IH.
Qed.

Lemma resolveTimes_unusable n chineseText st :
  hasUsableKey st chineseText = false ->
  (1 <= n)%nat ->
  unmatchedTexts (resolveTimes n chineseText st) =
    setAdd chineseText (unmatchedTexts st).
Proof.
  intros Hno Hn. destruct n as [|n]; [lia|]. cbn [resolveTimes].
  rewrite (getKeyForChinese_unusable _ _ Hno), unmatched_eq. cbn [snd].
  rewrite resolveTimes_member; [done|exact Hno|].
  cbn. apply elem_of_setAdd.
Qed.



(** ** Trailing punctuation *)

Lemma endsWith_last c d body :
  endsWith [c] (body ++ [d]) = (c =? d).
Proof.
  unfold endsWith. rewrite rev_app_distr. cbn. apply andb_true_r.
Qed.

Lemma sliceInit_last body c : sliceInit (body ++ [c]) = body.
Proof. unfold sliceInit. apply removelast_last. Qed.

(** A text that ends in one of the two colons is split into the text
    before the colon and that colon. *)
Lemma detectColonSuffix_colon body c :
  c = asciiColon \/ c = fullwidthColon ->
  detectColonSuffix (body ++ [c]) =
    {| hasColonSuffix := true; colonChar := [c]; textWithoutColon := body |}.
Proof.
  intros Hc. unfold detectColonSuffix.
  rewrite !endsWith_last, sliceInit_last.
  destruct (body ++ [c]) eqn:E; [by destruct body|].
  destruct Hc as [-> | ->]; reflexivity.
Qed.

(** [visitLiteral] on a convertible literal that ends in a colon, for
    any bound on the revisits. *)
Lemma visitLiteral_colon fuel p value st body c key st' :
  cleanString value = body ++ [c] ->
  c = asciiColon \/ c = fullwidthColon ->
  isOnlyChinese (cleanString value) = true ->
  getKeyForChinese body st = (Some key, st') ->
  isPlusOperand p = false -> isObjectPropertyKey p = false ->
  isInConsoleCall p = false -> isInI18nCall p = false ->
  visitLiteral fuel p false value st =
    (plusColon (i18nCall (StringLiteral key) []) (StringLiteral [c]), st').
Proof.
  intros Hclean Hc Hconv Hkey H1 H2 H3 H4.
  destruct fuel as [|fuel]; cbn [visitLiteral];
    rewrite H1, H2, H3, H4, Hconv, Hclean, (detectColonSuffix_colon _ _ Hc);
    cbn [hasColonSuffix textWithoutColon colonChar]; rewrite Hkey; [done|].
  rewrite visitLiteral_in_i18nCall by apply isInI18nCall_i18nCallee.
  by rewrite visitLiteral_plus_operand.
Qed.

(** ** Template literals *)

Section TemplateFacts.

Variable printCode : node -> jsstring.

(** The traversal of a replacement whose rest is returned as it is. *)
Lemma traverseCall_unchanged p key (visitRest : path -> M (list node)) rest st :
  visitRest (FCall i18nCallee :: p) st = (Returned rest, st) ->
  traverseCall p key visitRest st =
    (Returned (i18nCall (StringLiteral key) rest), st).
Proof.
  intros Hrest. unfold traverseCall, bind, visitNewLiteral.
  rewrite visitLiteral_in_i18nCall by apply isInI18nCall_i18nCallee.
  by rewrite Hrest.
Qed.

Lemma traversePlusColon_unchanged p key colon
    (visitRest : path -> M (list node)) rest st :
  visitRest (FCall i18nCallee :: FBinary (lit "+") :: p) st =
    (Returned rest, st) ->
  traversePlusColon p key colon visitRest st =
    (Returned (plusColon (i18nCall (StringLiteral key) rest)
                         (StringLiteral colon)), st).
Proof.
  intros Hrest. unfold traversePlusColon, bind.
  rewrite (traverseCall_unchanged _ _ _ _ _ Hrest).
  unfold visitNewLiteral. by rewrite visitLiteral_plus_operand.
Qed.

(** The properties built from expressions that the visitor returns as
    they are. *)
Lemma visitProperties_unchanged expressions :
  forall params properties p st,
    Forall (fun e => forall q st, visit printCode q false e st =
                                    (Returned e, st)) expressions ->
    pairParams params expressions = Some properties ->
    visitProperties (fun q => visit printCode q false) expressions params p st
    = (Returned properties, st).
Proof.
  induction expressions as [|e expressions IH];
    intros [|param params] properties p st He Hp; cbn in Hp; simplify_eq;
    try done.
  destruct (pairParams params expressions) as [rest|] eqn:Hrest;
    simplify_eq.
  inversion He as [|? ? He1 He2]; subst.
  cbn [visitProperties]. unfold bind. rewrite He1.
  fold (visitProperties (fun q => visit printCode q false)).
  by rewrite (IH params rest p st He2 Hrest).
Qed.

(** The template visitor on a convertible template with expressions,
    once its key is resolved. *)
Lemma visit_template_resolved p processed quasis expressions st key st' :
  isInConsoleCall p = false -> isInI18nCall p = false ->
  expressions <> [] ->
  let templateText := getTemplateString printCode quasis expressions in
  let vars := extractTemplateVars templateText in
  let suffix := detectColonSuffix (text vars) in
  isOnlyChinese (cleanString templateText) = true ->
  getKeyForChinese (if hasColonSuffix suffix then textWithoutColon suffix
                    else text vars) st = (Some key, st') ->
  visit printCode p processed (TemplateLiteral quasis expressions) st =
    match pairParams (params vars) expressions with
    | None => (Thrown, st')
    | Some _ =>
      let visitRest := fun p' =>
        (let* properties' :=
           visitProperties (fun q => visit printCode q false) expressions
                           (params vars) p' in
         ret [ObjectExpression properties'])%visit in
      if hasColonSuffix suffix
      then traversePlusColon p key (colonChar suffix) visitRest st'
      else traverseCall p key visitRest st'
    end.
Proof.
  intros Hc Hi He templateText vars suffix Hconv Hkey.
  cbn [visit]. rewrite Hc, Hi. fold templateText. rewrite Hconv. cbn [negb].
  destruct expressions as [|e expressions]; [done|].
  fold vars. fold suffix. unfold bind at 1. unfold resolveKey.
  rewrite Hkey.
  destruct (pairParams (params vars) (e :: expressions)); [|done].
  by destruct (hasColonSuffix suffix).
Qed.

(** The same template when resolution answers [null]: it is traversed. *)
Lemma visit_template_skipped p processed quasis expressions st st' :
  isInConsoleCall p = false -> isInI18nCall p = false ->
  expressions <> [] ->
  let templateText := getTemplateString printCode quasis expressions in
  let vars := extractTemplateVars templateText in
  let suffix := detectColonSuffix (text vars) in
  isOnlyChinese (cleanString templateText) = true ->
  getKeyForChinese (if hasColonSuffix suffix then textWithoutColon suffix
                    else text vars) st = (None, st') ->
  visit printCode p processed (TemplateLiteral quasis expressions) st =
    (let* expressions' :=
       visitAll (visit printCode (FOther :: p) false) expressions in
     ret (TemplateLiteral quasis expressions'))%visit st'.
Proof.
  intros Hc Hi He templateText vars suffix Hconv Hkey.
  cbn [visit]. rewrite Hc, Hi. fold templateText. rewrite Hconv. cbn [negb].
  destruct expressions as [|e expressions]; [done|].
  fold vars. fold suffix. unfold bind at 1. unfold resolveKey.
  by rewrite Hkey.
Qed.

End TemplateFacts.

(** ** Parameter extraction *)

Lemma getKeyForChinese_single st chineseText key :
  i18nMap st !! chineseText = Some (Single key) ->
  isKeyPathMatched key st = true ->
  getKeyForChinese chineseText st = (Some key, st).
Proof. intros Hm Hk. unfold getKeyForChinese. by rewrite Hm, Hk. Qed.

Lemma getKeyForChinese_absent st chineseText :
  i18nMap st !! chineseText = None ->
  getKeyForChinese chineseText st = unmatched chineseText st.
Proof. intros Hm. unfold getKeyForChinese. by rewrite Hm. Qed.

Lemma extractTemplateVars_userSource :
  extractTemplateVars userSource =
    {| text := userBody; params := [userParam]; hasChinese := true |}.
Proof. vm_compute. reflexivity. Qed.

Lemma extractTemplateVars_userSourceColonLast :
  extractTemplateVars userSourceColonLast =
    {| text := userBodyColonLast ++ [fullwidthColon]; params := [userParam];
       hasChinese := true |}.
Proof. vm_compute. reflexivity. Qed.

Lemma detectColonSuffix_userBody :
  detectColonSuffix userBody =
    {| hasColonSuffix := false; colonChar := []; textWithoutColon := userBody |}.
Proof. vm_compute. reflexivity. Qed.

Section ParameterExtraction.

Variable printCode : node -> jsstring.
Hypothesis print_username : printCode username = lit "username".

Lemma getTemplateString_userTemplate :
  getTemplateString printCode [userText ++ [fullwidthColon]; []] [username] =
    userSource.
Proof.
  cbn [getTemplateString]. rewrite print_username. vm_compute. reflexivity.
Qed.

Lemma getTemplateString_userTemplateColonLast :
  getTemplateString printCode [userText; [fullwidthColon]] [username] =
    userSourceColonLast.
Proof.
  cbn [getTemplateString]. rewrite print_username. vm_compute. reflexivity.
Qed.

Lemma visitRest_username p st :
  (let* properties' :=
     visitProperties (fun q => visit printCode q false) [username]
                     [userParam] p in
   ret [ObjectExpression properties'])%visit st =
    (Returned [userParams], st).
Proof.
  unfold bind.
  rewrite (visitProperties_unchanged printCode [username] [userParam]
             [Property (Identifier (lit "param1")) username]); try done.
  by constructor.
Qed.

(** The template with the colon before the expression, when its body
    with the placeholder has a key. *)
Lemma visit_userTemplate_resolved p processed st :
  isInConsoleCall p = false -> isInI18nCall p = false ->
  i18nMap st !! userBody = Some (Single (lit "user.current")) ->
  isKeyPathMatched (lit "user.current") st = true ->
  visit printCode p processed userTemplate st =
    (Returned (i18nCall (StringLiteral (lit "user.current")) [userParams]), st).
Proof.
  intros Hc Hi Hm Hk. unfold userTemplate.
  rewrite (visit_template_resolved printCode p processed _ _ st
             (lit "user.current") st Hc Hi); try done.
  - rewrite getTemplateString_userTemplate, extractTemplateVars_userSource.
    cbn [text params]. rewrite detectColonSuffix_userBody.
    cbn [hasColonSuffix pairParams].
    apply traverseCall_unchanged, visitRest_username.
  - rewrite getTemplateString_userTemplate. vm_compute. reflexivity.
  - rewrite getTemplateString_userTemplate, extractTemplateVars_userSource.
    cbn [text]. rewrite detectColonSuffix_userBody. cbn [hasColonSuffix].
    by apply getKeyForChinese_single.
Qed.

(** The same template when the dictionary has no entry for its body. *)
Lemma visit_userTemplate_unmatched p processed st :
  isInConsoleCall p = false -> isInI18nCall p = false ->
  i18nMap st !! userBody = None ->
  visit printCode p processed userTemplate st =
    (Returned (if skipUnmatched st then userTemplate
               else i18nCall (StringLiteral userBody) [userParams]),
     addUnmatched userBody st).
Proof.
  intros Hc Hi Hm. unfold userTemplate.
  assert (isOnlyChinese
            (cleanString
               (getTemplateString printCode
                  [userText ++ [fullwidthColon]; []] [username])) = true)
    as Hconv by (rewrite getTemplateString_userTemplate; vm_compute;
                 reflexivity).
  assert (forall key,
             getKeyForChinese userBody st = (key, addUnmatched userBody st) ->
             getKeyForChinese
               (let templateText :=
                  getTemplateString printCode
                    [userText ++ [fullwidthColon]; []] [username] in
                let vars := extractTemplateVars templateText in
                let suffix := detectColonSuffix (text vars) in
                if hasColonSuffix suffix then textWithoutColon suffix
                else text vars) st = (key, addUnmatched userBody st)) as Hkey.
  { intros key H. cbn zeta.
    rewrite getTemplateString_userTemplate, extractTemplateVars_userSource.
    cbn [text]. rewrite detectColonSuffix_userBody. by cbn [hasColonSuffix]. }
  pose proof (getKeyForChinese_absent st userBody Hm) as Hu.
  rewrite unmatched_eq in Hu.
  destruct (skipUnmatched st) eqn:Hskip.
  - rewrite (visit_template_skipped printCode p processed _ _ st
               (addUnmatched userBody st) Hc Hi); [|done|done|by apply Hkey].
    done.
  - rewrite (visit_template_resolved printCode p processed _ _ st
               userBody (addUnmatched userBody st) Hc Hi);
      [|done|done|by apply Hkey].
    rewrite getTemplateString_userTemplate, extractTemplateVars_userSource.
    cbn [text params]. rewrite detectColonSuffix_userBody.
    cbn [hasColonSuffix pairParams].
    apply traverseCall_unchanged, visitRest_username.
Qed.

(** The template with the colon at its end: the colon is split off and
    appended outside the call. *)
Lemma visit_userTemplateColonLast p processed st :
  isInConsoleCall p = false -> isInI18nCall p = false ->
  i18nMap st !! userBodyColonLast = Some (Single (lit "user.current")) ->
  isKeyPathMatched (lit "user.current") st = true ->
  visit printCode p processed userTemplateColonLast st =
    (Returned (plusColon
                 (i18nCall (StringLiteral (lit "user.current")) [userParams])
                 (StringLiteral [fullwidthColon])), st).
Proof.
  intros Hc Hi Hm Hk. unfold userTemplateColonLast.
  rewrite (visit_template_resolved printCode p processed _ _ st
             (lit "user.current") st Hc Hi); try done.
  - rewrite getTemplateString_userTemplateColonLast,
      extractTemplateVars_userSourceColonLast.
    cbn [text params].
    rewrite (detectColonSuffix_colon userBodyColonLast fullwidthColon)
      by by right.
    cbn [hasColonSuffix colonChar pairParams].
    apply traversePlusColon_unchanged, visitRest_username.
  - rewrite getTemplateString_userTemplateColonLast. vm_compute. reflexivity.
  - rewrite getTemplateString_userTemplateColonLast,
      extractTemplateVars_userSourceColonLast.
    cbn [text].
    rewrite (detectColonSuffix_colon userBodyColonLast fullwidthColon)
      by by right.
    cbn [hasColonSuffix textWithoutColon].
    by apply getKeyForChinese_single.
Qed.

End ParameterExtraction.

(** Counterexample to C2 as stated: the code-region template of the
    parameter-extraction property is rewritten to a call on the text
    looked up for it, not to a call on user.current followed by the
    colon. *)
Lemma parameter_extraction_counterexample :
  visit samplePrint [] false userTemplate userRun =
    (Returned (i18nCall (StringLiteral userBody) [userParams]),
     addUnmatched userBody userRun) /\
  (visit samplePrint [] false userTemplate userRun).1 <>
    Returned (plusColon
                (i18nCall (StringLiteral (lit "user.current")) [userParams])
                (StringLiteral [fullwidthColon])).
Proof.
  assert (visit samplePrint [] false userTemplate userRun =
          (Returned (i18nCall (StringLiteral userBody) [userParams]),
           addUnmatched userBody userRun)) as H
    by (vm_compute; reflexivity).
  split; [exact H|]. rewrite H. discriminate.
Qed.

(** C2.  Amended statement: for the template literal with the colon before the
    expression, the text that is looked up is the whole body with the
    placeholder, colon included: with an entry for that text the literal
    becomes a call on its key with the parameter object for the original
    expression and nothing is concatenated; without such an entry the
    text is unmatched.  The colon is split off and appended as a literal
    outside the call when it ends the body. *)
Theorem parameter_extraction printCode p processed st :
  printCode username = lit "username" ->
  isInConsoleCall p = false ->
  isInI18nCall p = false ->
  (i18nMap st !! userBody = Some (Single (lit "user.current")) ->
   isKeyPathMatched (lit "user.current") st = true ->
   visit printCode p processed userTemplate st =
     (Returned (i18nCall (StringLiteral (lit "user.current")) [userParams]),
      st)) /\
  (i18nMap st !! userBody = None ->
   visit printCode p processed userTemplate st =
     (Returned (if skipUnmatched st then userTemplate
                else i18nCall (StringLiteral userBody) [userParams]),
      addUnmatched userBody st)) /\
  (i18nMap st !! userBodyColonLast = Some (Single (lit "user.current")) ->
   isKeyPathMatched (lit "user.current") st = true ->
   visit printCode p processed userTemplateColonLast st =
     (Returned (plusColon
                  (i18nCall (StringLiteral (lit "user.current")) [userParams])
                  (StringLiteral [fullwidthColon])), st)).
Proof.
  intros Hprint Hc Hi. split_and!.
  - by apply visit_userTemplate_resolved.
  - by apply visit_userTemplate_unmatched.
  - by apply visit_userTemplateColonLast.
Qed.

Lemma parameter_extraction_witness :
  visit samplePrint [] false userTemplate userRun =
    (Returned (i18nCall (StringLiteral userBody) [userParams]),
     addUnmatched userBody userRun).
Proof.
  destruct (parameter_extraction samplePrint [] false userRun)
    as (_ & H & _).
  - reflexivity.
  - reflexivity.
  - reflexivity.
  - apply H. vm_compute. reflexivity.
Defined.

(** ** Templates without convertible body text *)

(** In markup a template whose text without its expressions has no
    ideograph is returned as it is. *)
Lemma convertTemplateContent_no_body_text wrap matched templateContent st :
  hasChinese (extractTemplateVars templateContent) = false ->
  convertTemplateContent wrap matched templateContent st = (matched, st).
Proof. intros H. unfold convertTemplateContent. by rewrite H. Qed.

(** C3.  The code at the failing input: the template literal with the static
    text abc and the expression 名 has no ideograph outside its
    expression; the two markup passes leave it as it is, and the visitor
    of the code region rewrites it to a translation call. *)
Theorem template_without_body_text :
  hasChinese (extractTemplateVars (lit "abc${" ++ [0x540D] ++ lit "}")) = false /\
  (forall matched st,
      convertInterpolatedTemplate matched (lit "abc${" ++ [0x540D] ++ lit "}") st
      = (matched, st)) /\
  (forall matched attrName st,
      convertBoundTemplate matched
        (attrName, lit "abc${" ++ [0x540D] ++ lit "}") st = (matched, st)) /\
  visit samplePrint [] false asciiTemplate initialState =
    (Returned (i18nCall (StringLiteral (lit "abc{param1}"))
                 [ObjectExpression
                    [Property (Identifier (lit "param1"))
                       (Identifier [0x540D])]]),
     addUnmatched (lit "abc{param1}") initialState).
Proof.
  assert (hasChinese (extractTemplateVars (lit "abc${" ++ [0x540D] ++ lit "}"))
          = false) as H by (vm_compute; reflexivity).
  split_and!.
  - exact H.
  - intros matched st. unfold convertInterpolatedTemplate.
    rewrite convertTemplateContent_no_body_text by exact H. by case_match.
  - intros matched attrName st. unfold convertBoundTemplate.
    by rewrite convertTemplateContent_no_body_text by exact H.
  - vm_compute. reflexivity.
Qed.

(** ** Repeated runs *)

Lemma jsEq_refl a : jsEq a a = true.
Proof. unfold jsEq. by apply bool_decide_eq_true. Qed.

(** The frames of two paths that the methods cannot tell apart give the
    same answers to the four tests. *)
Lemma isConsoleCall_sameFrame f g :
  sameFrame f g -> isConsoleCall f = isConsoleCall g.
Proof.
  destruct f as [c| | |], g as [c'| | |]; try done. cbn.
  destruct c, c'; try done; cbn; intros H; simplify_eq; try done.
  all: match goal with
       | H : identifierName ?a = identifierName ?b |- _ =>
         destruct a, b; cbn in *; simplify_eq; done
       end.
Qed.

Lemma isInConsoleCall_samePath p q :
  samePath p q -> isInConsoleCall p = isInConsoleCall q.
Proof.
  induction 1 as [|f g p q Hf _ IH]; [done|].
  unfold isInConsoleCall in *. cbn.
  by rewrite (isConsoleCall_sameFrame f g Hf), IH.
Qed.

Lemma isInI18nCall_samePath p q :
  samePath p q -> isInI18nCall p = isInI18nCall q.
Proof.
  destruct 1 as [|f g p q Hf _]; [done|].
  destruct f as [c| | |], g as [c'| | |]; try done. cbn in *.
  destruct c, c'; try done; cbn in *; simplify_eq; try done.
  repeat match goal with
         | H : identifierName ?a = identifierName ?b |- _ =>
           destruct a, b; cbn in H; simplify_eq
         end; done.
Qed.

Lemma isPlusOperand_samePath p q :
  samePath p q -> isPlusOperand p = isPlusOperand q.
Proof.
  destruct 1 as [|f g p q Hf _]; [done|].
  destruct f, g; try done. cbn in *. by subst.
Qed.

Lemma isObjectPropertyKey_samePath p q :
  samePath p q -> isObjectPropertyKey p = isObjectPropertyKey q.
Proof.
  destruct 1 as [|f g p q Hf _]; [done|]. by destruct f, g.
Qed.

Lemma samePath_refl p : samePath p p.
Proof.
  induction p as [|f p IH]; constructor; [|done]. by destruct f.
Qed.

Lemma samePath_cons f g p q :
  sameFrame f g -> samePath p q -> samePath (f :: p) (g :: q).
Proof. by constructor. Qed.

(** Resolution reads the options only, and does not change them. *)
Lemma getKeyForChinese_options chineseText st1 st2 :
  optionsOf st1 = optionsOf st2 ->
  (getKeyForChinese chineseText st1).1 = (getKeyForChinese chineseText st2).1.
Proof.
  unfold optionsOf. intros H. injection H as Hm Hs Hp.
  unfold getKeyForChinese, isKeyPathMatched, activePath, unmatched, addUnmatched.
  rewrite Hm, Hp. cbn [skipUnmatched]. rewrite Hs.
  repeat case_match; simplify_eq; done.
Qed.

Lemma getKeyForChinese_keeps_options chineseText st :
  optionsOf (getKeyForChinese chineseText st).2 = optionsOf st.
Proof.
  by destruct (getKeyForChinese_state chineseText st) as [-> | ->].
Qed.

Lemma colonChar_not_chinese s :
  existsb isChineseChar (colonChar (detectColonSuffix s)) = false.
Proof. unfold detectColonSuffix. by repeat case_match. Qed.

Lemma textWithoutColon_plain s :
  hasColonSuffix (detectColonSuffix s) = false ->
  textWithoutColon (detectColonSuffix s) = s.
Proof. unfold detectColonSuffix. by repeat case_match. Qed.


Lemma visitLiteral_rewriteLeaf fuel p processed value st :
  visitLiteral fuel p processed value st =
    rewriteLeaf (literalSkipped p processed) (cleanString value)
                (StringLiteral value) st.
Proof.
  unfold rewriteLeaf, literalSkipped.
  destruct fuel as [|fuel]; cbn [visitLiteral];
    destruct processed, (isPlusOperand p), (isObjectPropertyKey p),
      (isInConsoleCall p), (isInI18nCall p); cbn [orb]; try done;
    destruct (isOnlyChinese (cleanString value)); try done;
    destruct (hasColonSuffix (detectColonSuffix (cleanString value))) eqn:Hs;
    rewrite ?(textWithoutColon_plain _ Hs);
    try (destruct (getKeyForChinese _ st) as [[key|] st']; done).
  - destruct (getKeyForChinese _ st) as [[key|] st']; [|done].
    rewrite visitLiteral_in_i18nCall by apply isInI18nCall_i18nCallee.
    by rewrite visitLiteral_plus_operand.
  - destruct (getKeyForChinese _ st) as [[key|] st']; [|done].
    by rewrite visitLiteral_in_i18nCall by apply isInI18nCall_i18nCallee.
Qed.

Lemma identifierName_shape a b :
  shapeOf a = shapeOf b -> identifierName a = identifierName b.
Proof. destruct a, b; cbn; intros H; by simplify_eq. Qed.

Section RepeatedRuns.

Variable printCode : node -> jsstring.

(** The calls made by a run are returned as they are by a later visit. *)
Lemma visit_i18nCall_fixed q processed key st :
  visit printCode q processed (i18nCall (StringLiteral key) []) st =
    (Returned (i18nCall (StringLiteral key) []), st).
Proof.
  unfold i18nCall. cbn [visit].
  rewrite (bind_returned _ _ _ i18nCallee st) by reflexivity.
  cbn [visitAll].
  rewrite (bind_returned _ _ _ [StringLiteral key] st); [done|].
  rewrite (bind_returned _ _ _ (StringLiteral key) st); [done|].
  cbn [visit].
  by rewrite visitLiteral_in_i18nCall by apply isInI18nCall_i18nCallee.
Qed.

Lemma visit_plusColon_fixed q key colon st :
  existsb isChineseChar colon = false ->
  visit printCode q false
        (plusColon (i18nCall (StringLiteral key) []) (StringLiteral colon)) st =
    (Returned (plusColon (i18nCall (StringLiteral key) [])
                         (StringLiteral colon)), st).
Proof.
  intros Hcolon.
  assert (forall marked,
             (let* l' := visit printCode (FBinary (lit "+") :: q) marked
                               (i18nCall (StringLiteral key) []) in
              let* r' := visit printCode (FBinary (lit "+") :: q) marked
                               (StringLiteral colon) in
              ret (plusColon l' r'))%visit st =
             (Returned (plusColon (i18nCall (StringLiteral key) [])
                                  (StringLiteral colon)), st)) as Htr.
  { intros marked. unfold bind. rewrite visit_i18nCall_fixed.
    cbn [visit]. by rewrite visitLiteral_plus_operand. }
  unfold plusColon at 1. cbn [visit]. fold (plusColon).
  rewrite jsEq_refl. cbn [negb].
  destruct (isInConsoleCall q); [apply Htr|].
  destruct (isInI18nCall q); [apply Htr|].
  replace (collectBinaryParts
             (BinaryExpression (lit "+") (i18nCall (StringLiteral key) [])
                               (StringLiteral colon)))
    with [PartExpression (i18nCall (StringLiteral key) []); PartString colon].
  2: { cbn [collectBinaryParts containsStringLiteral i18nCall].
       rewrite jsEq_refl. by rewrite orb_true_r. }
  cbn [existsb orb negb composeParts length app Nat.add].
  assert (isOnlyChinese
            (cleanString (lbrace :: (paramName 1 ++ [rbrace]) ++ colon))
          = false) as ->.
  { rewrite isOnlyChinese_cleanString. cbn [existsb].
    rewrite !existsb_app, Hcolon, paramName_not_chinese. reflexivity. }
  apply Htr.
Qed.

(** The template visitor on a template without expressions. *)
Lemma visit_template_rewriteLeaf p processed quasis st :
  visit printCode p processed (TemplateLiteral quasis []) st =
    let '(n, st') :=
      rewriteLeaf (isInConsoleCall p || isInI18nCall p)
                  (cleanString (getTemplateString printCode quasis []))
                  (TemplateLiteral quasis []) st in
    (Returned n, st').
Proof.
  unfold rewriteLeaf. cbn [visit visitAll].
  destruct (isInConsoleCall p), (isInI18nCall p); cbn [orb]; try done.
  destruct (isOnlyChinese _); cbn [negb]; [|done].
  unfold bind at 1. unfold resolveKey.
  destruct (hasColonSuffix _) eqn:Hs.
  - destruct (getKeyForChinese _ st) as [[key|] st']; [|done].
    by rewrite (traversePlusColon_unchanged _ _ _ _ []).
  - rewrite (textWithoutColon_plain _ Hs).
    destruct (getKeyForChinese _ st) as [[key|] st']; [|done].
    by rewrite (traverseCall_unchanged _ _ _ []).
Qed.


(** A leaf after its rewrite is stable. *)
Lemma rewriteLeaf_stable (skipped : path -> bool) cleaned original p st1 :
  (forall q, samePath p q -> skipped p = skipped q) ->
  (forall q st,
      visit printCode q false original st =
        let '(n, st') := rewriteLeaf (skipped q) cleaned original st in
        (Returned n, st')) ->
  exists n1 st1',
    rewriteLeaf (skipped p) cleaned original st1 = (n1, st1') /\
    optionsOf st1' = optionsOf st1 /\
    (n1 = original \/ shapeOf n1 = ShapeOther) /\
    stableAt printCode n1 p st1.
Proof.
  intros Hskip Hvisit.
  assert (forall q st2, samePath p q ->
                        skipped p = true \/ isOnlyChinese cleaned = false ->
            exists st2', visit printCode q false original st2 =
                           (Returned original, st2') /\
                         optionsOf st2' = optionsOf st2) as Hkept.
  { intros q st2 Hq Hc. exists st2. split; [|done].
    rewrite Hvisit, <- (Hskip q Hq). unfold rewriteLeaf.
    destruct Hc as [-> | Hc]; [done|]. rewrite Hc. by destruct (skipped p). }
  unfold rewriteLeaf at 1.
  destruct (skipped p) eqn:Hs.
  { exists original, st1. split_and!; [done|done|by left|].
    intros q st2 Hq _. apply Hkept; auto. }
  destruct (isOnlyChinese cleaned) eqn:Hc.
  2: { exists original, st1. split_and!; [done|done|by left|].
       intros q st2 Hq _. apply Hkept; auto. }
  cbn zeta.
  pose proof (getKeyForChinese_keeps_options
                (textWithoutColon (detectColonSuffix cleaned)) st1) as Ho.
  destruct (getKeyForChinese (textWithoutColon (detectColonSuffix cleaned)) st1)
    as [[key|] st1'] eqn:Hk; cbn [snd] in Ho.
  - eexists _, st1'. split_and!; [done|done| |].
    + right. by case_match.
    + intros q st2 Hq Hst. exists st2. split; [|done].
      destruct (hasColonSuffix _).
      * apply visit_plusColon_fixed, colonChar_not_chinese.
      * apply visit_i18nCall_fixed.
  - exists original, st1'. split_and!; [done|done|by left|].
    intros q st2 Hq Hst.
    exists (getKeyForChinese (textWithoutColon (detectColonSuffix cleaned))
                             st2).2.
    split; [|apply getKeyForChinese_keeps_options].
    rewrite Hvisit, <- (Hskip q Hq). unfold rewriteLeaf. rewrite Hc.
    cbn zeta.
    pose proof (getKeyForChinese_options
                  (textWithoutColon (detectColonSuffix cleaned)) st1 st2 Hst)
      as Hsame.
    rewrite Hk in Hsame. cbn [fst] in Hsame.
    destruct (getKeyForChinese _ st2) as [key2 st2'].
    cbn [fst snd] in *. by subst.
Qed.

End RepeatedRuns.

Section RunTwice.

Variable printCode : node -> jsstring.


Lemma visitAll_runsOnce l :
  Forall (runsOnce printCode) l ->
  forall p st1,
    exists l1 st1',
      visitAll (visit printCode p false) l st1 = (Returned l1, st1') /\
      optionsOf st1' = optionsOf st1 /\
      forall q st2,
        samePath p q -> optionsOf st1 = optionsOf st2 ->
        exists st2',
          visitAll (visit printCode q false) l1 st2 = (Returned l1, st2') /\
          optionsOf st2' = optionsOf st2.
Proof.
  induction 1 as [|n l Hn _ IH]; intros p st1.
  - exists [], st1. split_and!; [done|done|].
    intros q st2 _ _. by exists st2.
  - destruct (Hn p st1) as (n1 & st1a & Hv & Ho & _ & Hstable).
    destruct (IH p st1a) as (l1 & st1b & Hvl & Hol & Hstablel).
    exists (n1 :: l1), st1b. split_and!.
    + cbn [visitAll]. rewrite (bind_returned _ _ _ _ _ Hv).
      by rewrite (bind_returned _ _ _ _ _ Hvl).
    + congruence.
    + intros q st2 Hq Hst.
      destruct (Hstable q st2 Hq Hst) as (st2a & Hv2 & Ho2).
      destruct (Hstablel q st2a Hq) as (st2b & Hvl2 & Hol2); [congruence|].
      exists st2b. split; [|congruence].
      cbn [visitAll]. rewrite (bind_returned _ _ _ _ _ Hv2).
      by rewrite (bind_returned _ _ _ _ _ Hvl2).
Qed.

Lemma forallb_Forall_runsOnce l :
  Forall (fun n => plainLiterals n = true -> runsOnce printCode n) l ->
  forallb plainLiterals l = true ->
  Forall (runsOnce printCode) l.
Proof.
  intros IH Hl. rewrite Forall_forall in IH. apply Forall_forall.
  intros n Hn. apply IH; [done|]. by apply (forallb_elem _ _ _ Hl).
Qed.

(** A tree without [+] and without template expressions is rewritten
    once and for all by one run. *)
Lemma plainLiterals_runsOnce n : plainLiterals n = true -> runsOnce printCode n.
Proof.
  induction n as [name|value|raw|quasis expressions IH|operator l r IHl IHr
                 |callee arguments IHc IHa|object property IHo IHp
                 |properties IH|key value IHk IHv|type children IH]
    using node_forall_ind; intros Hn p st1.
  - exists (Identifier name), st1. split_and!; try done.
    intros q st2 _ _. by exists st2.
  - destruct (rewriteLeaf_stable printCode
                (fun q => literalSkipped q false) (cleanString value)
                (StringLiteral value) p st1)
      as (n1 & st1' & Hr & Ho & Hshape & Hstable).
    + intros q Hq. unfold literalSkipped.
      by rewrite (isPlusOperand_samePath p q Hq),
        (isObjectPropertyKey_samePath p q Hq),
        (isInConsoleCall_samePath p q Hq), (isInI18nCall_samePath p q Hq).
    + intros q st. cbn [visit]. by rewrite visitLiteral_rewriteLeaf.
    + exists n1, st1'. split_and!; try done.
      * cbn [visit]. by rewrite visitLiteral_rewriteLeaf, Hr.
      * by destruct Hshape as [-> | ->].
  - exists (OtherLiteral raw), st1. split_and!; try done.
    intros q st2 _ _. by exists st2.
  - cbn [plainLiterals] in Hn. destruct expressions as [|e es]; [|done].
    destruct (rewriteLeaf_stable printCode
                (fun q => isInConsoleCall q || isInI18nCall q)
                (cleanString (getTemplateString printCode quasis []))
                (TemplateLiteral quasis []) p st1)
      as (n1 & st1' & Hr & Ho & Hshape & Hstable).
    + intros q Hq.
      by rewrite (isInConsoleCall_samePath p q Hq),
        (isInI18nCall_samePath p q Hq).
    + intros q st. by rewrite visit_template_rewriteLeaf.
    + exists n1, st1'. split_and!; try done.
      * by rewrite visit_template_rewriteLeaf, Hr.
      * by destruct Hshape as [-> | ->].
  - cbn [plainLiterals] in Hn.
    apply andb_prop in Hn as [Hn Hr]. apply andb_prop in Hn as [Hop Hl].
    destruct (IHl Hl (FBinary operator :: p) st1)
      as (l1 & st1a & Hvl & Hol & _ & Hsl).
    destruct (IHr Hr (FBinary operator :: p) st1a)
      as (r1 & st1b & Hvr & Hor & _ & Hsr).
    exists (BinaryExpression operator l1 r1), st1b. split_and!.
    + cbn [visit]. rewrite Hop. rewrite (bind_returned _ _ _ _ _ Hvl).
      by rewrite (bind_returned _ _ _ _ _ Hvr).
    + congruence.
    + done.
    + intros q st2 Hq Hst.
      destruct (Hsl (FBinary operator :: q) st2) as (st2a & Hvl2 & Hol2);
        [by apply samePath_cons|done|].
      destruct (Hsr (FBinary operator :: q) st2a) as (st2b & Hvr2 & Hor2);
        [by apply samePath_cons|congruence|].
      exists st2b. split; [|congruence].
      cbn [visit]. rewrite Hop. rewrite (bind_returned _ _ _ _ _ Hvl2).
      by rewrite (bind_returned _ _ _ _ _ Hvr2).
  - cbn [plainLiterals] in Hn. apply andb_prop in Hn as [Hc Ha].
    destruct (IHc Hc (FCall callee :: p) st1)
      as (callee1 & st1a & Hvc & Hoc & Hshape & Hsc).
    destruct (visitAll_runsOnce arguments
                (forallb_Forall_runsOnce _ IHa Ha)
                (FCall callee1 :: p) st1a)
      as (arguments1 & st1b & Hva & Hoa & Hsa).
    exists (CallExpression callee1 arguments1), st1b. split_and!.
    + cbn [visit]. rewrite (bind_returned _ _ _ _ _ Hvc).
      by rewrite (bind_returned _ _ _ _ _ Hva).
    + congruence.
    + done.
    + intros q st2 Hq Hst.
      destruct (Hsc (FCall callee1 :: q) st2) as (st2a & Hvc2 & Hoc2);
        [by apply samePath_cons|done|].
      destruct (Hsa (FCall callee1 :: q) st2a) as (st2b & Hva2 & Hoa2);
        [by apply samePath_cons|congruence|].
      exists st2b. split; [|congruence].
      cbn [visit]. rewrite (bind_returned _ _ _ _ _ Hvc2).
      by rewrite (bind_returned _ _ _ _ _ Hva2).
  - cbn [plainLiterals] in Hn. apply andb_prop in Hn as [Ho Hp].
    destruct (IHo Ho (FOther :: p) st1)
      as (object1 & st1a & Hvo & Hoo & Hshapeo & Hso).
    destruct (IHp Hp (FOther :: p) st1a)
      as (property1 & st1b & Hvp & Hop & Hshapep & Hsp).
    exists (MemberExpression object1 property1), st1b. split_and!.
    + cbn [visit]. rewrite (bind_returned _ _ _ _ _ Hvo).
      by rewrite (bind_returned _ _ _ _ _ Hvp).
    + congruence.
    + cbn [shapeOf].
      by rewrite (identifierName_shape _ _ Hshapeo),
        (identifierName_shape _ _ Hshapep).
    + intros q st2 Hq Hst.
      destruct (Hso (FOther :: q) st2) as (st2a & Hvo2 & Hoo2);
        [by apply samePath_cons|done|].
      destruct (Hsp (FOther :: q) st2a) as (st2b & Hvp2 & Hop2);
        [by apply samePath_cons|congruence|].
      exists st2b. split; [|congruence].
      cbn [visit]. rewrite (bind_returned _ _ _ _ _ Hvo2).
      by rewrite (bind_returned _ _ _ _ _ Hvp2).
  - cbn [plainLiterals] in Hn.
    destruct (visitAll_runsOnce properties
                (forallb_Forall_runsOnce _ IH Hn) (FOther :: p) st1)
      as (properties1 & st1a & Hv & Ho & Hs).
    exists (ObjectExpression properties1), st1a. split_and!; try done.
    + cbn [visit]. by rewrite (bind_returned _ _ _ _ _ Hv).
    + intros q st2 Hq Hst.
      destruct (Hs (FOther :: q) st2) as (st2a & Hv2 & Ho2);
        [by apply samePath_cons|done|].
      exists st2a. split; [|done].
      cbn [visit]. by rewrite (bind_returned _ _ _ _ _ Hv2).
  - cbn [plainLiterals] in Hn. apply andb_prop in Hn as [Hk Hv].
    destruct (IHk Hk (FPropertyKey :: p) st1)
      as (key1 & st1a & Hvk & Hok & _ & Hsk).
    destruct (IHv Hv (FOther :: p) st1a)
      as (value1 & st1b & Hvv & Hov & _ & Hsv).
    exists (Property key1 value1), st1b. split_and!.
    + cbn [visit]. rewrite (bind_returned _ _ _ _ _ Hvk).
      by rewrite (bind_returned _ _ _ _ _ Hvv).
    + congruence.
    + done.
    + intros q st2 Hq Hst.
      destruct (Hsk (FPropertyKey :: q) st2) as (st2a & Hvk2 & Hok2);
        [by apply samePath_cons|done|].
      destruct (Hsv (FOther :: q) st2a) as (st2b & Hvv2 & Hov2);
        [by apply samePath_cons|congruence|].
      exists st2b. split; [|congruence].
      cbn [visit]. rewrite (bind_returned _ _ _ _ _ Hvk2).
      by rewrite (bind_returned _ _ _ _ _ Hvv2).
  - cbn [plainLiterals] in Hn.
    destruct (visitAll_runsOnce children
                (forallb_Forall_runsOnce _ IH Hn) (FOther :: p) st1)
      as (children1 & st1a & Hv & Ho & Hs).
    exists (OtherNode type children1), st1a. split_and!; try done.
    + cbn [visit]. by rewrite (bind_returned _ _ _ _ _ Hv).
    + intros q st2 Hq Hst.
      destruct (Hs (FOther :: q) st2) as (st2a & Hv2 & Ho2);
        [by apply samePath_cons|done|].
      exists st2a. split; [|done].
      cbn [visit]. by rewrite (bind_returned _ _ _ _ _ Hv2).
Qed.

End RunTwice.




(** ** The punctuation law on every rewrite path *)

(** A replacement with a colon has the call, [+] and the colon. *)
Lemma traversePlusColon_shape p key colon (visitRest : path -> M (list node))
    st n st' :
  traversePlusColon p key colon visitRest st = (Returned n, st') ->
  exists rest,
    n = plusColon (i18nCall (StringLiteral key) rest) (StringLiteral colon).
Proof.
  unfold traversePlusColon, traverseCall, bind, visitNewLiteral.
  rewrite visitLiteral_in_i18nCall by apply isInI18nCall_i18nCallee.
  destruct (visitRest _ st) as [[rest|] st1]; [|done].
  unfold ret. rewrite visitLiteral_plus_operand. intros H. simplify_eq.
  eexists. reflexivity.
Qed.

Section PunctuationLaw.

Variable printCode : node -> jsstring.

(** A chain whose composed text ends in a colon. *)
Lemma visit_chain_colon p l r st templateText variables body c key st' :
  isInConsoleCall p = false -> isInI18nCall p = false ->
  existsb isStringPart
          (collectBinaryParts (BinaryExpression (lit "+") l r)) = true ->
  composeParts (collectBinaryParts (BinaryExpression (lit "+") l r)) [] [] =
    (templateText, variables) ->
  cleanString templateText = body ++ [c] ->
  c = asciiColon \/ c = fullwidthColon ->
  isOnlyChinese (body ++ [c]) = true ->
  getKeyForChinese body st = (Some key, st') ->
  visit printCode p false (BinaryExpression (lit "+") l r) st =
    (Returned
       (plusColon
          (i18nCall (StringLiteral key)
             match variables with
             | [] => []
             | _ => [ObjectExpression (variableProperties variables)]
             end)
          (StringLiteral [c])), st').
Proof.
  intros Hc Hi Hparts Hcompose Hclean Hcolon Hconv Hkey.
  cbn [visit]. rewrite jsEq_refl, Hc, Hi, Hparts, Hcompose, Hclean, Hconv.
  cbn [negb]. rewrite (detectColonSuffix_colon _ _ Hcolon).
  cbn [hasColonSuffix textWithoutColon colonChar].
  unfold bind, resolveKey. by rewrite Hkey.
Qed.

(** The punctuation law on the text that each rewrite path hands to
    [detectColonSuffix].  When that text ends in a colon and the text
    before the colon resolves to a key, the path produces the translation
    call on that key followed by [+] and the same colon as a literal: in
    code the string literal, the template literal without expressions
    and the concatenation chain, on their cleaned text; in markup the
    text node and the static attribute ([convertToI18n]), the bound
    literal and the templates of passes 1.5 and 5, on their cleaned text.
    The template literal with expressions is the one path that hands
    over the text as [extractTemplateVars] returns it, not cleaned: its
    conjunct holds for a text that ends in the colon before any cleaning;
    what the path does when white space follows the colon is shown after
    this law, at a concrete literal. *)
Theorem punctuation_law st body c key st' :
  c = asciiColon \/ c = fullwidthColon ->
  isOnlyChinese (body ++ [c]) = true ->
  getKeyForChinese body st = (Some key, st') ->
  (forall p value,
      cleanString value = body ++ [c] ->
      literalSkipped p false = false ->
      visit printCode p false (StringLiteral value) st =
        (Returned (plusColon (i18nCall (StringLiteral key) [])
                             (StringLiteral [c])), st')) /\
  (forall p processed quasis,
      cleanString (getTemplateString printCode quasis []) = body ++ [c] ->
      isInConsoleCall p = false -> isInI18nCall p = false ->
      visit printCode p processed (TemplateLiteral quasis []) st =
        (Returned (plusColon (i18nCall (StringLiteral key) [])
                             (StringLiteral [c])), st')) /\
  (forall p processed quasis expressions n st'',
      expressions <> [] ->
      isInConsoleCall p = false -> isInI18nCall p = false ->
      isOnlyChinese
        (cleanString (getTemplateString printCode quasis expressions)) = true ->
      text (extractTemplateVars
              (getTemplateString printCode quasis expressions)) = body ++ [c] ->
      visit printCode p processed (TemplateLiteral quasis expressions) st =
        (Returned n, st'') ->
      exists rest,
        n = plusColon (i18nCall (StringLiteral key) rest)
                      (StringLiteral [c])) /\
  (forall p l r templateText variables,
      isInConsoleCall p = false -> isInI18nCall p = false ->
      existsb isStringPart
              (collectBinaryParts (BinaryExpression (lit "+") l r)) = true ->
      composeParts (collectBinaryParts (BinaryExpression (lit "+") l r)) [] []
      = (templateText, variables) ->
      cleanString templateText = body ++ [c] ->
      visit printCode p false (BinaryExpression (lit "+") l r) st =
        (Returned
           (plusColon
              (i18nCall (StringLiteral key)
                 match variables with
                 | [] => []
                 | _ => [ObjectExpression (variableProperties variables)]
                 end)
              (StringLiteral [c])), st')) /\
  convertToI18n (body ++ [c]) (lit "template") st =
    (Some (lit "{{ $t('" ++ key ++ lit "') + " ++ [quote] ++ [c] ++ [quote]
             ++ lit " }}"), st') /\
  convertToI18n (body ++ [c]) (lit "attr") st =
    (Some (lit "$t('" ++ key ++ lit "') + '" ++ [c] ++ lit "'"), st') /\
  (forall matched attrName fullValue innerText,
      cleanString innerText = body ++ [c] ->
      jsEq (trim fullValue) ([apostrophe] ++ innerText ++ [apostrophe])
      || jsEq (trim fullValue) ([quote] ++ innerText ++ [quote]) = true ->
      convertBoundLiteral matched (attrName, fullValue, innerText) st =
        (lit ":" ++ attrName ++ lit "=" ++ [quote] ++ lit "$t('" ++ key
           ++ lit "') + '" ++ [c] ++ lit "'" ++ [quote], st')) /\
  (forall wrap matched templateContent,
      hasChinese (extractTemplateVars templateContent) = true ->
      cleanString (text (extractTemplateVars templateContent)) = body ++ [c] ->
      convertTemplateContent wrap matched templateContent st =
        (wrap (templateCall key (params (extractTemplateVars templateContent)))
              [c], st')).
Proof.
  intros Hcolon Hconv Hkey.
  pose proof (detectColonSuffix_colon body c Hcolon) as Hsuffix.
  split_and!.
  - intros p value Hclean Hskip. cbn [visit].
    rewrite visitLiteral_rewriteLeaf, Hskip. unfold rewriteLeaf.
    rewrite Hclean, Hconv, Hsuffix.
    cbn [hasColonSuffix textWithoutColon colonChar]. by rewrite Hkey.
  - intros p processed quasis Hclean Hc Hi.
    rewrite visit_template_rewriteLeaf, Hc, Hi. unfold rewriteLeaf.
    cbn [orb]. rewrite Hclean, Hconv, Hsuffix.
    cbn [hasColonSuffix textWithoutColon colonChar]. by rewrite Hkey.
  - intros p processed quasis expressions n st'' He Hc Hi Hchinese Htext Hv.
    rewrite (visit_template_resolved printCode p processed quasis expressions
               st key st' Hc Hi He Hchinese) in Hv.
    + rewrite Htext, Hsuffix in Hv.
      cbn [hasColonSuffix colonChar] in Hv.
      destruct (pairParams _ expressions); [|done].
      by apply traversePlusColon_shape in Hv.
    + rewrite Htext, Hsuffix. by cbn [hasColonSuffix textWithoutColon].
  - intros p l r templateText variables Hc Hi Hparts Hcompose Hclean.
    by eapply visit_chain_colon.
  - unfold convertToI18n. rewrite Hsuffix.
    cbn [hasColonSuffix textWithoutColon colonChar]. by rewrite Hkey.
  - unfold convertToI18n. rewrite Hsuffix.
    cbn [hasColonSuffix textWithoutColon colonChar]. by rewrite Hkey.
  - intros matched attrName fullValue innerText Hclean Hfull.
    unfold convertBoundLiteral. rewrite Hclean, Hconv, Hfull, Hsuffix.
    cbn [hasColonSuffix textWithoutColon colonChar]. by rewrite Hkey.
  - intros wrap matched templateContent Hchinese Hclean.
    unfold convertTemplateContent. rewrite Hchinese, Hclean, Hsuffix.
    cbn [hasColonSuffix textWithoutColon colonChar]. by rewrite Hkey.
Qed.

End PunctuationLaw.

Lemma punctuation_law_witness :
  visit samplePrint [] false (StringLiteral (titleText ++ [fullwidthColon]))
        titleRun =
    (Returned (plusColon (i18nCall (StringLiteral (lit "common.title")) [])
                         (StringLiteral [fullwidthColon])), titleRun).
Proof.
  destruct (punctuation_law samplePrint titleRun titleText fullwidthColon
              (lit "common.title") titleRun) as (H & _).
  - right. reflexivity.
  - vm_compute. reflexivity.
  - vm_compute. reflexivity.
  - apply H; vm_compute; reflexivity.
Defined.

(** C6.  The code at the failing input: the template literal
    [`标题${x}： `], in which a space follows the colon, with a dictionary
    that maps the body 标题{param1} to m.title.  The convertible text,
    once cleaned, ends in the colon and its body resolves to the key.
    [visitTemplateLiteral] hands the text that is not cleaned to
    [detectColonSuffix], finds no colon, looks up the whole text with the
    colon and the space, misses the entry, and builds a call whose key
    holds the colon, with nothing after the call; in skip mode it leaves
    the literal as it is.  The concatenation chain and the two markup
    passes for templates, given the same text, clean it first: they
    resolve the body to m.title and put the colon after the call. *)
Theorem colon_before_white_space :
  getTemplateString samplePrint [titleText; [fullwidthColon; 0x20]]
                    [Identifier (lit "x")] = spacedSource /\
  isOnlyChinese (cleanString spacedSource) = true /\
  cleanString (text (extractTemplateVars spacedSource)) =
    spacedBody ++ [fullwidthColon] /\
  getKeyForChinese spacedBody spacedRun = (Some (lit "m.title"), spacedRun) /\
  visit samplePrint [] false spacedTemplate spacedRun =
    (Returned (i18nCall
                 (StringLiteral (spacedBody ++ [fullwidthColon; 0x20]))
                 [spacedParams]),
     addUnmatched (spacedBody ++ [fullwidthColon; 0x20]) spacedRun) /\
  visit samplePrint [] false spacedTemplate
        (setConvertOptions true None spacedRun) =
    (Returned spacedTemplate,
     addUnmatched (spacedBody ++ [fullwidthColon; 0x20])
                  (setConvertOptions true None spacedRun)) /\
  visit samplePrint [] false spacedChain spacedRun =
    (Returned (plusColon (i18nCall (StringLiteral (lit "m.title"))
                                   [spacedParams])
                         (StringLiteral [fullwidthColon])),
     spacedRun) /\
  convertBoundTemplate (lit "matched") (lit "title", spacedSource) spacedRun =
    (lit ":title=" ++ [quote] ++ lit "$t('m.title', { param1: x }) + '"
       ++ [fullwidthColon] ++ lit "'" ++ [quote],
     spacedRun) /\
  convertInterpolatedTemplate (lit "matched") spacedSource spacedRun =
    (lit "{{ $t('m.title', { param1: x }) + '" ++ [fullwidthColon]
       ++ lit "' }}",
     spacedRun).
Proof. split_and!; vm_compute; reflexivity. Qed.

(** ** Bounds of the scans

    The scans of a text are bounded by its length: every match leaves a
    shorter rest, so a larger bound gives the same result. *)

Lemma untilBrace_shorter s e rest :
  untilBrace s = Some (e, rest) -> (length rest < length s)%nat.
Proof.
  revert e rest. induction s as [|c s IH]; intros e rest H; [done|].
  cbn in H. destruct (c =? rbrace).
  - simplify_eq. cbn. lia.
  - destruct (untilBrace s) as [[e' rest']|]; simplify_eq.
    specialize (IH _ _ eq_refl). cbn. lia.
Qed.

Lemma matchVar_shorter s e rest :
  matchVar s = Some (e, rest) -> (length rest < length s)%nat.
Proof.
  unfold matchVar. intros H. repeat case_match; simplify_eq.
  all: match goal with
       | H : untilBrace _ = Some _ |- _ => apply untilBrace_shorter in H
       end; cbn; lia.
Qed.

Lemma scanVars_bound fuel1 :
  forall fuel2 s,
    (length s < fuel1)%nat -> (length s < fuel2)%nat ->
    scanVars fuel1 s = scanVars fuel2 s.
Proof.
  induction fuel1 as [|fuel1 IH]; intros fuel2 s H1 H2; [lia|].
  destruct fuel2 as [|fuel2]; [lia|]. cbn [scanVars].
  destruct s as [|c s]; [done|].
  destruct (matchVar (c :: s)) as [[e rest]|] eqn:Hm.
  - apply matchVar_shorter in Hm. f_equal. apply IH; cbn in *; lia.
  - f_equal. apply IH; cbn in *; lia.
Qed.

(** [extractTemplateVars] does not depend on the bound of its scan. *)
Lemma pieces_bound fuel template :
  (length template < fuel)%nat -> scanVars fuel template = pieces template.
Proof. intros H. unfold pieces. apply scanVars_bound; lia. Qed.

Lemma expect_length p s rest :
  expect p s = Some rest -> (length rest = length s - length p)%nat.
Proof.
  unfold expect. intros H. case_match; simplify_eq. apply length_drop.
Qed.

Lemma startsWith_length p s :
  startsWith p s = true -> (length p <= length s)%nat.
Proof.
  revert s. induction p as [|a p IH]; intros [|b s] H; cbn in *;
    try done; try lia.
  apply andb_prop in H as [_ H]. specialize (IH _ H). lia.
Qed.

Lemma expect_shorter p s rest :
  p <> [] -> expect p s = Some rest -> (length rest < length s)%nat.
Proof.
  intros Hp H. pose proof (expect_length _ _ _ H) as Hl.
  unfold expect in H. case_match eqn:Hs; simplify_eq.
  apply startsWith_length in Hs. destruct p; [done|]. cbn in *. lia.
Qed.

Lemma takeWhile_length cls s taken rest :
  takeWhile cls s = (taken, rest) ->
  (length taken + length rest = length s)%nat.
Proof.
  revert taken rest. induction s as [|c s IH]; intros taken rest H; cbn in H.
  - by simplify_eq.
  - destruct (cls c); [|by simplify_eq].
    destruct (takeWhile cls s) as [taken' rest']. simplify_eq.
    specialize (IH _ _ eq_refl). cbn. lia.
Qed.

Lemma takeSome_shorter cls s taken rest :
  takeSome cls s = Some (taken, rest) -> (length rest < length s)%nat.
Proof.
  unfold takeSome. intros H.
  destruct (takeWhile cls s) as [taken' rest'] eqn:Ht.
  apply takeWhile_length in Ht. destruct taken'; simplify_eq. cbn in *. lia.
Qed.

Lemma oneOf_shorter cls s c rest :
  oneOf cls s = Some (c, rest) -> (length rest < length s)%nat.
Proof.
  unfold oneOf. intros H. repeat case_match; simplify_eq. cbn. lia.
Qed.

Lemma untilLit_length p s before rest :
  untilLit p s = Some (before, rest) -> (length rest <= length s)%nat.
Proof.
  revert before rest. induction s as [|c s IH]; intros before rest H;
    cbn [untilLit] in H.
  - destruct (expect p []) eqn:He; simplify_eq.
    apply expect_length in He. cbn in *. lia.
  - destruct (expect p (c :: s)) eqn:He.
    + simplify_eq. apply expect_length in He. cbn in *. lia.
    + destruct (untilLit p s) as [[before' rest']|]; simplify_eq.
      specialize (IH _ _ eq_refl). cbn. lia.
Qed.

Ltac scan_lengths :=
  repeat match goal with
         | H : expect _ _ = Some _ |- _ => apply expect_length in H
         | H : takeWhile _ _ = (_, _) |- _ => apply takeWhile_length in H
         | H : takeSome _ _ = Some _ |- _ => apply takeSome_shorter in H
         | H : oneOf _ _ = Some _ |- _ => apply oneOf_shorter in H
         | H : untilLit _ _ = Some _ |- _ => apply untilLit_length in H
         end.

Lemma matchTextNode_progress : makesProgress matchTextNode.
Proof.
  intros s groups rest H. unfold matchTextNode in H.
  repeat case_match; simplify_eq. scan_lengths. cbn in *. lia.
Qed.

Lemma matchInterpolation_progress : makesProgress matchInterpolation.
Proof.
  intros s groups rest H. unfold matchInterpolation in H.
  repeat case_match; simplify_eq.
  match goal with
  | H : expect (lit "{{") _ = Some _ |- _ =>
    apply expect_shorter in H; [|done]
  end.
  scan_lengths. lia.
Qed.

Lemma matchComment_progress : makesProgress matchComment.
Proof.
  intros s groups rest H. unfold matchComment in H.
  repeat case_match; simplify_eq.
  match goal with
  | H : expect (lit "<!--") _ = Some _ |- _ =>
    apply expect_shorter in H; [|done]
  end.
  scan_lengths. lia.
Qed.

Lemma matchStaticAttribute_progress : makesProgress matchStaticAttribute.
Proof.
  intros s groups rest H. unfold matchStaticAttribute in H.
  repeat case_match; simplify_eq. scan_lengths. lia.
Qed.

Lemma matchInterpolatedString_progress :
  makesProgress matchInterpolatedString.
Proof.
  intros s groups rest H. unfold matchInterpolatedString in H.
  repeat case_match; simplify_eq. scan_lengths. lia.
Qed.

Lemma matchInterpolatedTemplate_progress :
  makesProgress matchInterpolatedTemplate.
Proof.
  intros s groups rest H. unfold matchInterpolatedTemplate in H.
  repeat case_match; simplify_eq.
  match goal with
  | H : expect (lit "{{") _ = Some _ |- _ =>
    apply expect_shorter in H; [|done]
  end.
  scan_lengths. lia.
Qed.

Lemma matchBoundLiteral_progress : makesProgress matchBoundLiteral.
Proof.
  intros s groups rest H. unfold matchBoundLiteral in H.
  repeat case_match; simplify_eq. scan_lengths. lia.
Qed.

Lemma matchBoundTemplate_progress : makesProgress matchBoundTemplate.
Proof.
  intros s groups rest H. unfold matchBoundTemplate in H.
  repeat case_match; simplify_eq. scan_lengths. lia.
Qed.

Lemma matchPlaceholder_progress : makesProgress matchPlaceholder.
Proof.
  intros s groups rest H. unfold matchPlaceholder in H.
  repeat case_match; simplify_eq. scan_lengths. lia.
Qed.

(** With a pattern that makes progress, [replace] does not depend on the
    bound of its scan. *)
Lemma replaceAll_bound {G S : Type}
    (matchAt : jsstring -> option (G * jsstring))
    (callback : jsstring -> G -> S -> jsstring * S) :
  makesProgress matchAt ->
  forall fuel1 fuel2 s st,
    (length s < fuel1)%nat -> (length s < fuel2)%nat ->
    replaceAll fuel1 matchAt callback s st =
    replaceAll fuel2 matchAt callback s st.
Proof.
  intros Hp. induction fuel1 as [|fuel1 IH]; intros fuel2 s st H1 H2; [lia|].
  destruct fuel2 as [|fuel2]; [lia|]. cbn [replaceAll].
  destruct (matchAt s) as [[groups rest]|] eqn:Hm.
  - apply Hp in Hm.
    destruct (callback (matchedText s rest) groups st) as [replacement st1].
    rewrite (IH fuel2 rest st1); [done|lia|lia].
  - destruct s as [|c s]; [done|].
    rewrite (IH fuel2 s st); [done|cbn in *; lia|cbn in *; lia].
Qed.

Lemma replace_bound {G S : Type}
    (matchAt : jsstring -> option (G * jsstring))
    (callback : jsstring -> G -> S -> jsstring * S) fuel s st :
  makesProgress matchAt ->
  (length s < fuel)%nat ->
  replaceAll fuel matchAt callback s st = replace matchAt callback s st.
Proof.
  intros Hp H. unfold replace. apply replaceAll_bound; [done|lia|lia].
Qed.

(** The literals of a replacement are never converted again, so
    [visitLiteral] does not depend on the bound of its revisits. *)
Lemma visitLiteral_bound fuel1 fuel2 p processed value st :
  visitLiteral fuel1 p processed value st =
  visitLiteral fuel2 p processed value st.
Proof. by rewrite !visitLiteral_rewriteLeaf. Qed.

(** * Further properties of the code *)

(** ** The text classifier *)

Lemma trimStart_startsNonWhite s : startsNonWhite (trimStart s).
Proof.
  induction s as [|c s IH]; [done|]. cbn.
  by destruct (isWhiteSpace c) eqn:Hc.
Qed.

Lemma trimStart_fixed s : startsNonWhite s -> trimStart s = s.
Proof. destruct s as [|c s]; [done|]. cbn. by intros ->. Qed.

Lemma trimStart_snoc s c :
  isWhiteSpace c = false -> trimStart (s ++ [c]) = trimStart s ++ [c].
Proof.
  intros Hc. induction s as [|d s IH]; cbn.
  - by rewrite Hc.
  - by destruct (isWhiteSpace d).
Qed.

Lemma trimEnd_startsNonWhite s : startsNonWhite s -> startsNonWhite (trimEnd s).
Proof.
  destruct s as [|c s]; [done|]. cbn [startsNonWhite]. intros Hc.
  unfold trimEnd. cbn [rev]. rewrite (trimStart_snoc _ _ Hc).
  rewrite rev_app_distr. exact Hc.
Qed.

Lemma trimEnd_idempotent s : trimEnd (trimEnd s) = trimEnd s.
Proof.
  unfold trimEnd. rewrite rev_involutive.
  by rewrite (trimStart_fixed _ (trimStart_startsNonWhite _)).
Qed.

Lemma trim_idempotent s : trim (trim s) = trim s.
Proof.
  unfold trim.
  rewrite (trimStart_fixed (trimEnd (trimStart s))).
  - apply trimEnd_idempotent.
  - apply trimEnd_startsNonWhite, trimStart_startsNonWhite.
Qed.

Lemma trim_nil : trim [] = [].
Proof. reflexivity. Qed.

(** X1.  [isOnlyChinese] accepts a string iff it contains a character of
    U+4E00..U+9FA5, whatever else it contains; a string of digits, an
    empty string and a string of white space are refused. *)
Theorem isOnlyChinese_contains s :
  (isOnlyChinese s = true <-> exists c, c ∈ s /\ 0x4E00 <= c <= 0x9FA5) /\
  (forallb isDigit s = true -> isOnlyChinese s = false) /\
  (forallb isWhiteSpace s = true -> isOnlyChinese s = false).
Proof.
  rewrite isOnlyChinese_spec. split_and!.
  - rewrite existsb_exists. split.
    + intros (c & Hin & Hc). exists c. split; [by apply list_elem_of_In|].
      unfold isChineseChar in Hc. apply andb_prop in Hc as [H1 H2].
      apply N.leb_le in H1, H2. lia.
    + intros (c & Hin & Hc). exists c. split; [by apply list_elem_of_In|].
      unfold isChineseChar. apply andb_true_intro.
      split; apply N.leb_le; lia.
  - intros Hd. destruct (existsb isChineseChar s) eqn:He; [|done].
    by rewrite (chinese_not_digits _ He) in Hd.
  - intros Hw. apply not_true_is_false. intros He.
    apply existsb_exists in He as (c & Hin & Hc).
    rewrite forallb_forall in Hw.
    by rewrite (isWhiteSpace_not_chinese c (Hw c Hin)) in Hc.
Qed.

(** X2.  Cleaning is idempotent, and classification does not depend on
    whether its argument was cleaned: every rewrite path that cleans
    before or after classifying takes the same decision. *)
Theorem cleanString_idempotent s :
  cleanString (cleanString s) = cleanString s /\
  isOnlyChinese (cleanString s) = isOnlyChinese s /\
  startsNonWhite (cleanString s) /\
  startsNonWhite (rev (cleanString s)).
Proof.
  rewrite !cleanString_trim. split_and!.
  - apply trim_idempotent.
  - by rewrite !isOnlyChinese_spec, existsb_chinese_trim.
  - apply trimEnd_startsNonWhite, trimStart_startsNonWhite.
  - unfold trim, trimEnd. rewrite rev_involutive.
    apply trimStart_startsNonWhite.
Qed.

Lemma endsWith_split c s :
  endsWith [c] s = true -> s = sliceInit s ++ [c].
Proof.
  unfold endsWith, sliceInit. intros H.
  destruct (rev s) as [|d r] eqn:Hr; [done|].
  cbn in H. apply andb_prop in H as [H _]. apply N.eqb_eq in H. subst d.
  assert (s = rev r ++ [c]) as ->.
  { rewrite <- (rev_involutive s), Hr. reflexivity. }
  by rewrite removelast_last.
Qed.

(** X3.  Splitting off the trailing colon loses nothing: the text
    without the colon followed by the recorded colon is the original
    string.  A colon is reported iff the string ends in the ASCII or the
    full-width colon, and then exactly that one character is recorded. *)
Theorem detectColonSuffix_restores str :
  textWithoutColon (detectColonSuffix str) ++ colonChar (detectColonSuffix str)
  = str /\
  (hasColonSuffix (detectColonSuffix str) = true <->
   exists body c, str = body ++ [c] /\ (c = asciiColon \/ c = fullwidthColon)) /\
  (hasColonSuffix (detectColonSuffix str) = false ->
   colonChar (detectColonSuffix str) = [] /\
   textWithoutColon (detectColonSuffix str) = str).
Proof.
  split_and!.
  - unfold detectColonSuffix. destruct str as [|c s]; [done|].
    destruct (endsWith [fullwidthColon] (c :: s)) eqn:H1.
    { cbn [textWithoutColon colonChar]. symmetry. by apply endsWith_split. }
    destruct (endsWith [asciiColon] (c :: s)) eqn:H2.
    { cbn [textWithoutColon colonChar]. symmetry. by apply endsWith_split. }
    cbn [textWithoutColon colonChar]. apply app_nil_r.
  - split.
    + unfold detectColonSuffix. destruct str as [|c s]; [done|].
      destruct (endsWith [fullwidthColon] (c :: s)) eqn:H1.
      { intros _. exists (sliceInit (c :: s)), fullwidthColon.
        split; [by apply endsWith_split|by right]. }
      destruct (endsWith [asciiColon] (c :: s)) eqn:H2; [|done].
      intros _. exists (sliceInit (c :: s)), asciiColon.
      split; [by apply endsWith_split|by left].
    + intros (body & c & -> & Hc).
      by rewrite (detectColonSuffix_colon _ _ Hc).
  - intros H. unfold detectColonSuffix in *. by repeat case_match.
Qed.

(** ** Interpolation variables *)

Lemma substVars_params k ps :
  map name (substVars k ps).2 = map paramName (seq k (length (capturesOf ps)))
  /\ map expr (substVars k ps).2 = map trim (capturesOf ps).
Proof.
  revert k. induction ps as [|[c|e] ps IH]; intros k; cbn; [done| |].
  - specialize (IH k). by destruct (substVars k ps).
  - specialize (IH (S k)). destruct (substVars (S k) ps) as [text params].
    cbn in *. destruct IH as [-> ->]. done.
Qed.

Lemma scanVars_no_marker fuel s :
  includes (lit "${") s = false ->
  scanVars fuel s = map PUnit (take fuel s).
Proof.
  revert s. induction fuel as [|fuel IH]; intros s Hs; [done|].
  destruct s as [|c s]; [done|]. cbn [scanVars take map].
  cbn [includes] in Hs. apply orb_false_elim in Hs as [Hhead Htail].
  assert (matchVar (c :: s) = None) as ->.
  { unfold matchVar. destruct s as [|d s]; [done|].
    change (lit "${") with [dollar; lbrace] in Hhead.
    cbn [startsWith] in Hhead.
    rewrite andb_true_r, (N.eqb_sym dollar c), (N.eqb_sym lbrace d) in Hhead.
    by rewrite Hhead. }
  by rewrite (IH s Htail).
Qed.

Lemma substVars_units k s : substVars k (map PUnit s) = (s, []).
Proof.
  induction s as [|c s IH]; [done|]. cbn. by rewrite IH.
Qed.

(** X4.  [extractTemplateVars] names the parameters param1, param2, ...
    in order of appearance, one for each match, and records for each the
    trimmed source of its expression.  A template without an
    interpolation marker is returned as it is, without parameters. *)
Theorem extractTemplateVars_params template :
  let vars := extractTemplateVars template in
  let captures := capturesOf (pieces template) in
  map name (params vars) = map paramName (seq 1 (length captures)) /\
  map expr (params vars) = map trim captures /\
  length (params vars) = length captures /\
  (includes (lit "${") template = false ->
   text vars = template /\ params vars = []).
Proof.
  cbn zeta. unfold extractTemplateVars.
  pose proof (substVars_params 1 (pieces template)) as [Hn He].
  destruct (substVars 1 (pieces template)) as [text0 params0] eqn:Hs.
  cbn [params text snd] in *. split_and!; [done|done| |].
  - by rewrite <- (length_map name), Hn, length_map, length_seq.
  - intros Hm. unfold pieces in Hs.
    rewrite (scanVars_no_marker _ _ Hm), firstn_all2 in Hs by lia.
    rewrite substVars_units in Hs. by simplify_eq.
Qed.

(** ** Concatenation chains *)

Lemma composeParts_variables parts :
  forall templateText variables,
    map vname (composeParts parts templateText variables).2 =
      map vname variables ++
      map paramName (seq (S (length variables)) (length (holesOf parts))) /\
    map expression (composeParts parts templateText variables).2 =
      map expression variables ++ holesOf parts.
Proof.
  induction parts as [|[value|n] parts IH]; intros templateText variables.
  - cbn. by rewrite !app_nil_r.
  - cbn [composeParts holesOf]. apply IH.
  - cbn [composeParts holesOf]. cbn zeta.
    destruct (IH (templateText ++ [lbrace]
                    ++ paramName (length variables + 1) ++ [rbrace])
                 (variables ++
                    [{| vname := paramName (length variables + 1);
                        expression := n |}])) as [Hn He].
    rewrite Hn, He, !map_app, length_app. cbn.
    rewrite <- !app_assoc. cbn.
    by replace (length variables + 1)%nat with (S (length variables)) by lia.
Qed.

Lemma collectBinaryParts_hasString n :
  existsb isStringPart (collectBinaryParts n) = containsStringLiteral n.
Proof.
  induction n as [name|value|raw|quasis expressions IH|operator l r IHl IHr
                 |callee arguments IHc IHa|object property IHo IHp
                 |properties IH|key value IHk IHv|type children IH]
    using node_forall_ind; try done.
  cbn [collectBinaryParts containsStringLiteral].
  destruct (jsEq operator (lit "+")); [|done].
  destruct (containsStringLiteral l || containsStringLiteral r) eqn:Hc;
    [|done].
  by rewrite existsb_app, IHl, IHr.
Qed.

(** X5.  The parts collected from a chain contain a string part iff
    [containsStringLiteral] accepts the chain, and the variables composed
    from them are named param1, param2, ... in encounter order, each with
    the expression of its part, unchanged. *)
Theorem chain_parts_and_variables n :
  let parts := collectBinaryParts n in
  let variables := (composeParts parts [] []).2 in
  existsb isStringPart parts = containsStringLiteral n /\
  map vname variables = map paramName (seq 1 (length (holesOf parts))) /\
  map expression variables = holesOf parts.
Proof.
  cbn zeta. split; [apply collectBinaryParts_hasString|].
  apply (composeParts_variables (collectBinaryParts n) [] []).
Qed.

(** ** The dictionary index *)

(** Induction on a dictionary value, with the hypothesis for every field
    of an object. *)
Lemma jsvalue_forall_ind (P : jsvalue -> Prop) :
  (forall fields, Forall (fun field => P field.2) fields -> P (VObject fields)) ->
  (forall s, P (VString s)) ->
  (forall elements, P (VArray elements)) ->
  (forall truthy, P (VOther truthy)) ->
  forall value, P value.
Proof.
  intros HObj HStr HArr HOther. fix IH 1. intros value.
  destruct value as [fields|s|elements|truthy].
  - apply HObj. induction fields as [|[key value] fields IHf];
      constructor; [apply IH|apply IHf].
  - apply HStr.
  - apply HArr.
  - apply HOther.
Qed.

(** Flattening adds the leaves one after the other. *)
Lemma flattenValue_leaves value :
  forall fullKey result,
    flattenValue value fullKey result =
      fold_left (fun m leaf => addKey leaf.2 leaf.1 m)
                (leavesOfValue value fullKey) result.
Proof.
  induction value as [fields IH|s|elements|truthy] using jsvalue_forall_ind;
    intros fullKey result; [|done|done|done].
  cbn [flattenValue leavesOfValue]. revert result.
  induction IH as [|[key value] fields Hv _ IHf]; intros result; [done|].
  rewrite fold_left_app, <- Hv. apply IHf.
Qed.

Lemma flattenI18nObject_leaves obj prefix :
  forall result,
    flattenI18nObject obj prefix result =
      fold_left (fun m leaf => addKey leaf.2 leaf.1 m)
                (leavesOf obj prefix) result.
Proof.
  induction obj as [|[key value] obj IH]; intros result; [done|].
  cbn [flattenI18nObject leavesOf].
  by rewrite fold_left_app, <- flattenValue_leaves, IH.
Qed.

Lemma entryKeys_groupOf keys : entryKeys (groupOf keys) = keys.
Proof. by destruct keys as [|key [|key' keys]]. Qed.

(** One more leaf: its key joins the keys of its text, and no other entry
    changes. *)
Lemma addKey_lookup value fullKey result chineseText keys :
  Forall (fun key => key <> []) keys ->
  result !! chineseText = groupOf keys ->
  addKey value fullKey result !! chineseText =
    groupOf (if jsEq (textOf value) chineseText
             then keys ++ [fullKey] else keys).
Proof.
  intros Hne Hm. unfold addKey, jsEq. fold (textOf value).
  destruct (decide (textOf value = chineseText)) as [->|Hother].
  - rewrite bool_decide_eq_true_2 by done. unfold existingOf. rewrite Hm.
    destruct keys as [|key [|key' keys]]; cbn.
    + by rewrite lookup_insert_eq.
    + apply Forall_cons in Hne as [Hkey _].
      destruct key; [done|]. by rewrite lookup_insert_eq.
    + by rewrite lookup_insert_eq.
  - rewrite bool_decide_eq_false_2 by done.
    rewrite <- Hm. by repeat case_match; rewrite lookup_insert_ne.
Qed.

Lemma addLeaves_lookup leaves : forall result chineseText keys,
  Forall (fun leaf => leaf.1 <> []) leaves ->
  Forall (fun key => key <> []) keys ->
  result !! chineseText = groupOf keys ->
  fold_left (fun m leaf => addKey leaf.2 leaf.1 m) leaves result !! chineseText =
    groupOf (keys ++ keysFor chineseText leaves).
Proof.
  induction leaves as [|[fullKey value] leaves IH];
    intros result chineseText keys Hleaves Hkeys Hm.
  - cbn. by rewrite app_nil_r.
  - apply Forall_cons in Hleaves as [Hk Hleaves]. cbn [fold_left].
    unfold keysFor. cbn [List.filter fst snd].
    pose proof (addKey_lookup value fullKey result chineseText keys Hkeys Hm)
      as Hstep.
    destruct (jsEq (textOf value) chineseText).
    + assert (Forall (fun key => key <> []) (keys ++ [fullKey])) as Hkeys'.
      { apply Forall_app. split; [done|]. by constructor. }
      rewrite (IH _ _ _ Hleaves Hkeys' Hstep). cbn. by rewrite <- app_assoc.
    + by rewrite (IH _ _ _ Hleaves Hkeys Hstep).
Qed.

(** X6. [flattenI18nObject] indexes every string leaf of the dictionary
    under its value without a trailing colon: when no full key is the
    empty string, the entry of a text holds the full keys of exactly the
    leaves with that text, in the order of the dictionary; it is a single
    key when there is one such leaf, an array when there are several, and
    absent when there is none. *)
Theorem flattenI18nObject_index zhData chineseText :
  Forall (fun leaf => leaf.1 <> []) (leavesOf zhData []) ->
  flattenI18nObject zhData [] ∅ !! chineseText =
    groupOf (keysFor chineseText (leavesOf zhData [])) /\
  entryKeys (flattenI18nObject zhData [] ∅ !! chineseText) =
    keysFor chineseText (leavesOf zhData []) /\
  (forall fullKey,
      fullKey ∈ entryKeys (flattenI18nObject zhData [] ∅ !! chineseText) <->
      exists value, (fullKey, value) ∈ leavesOf zhData [] /\
                    textOf value = chineseText).
Proof.
  intros Hne.
  assert (flattenI18nObject zhData [] ∅ !! chineseText =
          groupOf (keysFor chineseText (leavesOf zhData []))) as Hindex.
  { rewrite flattenI18nObject_leaves.
    by rewrite (addLeaves_lookup _ ∅ chineseText [] Hne). }
  split_and!; [done|by rewrite Hindex, entryKeys_groupOf|].
  intros fullKey. rewrite Hindex, entryKeys_groupOf. unfold keysFor.
  rewrite list_elem_of_fmap. split.
  - intros [[key value] [-> Hin]]. apply list_elem_of_In, filter_In in Hin.
    destruct Hin as [Hin Heq]. apply bool_decide_eq_true in Heq.
    exists value. split; [by apply list_elem_of_In|done].
  - intros [value [Hin Heq]]. exists (fullKey, value). split; [done|].
    apply list_elem_of_In, filter_In. split; [by apply list_elem_of_In|].
    by apply bool_decide_eq_true.
Qed.

Lemma flattenI18nObject_lookup zhData chineseText :
  Forall (fun leaf => leaf.1 <> []) (leavesOf zhData []) ->
  flattenI18nObject zhData [] ∅ !! chineseText =
    groupOf (keysFor chineseText (leavesOf zhData [])).
Proof.
  intros Hne. rewrite flattenI18nObject_leaves.
  by rewrite (addLeaves_lookup _ ∅ chineseText [] Hne).
Qed.

Lemma keysFor_elem fullKey chineseText leaves :
  fullKey ∈ keysFor chineseText leaves <->
  exists value, (fullKey, value) ∈ leaves /\ textOf value = chineseText.
Proof.
  unfold keysFor. rewrite list_elem_of_fmap. split.
  - intros [[key value] [-> Hin]]. apply list_elem_of_In, filter_In in Hin.
    destruct Hin as [Hin Heq]. apply bool_decide_eq_true in Heq.
    exists value. split; [by apply list_elem_of_In|done].
  - intros [value [Hin Heq]]. exists (fullKey, value). split; [done|].
    apply list_elem_of_In, filter_In. split; [by apply list_elem_of_In|].
    by apply bool_decide_eq_true.
Qed.

(** ** The outcome of a resolution *)

Lemma selectByPriority_elem scope first others :
  selectByPriority scope first others ∈ first :: others.
Proof.
  unfold selectByPriority, keysOf.
  repeat case_match;
    try (apply list_elem_of_In;
         match goal with H : find _ _ = Some _ |- _ =>
           apply find_some in H; tauto end);
    apply list_elem_of_here.
Qed.

(** A resolution either finds a key of the entry that passes the scope
    rule, and leaves the state alone, or misses. *)
Lemma getKeyForChinese_cases chineseText st :
  (exists key,
      getKeyForChinese chineseText st = (Some key, st) /\
      key ∈ entryKeys (i18nMap st !! chineseText) /\
      isKeyPathMatched key st = true) \/
  (getKeyForChinese chineseText st =
     (if skipUnmatched st then None else Some chineseText,
      addUnmatched chineseText st) /\
   hasUsableKey st chineseText = false).
Proof.
  destruct (hasUsableKey st chineseText) eqn:Husable.
  - left. unfold hasUsableKey in Husable.
    destruct (i18nMap st !! chineseText) as [[key|first others]|] eqn:Hm;
      [| |done].
    + exists key. split_and!; [by apply getKeyForChinese_single| |done].
      cbn. apply list_elem_of_here.
    + exists (selectByPriority (activePath st) first others).
      split_and!; [|apply selectByPriority_elem|done].
      rewrite (getKeyForChinese_multi _ _ _ _ Hm). cbn. by rewrite Husable.
  - right. split; [|done].
    rewrite getKeyForChinese_unusable by done. apply unmatched_eq.
Qed.

Lemma flattenI18nObject_index_witness :
  flattenI18nObject dictPdaOther [] ∅ !! wenben =
    Some (Multi (lit "pda.a") [lit "other.a"]).
Proof.
  destruct (flattenI18nObject_index dictPdaOther wenben) as (H & _).
  - vm_compute. repeat constructor; discriminate.
  - exact H.
Defined.

(** X7. What [getKeyForChinese] answers, in every state: a key other than
    the text itself is one of the keys of the entry of the text, passes
    [isKeyPathMatched], and comes with the state unchanged; otherwise the
    text has been added to the unmatched texts, and the answer is [null]
    exactly in skip mode and the text itself otherwise.  The dictionary
    and the options never change, and no recorded text is lost. *)
Theorem getKeyForChinese_outcome chineseText st :
  let result := getKeyForChinese chineseText st in
  (result.2 = st /\
   exists key, result.1 = Some key /\
               key ∈ entryKeys (i18nMap st !! chineseText) /\
               isKeyPathMatched key st = true) \/
  (result.2 = addUnmatched chineseText st /\
   chineseText ∈ unmatchedTexts result.2 /\
   result.1 = if skipUnmatched st then None else Some chineseText).
Proof.
  cbn zeta.
  destruct (getKeyForChinese_cases chineseText st)
    as [(key & -> & Hin & Hscope)|[-> _]].
  - left. split; [done|]. by exists key.
  - right. split_and!; [done| |done]. cbn. apply elem_of_setAdd.
Qed.

(** X8. After [loadI18nMap] the index is that of the pack with its
    [default] wrapper taken off: the value of the field [default] when
    the exported object has one that is truthy, and the exported object
    itself otherwise.  With no path to match and no empty full key in
    that pack: a text that is the value of some string leaf of the pack,
    up to a trailing colon, resolves to the full key of a leaf with that
    text and nothing is recorded; any other text is a miss, recorded and
    answered by [null] in skip mode and by the text itself otherwise. *)
Theorem loaded_dictionary_resolves zhData st0 chineseText :
  let pack := unwrapDefault zhData in
  Forall (fun leaf => leaf.1 <> []) (leavesOf pack []) ->
  activePath st0 = None ->
  let st := loadI18nMap zhData st0 in
  ((exists leaf, leaf ∈ leavesOf pack [] /\ textOf leaf.2 = chineseText) ->
   exists key value,
     getKeyForChinese chineseText st = (Some key, st) /\
     (key, value) ∈ leavesOf pack [] /\ textOf value = chineseText) /\
  ((forall leaf, leaf ∈ leavesOf pack [] -> textOf leaf.2 <> chineseText) ->
   getKeyForChinese chineseText st =
     (if skipUnmatched st0 then None else Some chineseText,
      addUnmatched chineseText st)) /\
  (fieldOf (lit "default") zhData = None -> pack = zhData) /\
  (forall value,
      fieldOf (lit "default") zhData = Some value ->
      pack = if isTruthy value then enumerate value else zhData).
Proof.
  intros pack Hne Hscope st.
  assert (i18nMap st !! chineseText =
          groupOf (keysFor chineseText (leavesOf pack []))) as Hm
    by apply (flattenI18nObject_lookup _ _ Hne).
  split_and!.
  - intros [[fullKey value] [Hin Htext]].
    destruct (getKeyForChinese_cases chineseText st)
      as [(key & Hkey & Hentry & _)|[_ Husable]].
    + rewrite Hm, entryKeys_groupOf in Hentry.
      apply keysFor_elem in Hentry as [value' [Hin' Htext']].
      by exists key, value'.
    + exfalso. unfold hasUsableKey in Husable. rewrite Hm in Husable.
      assert (fullKey ∈ keysFor chineseText (leavesOf pack [])) as Hk
        by (apply keysFor_elem; by exists value).
      destruct (keysFor chineseText (leavesOf pack [])) as [|k [|k' ks]];
        [by apply elem_of_nil in Hk| |];
        cbn in Husable; by rewrite isKeyPathMatched_unset in Husable.
  - intros Hnone. rewrite getKeyForChinese_absent; [by rewrite unmatched_eq|].
    rewrite Hm.
    destruct (keysFor chineseText (leavesOf pack [])) as [|k ks] eqn:Hk;
      [done|].
    assert (k ∈ keysFor chineseText (leavesOf pack [])) as Hin
      by (rewrite Hk; apply list_elem_of_here).
    apply keysFor_elem in Hin as [value [Hin Htext]].
    by destruct (Hnone _ Hin).
  - unfold pack, unwrapDefault. by intros ->.
  - intros value Hdefault. unfold pack, unwrapDefault. by rewrite Hdefault.
Qed.

Lemma loaded_dictionary_resolves_witness :
  getKeyForChinese wenben (loadI18nMap wrappedPack initialState) =
    (Some (lit "a"), loadI18nMap wrappedPack initialState) /\
  getKeyForChinese deleteText (loadI18nMap wrappedPack initialState) =
    (Some deleteText,
     addUnmatched deleteText (loadI18nMap wrappedPack initialState)).
Proof.
  split.
  - destruct (loaded_dictionary_resolves wrappedPack initialState wenben)
      as (H & _).
    + vm_compute. repeat constructor; discriminate.
    + vm_compute. reflexivity.
    + destruct H as (key & value & Hkey & Hin & _).
      * exists (lit "a", wenben). split; vm_compute;
          [apply list_elem_of_here|reflexivity].
      * rewrite Hkey. vm_compute in Hin.
        apply list_elem_of_singleton in Hin. by simplify_eq.
  - destruct (loaded_dictionary_resolves wrappedPack initialState deleteText)
      as (_ & H & _).
    + vm_compute. repeat constructor; discriminate.
    + vm_compute. reflexivity.
    + apply H. intros leaf Hin. vm_compute in Hin.
      apply list_elem_of_singleton in Hin. subst leaf. vm_compute. discriminate.
Defined.

(** ** What a run does to the state *)

Section Invariant.

(** A property of the state that every resolution keeps. *)
Variable I : state -> Prop.
Hypothesis I_resolution :
  forall chineseText st, I st -> I (getKeyForChinese chineseText st).2.

Lemma keeps_ret {A} (a : A) : keeps I (ret a).
Proof. by intros st. Qed.

Lemma keeps_throw {A} : keeps I (@throw A).
Proof. by intros st. Qed.

Lemma keeps_bind {A B} (m : M A) (k : A -> M B) :
  keeps I m -> (forall a, keeps I (k a)) -> keeps I (bind m k).
Proof.
  intros Hm Hk st Hst. unfold bind. specialize (Hm st Hst).
  destruct (m st) as [[a|] st']; [by apply Hk|done].
Qed.

Lemma keeps_resolveKey chineseText : keeps I (resolveKey chineseText).
Proof.
  intros st Hst. unfold resolveKey.
  specialize (I_resolution chineseText st Hst).
  by destruct (getKeyForChinese chineseText st).
Qed.

Lemma visitLiteral_keeps fuel :
  forall p processed value st,
    I st -> I (visitLiteral fuel p processed value st).2.
Proof.
  induction fuel as [|fuel IH]; intros p processed value st Hst;
    cbn [visitLiteral]; repeat case_match; simplify_eq; try done;
    repeat match goal with
           | H : getKeyForChinese ?t ?s = (_, ?s') |- _ =>
             assert (I s') by
               (replace s' with (getKeyForChinese t s).2 by (by rewrite H);
                by apply I_resolution);
             clear H
           | H : visitLiteral fuel ?q ?b ?v ?s = (_, ?s') |- _ =>
             assert (I s') by
               (replace s' with (visitLiteral fuel q b v s).2
                  by (by rewrite H);
                by apply IH);
             clear H
           end; done.
Qed.

Lemma keeps_visitAll (f : node -> M node) l :
  Forall (fun n => keeps I (f n)) l -> keeps I (visitAll f l).
Proof.
  induction 1 as [|n l Hn _ IH]; cbn [visitAll]; [apply keeps_ret|].
  apply keeps_bind; [done|]. intros n'.
  apply keeps_bind; [done|]. intros l'. apply keeps_ret.
Qed.

Lemma keeps_visitNewLiteral p value : keeps I (visitNewLiteral p value).
Proof.
  intros st Hst. unfold visitNewLiteral.
  pose proof (visitLiteral_keeps 1 p false value st Hst).
  by destruct (visitLiteral 1 p false value st).
Qed.

Lemma keeps_traverseCall p key visitRest :
  (forall q, keeps I (visitRest q)) -> keeps I (traverseCall p key visitRest).
Proof.
  intros Hrest. unfold traverseCall.
  apply keeps_bind; [apply keeps_visitNewLiteral|]. intros key'.
  apply keeps_bind; [apply Hrest|]. intros rest'. apply keeps_ret.
Qed.

Lemma keeps_traversePlusColon p key colon visitRest :
  (forall q, keeps I (visitRest q)) ->
  keeps I (traversePlusColon p key colon visitRest).
Proof.
  intros Hrest. unfold traversePlusColon.
  apply keeps_bind; [by apply keeps_traverseCall|]. intros call'.
  apply keeps_bind; [apply keeps_visitNewLiteral|]. intros colon'.
  apply keeps_ret.
Qed.

Lemma keeps_visitProperties (visit : path -> node -> M node) expressions :
  Forall (fun e => forall q, keeps I (visit q e)) expressions ->
  forall params p, keeps I (visitProperties visit expressions params p).
Proof.
  induction 1 as [|e expressions He _ IH]; intros params p;
    [apply keeps_ret|].
  destruct params as [|param params]; [apply keeps_ret|].
  cbn [visitProperties].
  apply keeps_bind; [apply He|]. intros e'.
  apply keeps_bind; [apply IH|]. intros rest. apply keeps_ret.
Qed.

End Invariant.

Section InvariantOfRun.

Variable I : state -> Prop.
Hypothesis I_resolution :
  forall chineseText st, I st -> I (getKeyForChinese chineseText st).2.

Variable printCode : node -> jsstring.

Ltac keeps_children IH :=
  apply keeps_visitAll; eapply Forall_impl; [exact IH|]; cbn;
  intros ? Hchild; apply Hchild.

(** The visitor keeps the property at every node, on every path. *)
Lemma visit_keeps n :
  forall p processed, keeps I (visit printCode p processed n).
Proof.
  induction n as [name|value|raw|quasis expressions IH|operator l r IHl IHr
                 |callee arguments IHc IHa|object property IHo IHp
                 |properties IH|key value IHk IHv|type children IH]
    using node_forall_ind; intros p processed.
  - apply keeps_ret.
  - intros st Hst. cbn [visit].
    pose proof (visitLiteral_keeps I I_resolution 1 p processed value st Hst).
    by destruct (visitLiteral 1 p processed value st).
  - apply keeps_ret.
  - assert (keeps I
              (let* expressions' :=
                 visitAll (visit printCode (FOther :: p) false) expressions in
               ret (TemplateLiteral quasis expressions'))%visit) as Htr.
    { apply keeps_bind; [keeps_children IH|]. intros ?. apply keeps_ret. }
    assert (forall q,
               keeps I
                 (let* properties' :=
                    visitProperties (fun q => visit printCode q false)
                      expressions
                      (params (extractTemplateVars
                                 (getTemplateString printCode quasis
                                    expressions))) q in
                  ret [ObjectExpression properties'])%visit) as Hrest.
    { intros q. apply keeps_bind; [|intros ?; apply keeps_ret].
      apply keeps_visitProperties.
      eapply Forall_impl; [exact IH|]. cbn. intros e He q'. apply He. }
    cbn [visit]. repeat case_match; try apply Htr;
      (apply keeps_bind; [by apply keeps_resolveKey|]); intros [key|];
      try apply Htr; repeat case_match; try apply keeps_throw;
      first [ by apply keeps_traversePlusColon
            | by apply keeps_traverseCall
            | apply keeps_traversePlusColon; [done|]; intros ?;
              apply keeps_ret
            | apply keeps_traverseCall; [done|]; intros ?; apply keeps_ret ].
  - assert (forall marked,
               keeps I
                 (let* l' := visit printCode (FBinary operator :: p) marked l in
                  let* r' := visit printCode (FBinary operator :: p) marked r in
                  ret (BinaryExpression operator l' r'))%visit) as Htr.
    { intros marked. apply keeps_bind; [apply IHl|]. intros ?.
      apply keeps_bind; [apply IHr|]. intros ?. apply keeps_ret. }
    cbn [visit]. repeat case_match; try apply Htr;
      (apply keeps_bind; [by apply keeps_resolveKey|]); intros [key|];
      try apply Htr; repeat case_match; apply keeps_ret.
  - cbn [visit]. apply keeps_bind; [apply IHc|]. intros callee'.
    apply keeps_bind; [keeps_children IHa|]. intros ?. apply keeps_ret.
  - cbn [visit]. apply keeps_bind; [apply IHo|]. intros ?.
    apply keeps_bind; [apply IHp|]. intros ?. apply keeps_ret.
  - cbn [visit]. apply keeps_bind; [keeps_children IH|]. intros ?.
    apply keeps_ret.
  - cbn [visit]. apply keeps_bind; [apply IHk|]. intros ?.
    apply keeps_bind; [apply IHv|]. intros ?. apply keeps_ret.
  - cbn [visit]. apply keeps_bind; [keeps_children IH|]. intros ?.
    apply keeps_ret.
Qed.

Lemma convertScript_keeps parse print scriptContent st :
  I st -> I (convertScript parse printCode print scriptContent st).2.
Proof.
  intros Hst. unfold convertScript.
  destruct scriptContent as [|c s]; [done|].
  destruct (parse (c :: s)) as [ast|]; [|done].
  pose proof (visit_keeps ast [] false st Hst) as Hv.
  by destruct (visit printCode [] false ast st) as [[ast'|] st'].
Qed.

End InvariantOfRun.

Section InvariantOfMarkup.

Variable I : state -> Prop.
Hypothesis I_resolution :
  forall chineseText st, I st -> I (getKeyForChinese chineseText st).2.

Ltac kept_by lemma :=
  match goal with
  | H : ?call = (_, ?s') |- I ?s' =>
    replace s' with (call).2 by (by rewrite H); by apply lemma
  end.

Ltac kept_resolutions :=
  repeat match goal with
         | H : getKeyForChinese ?t ?s = (_, ?s') |- _ =>
           assert (I s') by
             (replace s' with (getKeyForChinese t s).2 by (by rewrite H);
              by apply I_resolution);
           clear H
         end.

Lemma convertToI18n_keeps text format st :
  I st -> I (convertToI18n text format st).2.
Proof.
  intros Hst. unfold convertToI18n.
  repeat case_match; simplify_eq; kept_resolutions; done.
Qed.

Lemma convertPiece_keeps original st : I st -> I (convertPiece original st).2.
Proof.
  intros Hst. unfold convertPiece.
  repeat case_match; simplify_eq; cbn [snd]; try done;
    kept_by convertToI18n_keeps.
Qed.

Lemma convertSegments_keeps segments afterText :
  forall st, I st -> I (convertSegments segments afterText st).2.
Proof.
  induction segments as [|[beforeText interpolation] segments IH];
    intros st Hst; cbn [convertSegments]; unfold pushText.
  - repeat case_match; simplify_eq; cbn [snd]; try done;
      kept_by convertPiece_keeps.
  - repeat case_match; simplify_eq; cbn [snd];
      match goal with
      | H : convertSegments _ _ ?s = (_, ?s') |- I ?s' =>
        replace s' with (convertSegments segments afterText s).2
          by (by rewrite H); apply IH
      end; try done; kept_by convertPiece_keeps.
Qed.

Lemma convertTemplateContent_keeps wrap matched templateContent st :
  I st -> I (convertTemplateContent wrap matched templateContent st).2.
Proof.
  intros Hst. unfold convertTemplateContent.
  repeat case_match; simplify_eq; kept_resolutions; done.
Qed.

Ltac kept_callback :=
  repeat case_match; simplify_eq; cbn [snd]; kept_resolutions; try done;
  first [ kept_by convertToI18n_keeps
        | kept_by convertTemplateContent_keeps
        | kept_by convertSegments_keeps
        | kept_by convertPiece_keeps ].

Lemma convertInterpolatedString_keeps matched text st :
  I st -> I (convertInterpolatedString matched text st).2.
Proof. intros Hst. unfold convertInterpolatedString. kept_callback. Qed.

Lemma convertInterpolatedTemplate_keeps matched templateContent st :
  I st -> I (convertInterpolatedTemplate matched templateContent st).2.
Proof.
  intros Hst. unfold convertInterpolatedTemplate.
  case_match; [done|]. by apply convertTemplateContent_keeps.
Qed.

Lemma convertTextNode_keeps matched text st :
  I st -> I (convertTextNode matched text st).2.
Proof. intros Hst. unfold convertTextNode. kept_callback. Qed.

Lemma convertStaticAttribute_keeps matched groups st :
  I st -> I (convertStaticAttribute matched groups st).2.
Proof. intros Hst. unfold convertStaticAttribute. kept_callback. Qed.

Lemma convertBoundLiteral_keeps matched groups st :
  I st -> I (convertBoundLiteral matched groups st).2.
Proof. intros Hst. unfold convertBoundLiteral. kept_callback. Qed.

Lemma convertBoundTemplate_keeps matched groups st :
  I st -> I (convertBoundTemplate matched groups st).2.
Proof.
  intros Hst. unfold convertBoundTemplate.
  destruct groups as [attrName templateContent].
  by apply convertTemplateContent_keeps.
Qed.

Lemma replace_keeps {G : Type} (matchAt : jsstring -> option (G * jsstring))
    (callback : jsstring -> G -> state -> jsstring * state) s st :
  (forall matched groups st, I st -> I (callback matched groups st).2) ->
  I st -> I (replace matchAt callback s st).2.
Proof. intros Hcb. unfold replace. by apply replaceAll_invariant. Qed.

(** The markup rewriter keeps the property. *)
Lemma convertTemplate_keeps templateContent st :
  I st -> I (convertTemplate templateContent st).2.
Proof.
  intros Hst. unfold convertTemplate.
  destruct templateContent as [|c s]; [done|].
  destruct (replace matchComment protectComment (c :: s) []) as [r0 comments].
  pose proof (replace_keeps matchInterpolatedString convertInterpolatedString
                r0 st convertInterpolatedString_keeps Hst) as H1.
  destruct (replace matchInterpolatedString _ r0 st) as [r1 st1].
  pose proof (replace_keeps matchInterpolatedTemplate
                convertInterpolatedTemplate r1 st1
                convertInterpolatedTemplate_keeps H1) as H2.
  destruct (replace matchInterpolatedTemplate _ r1 st1) as [r2 st2].
  pose proof (replace_keeps matchTextNode convertTextNode r2 st2
                convertTextNode_keeps H2) as H3.
  destruct (replace matchTextNode _ r2 st2) as [r3 st3].
  pose proof (replace_keeps matchStaticAttribute convertStaticAttribute r3 st3
                convertStaticAttribute_keeps H3) as H4.
  destruct (replace matchStaticAttribute _ r3 st3) as [r4 st4].
  pose proof (replace_keeps matchBoundLiteral convertBoundLiteral r4 st4
                convertBoundLiteral_keeps H4) as H5.
  destruct (replace matchBoundLiteral _ r4 st4) as [r5 st5].
  pose proof (replace_keeps matchBoundTemplate convertBoundTemplate r5 st5
                convertBoundTemplate_keeps H5) as H6.
  destruct (replace matchBoundTemplate _ r5 st5) as [r6 st6].
  by destruct (replace matchPlaceholder _ r6 tt).
Qed.

End InvariantOfMarkup.

Lemma hasUsableKey_options st1 st2 chineseText :
  optionsOf st1 = optionsOf st2 ->
  hasUsableKey st1 chineseText = hasUsableKey st2 chineseText.
Proof.
  unfold optionsOf. intros H. injection H as Hm Hs Hp.
  unfold hasUsableKey, isKeyPathMatched, activePath. by rewrite Hm, Hp.
Qed.

Lemma setAdd_prefix x s : s `prefix_of` setAdd x s.
Proof.
  unfold setAdd. destruct (decide (x ∈ s)); [done|]. by exists [x].
Qed.

Lemma setAdd_inv y x s : y ∈ setAdd x s -> y ∈ s \/ y = x.
Proof.
  unfold setAdd. destruct (decide (x ∈ s)); [by left|].
  intros H. apply elem_of_app in H as [H|H]; [by left|].
  right. by apply list_elem_of_singleton in H.
Qed.

Lemma recordsMissesOf_refl st : recordsMissesOf st st.
Proof. unfold recordsMissesOf. split_and!; auto. Qed.

(** Every resolution keeps [recordsMissesOf]. *)
Lemma recordsMissesOf_resolution st0 chineseText st :
  recordsMissesOf st0 st ->
  recordsMissesOf st0 (getKeyForChinese chineseText st).2.
Proof.
  intros (Hopt & Hpre & Hnd & Hnew).
  destruct (getKeyForChinese_cases chineseText st)
    as [(key & -> & _)|[-> Husable]]; [done|].
  cbn [snd]. unfold recordsMissesOf. split_and!.
  - by rewrite <- Hopt.
  - cbn. etrans; [exact Hpre|]. apply setAdd_prefix.
  - intros H. cbn. by apply NoDup_setAdd, Hnd.
  - intros t Ht. cbn in Ht. apply setAdd_inv in Ht as [Ht| ->]; [by apply Hnew|].
    right. rewrite (hasUsableKey_options _ _ _ Hopt) in Husable.
    rewrite (getKeyForChinese_unusable _ _ Husable), unmatched_eq. cbn.
    split; [done|]. apply elem_of_setAdd.
Qed.

(** X9. Whatever the script is, and whether the visitor returns or
    throws, a run of [convertScript] leaves the dictionary, the skip
    option and the path to match as they were; it keeps the unmatched
    texts recorded before, in front and in order; it adds no text twice;
    and every text it adds is one that [getKeyForChinese] misses.  The
    same holds for the visit of any node on any path. *)
Theorem script_run_records_misses parse printCode print :
  (forall p processed n st,
      recordsMissesOf st (visit printCode p processed n st).2) /\
  (forall scriptContent st,
      recordsMissesOf st
        (convertScript parse printCode print scriptContent st).2).
Proof.
  split.
  - intros p processed n st.
    apply (visit_keeps (recordsMissesOf st)
             (recordsMissesOf_resolution st)), recordsMissesOf_refl.
  - intros scriptContent st.
    apply (convertScript_keeps (recordsMissesOf st)
             (recordsMissesOf_resolution st)), recordsMissesOf_refl.
Qed.

(** X10. A run of [convertTemplate] over any markup leaves the
    dictionary, the skip option and the path to match as they were; it
    keeps the unmatched texts recorded before, in front and in order; it
    adds no text twice; and every text it adds is one that
    [getKeyForChinese] misses. *)
Theorem markup_run_records_misses templateContent st :
  recordsMissesOf st (convertTemplate templateContent st).2.
Proof.
  apply (convertTemplate_keeps (recordsMissesOf st)
           (recordsMissesOf_resolution st)), recordsMissesOf_refl.
Qed.

(** ** Markup without ideographs *)

(** *** What a match is made of *)

Lemma startsWith_app p s : startsWith p s = true -> s = p ++ drop (length p) s.
Proof.
  revert s. induction p as [|a p IH]; intros [|b s] H; cbn in *; try done.
  apply andb_prop in H as [Hab H]. apply N.eqb_eq in Hab as ->.
  f_equal. by apply IH.
Qed.

Lemma expect_app p s rest : expect p s = Some rest -> s = p ++ rest.
Proof.
  unfold expect. intros H. case_match eqn:Hs; simplify_eq.
  by apply startsWith_app.
Qed.

Lemma takeWhile_app cls s taken rest :
  takeWhile cls s = (taken, rest) -> s = taken ++ rest.
Proof.
  revert taken rest. induction s as [|c s IH]; intros taken rest H; cbn in H.
  - by simplify_eq.
  - destruct (cls c); [|by simplify_eq].
    destruct (takeWhile cls s) as [taken' rest']. simplify_eq.
    cbn. f_equal. by apply IH.
Qed.

Lemma takeSome_app cls s taken rest :
  takeSome cls s = Some (taken, rest) -> s = taken ++ rest.
Proof.
  unfold takeSome. intros H.
  destruct (takeWhile cls s) as [taken' rest'] eqn:Ht.
  apply takeWhile_app in Ht. by destruct taken'; simplify_eq.
Qed.

Lemma oneOf_app cls s c rest : oneOf cls s = Some (c, rest) -> s = [c] ++ rest.
Proof. unfold oneOf. intros H. by repeat case_match; simplify_eq. Qed.

Lemma untilLit_app p s before rest :
  untilLit p s = Some (before, rest) -> s = before ++ p ++ rest.
Proof.
  revert before rest. induction s as [|c s IH]; intros before rest H;
    cbn [untilLit] in H.
  - destruct (expect p []) eqn:He; simplify_eq. by apply expect_app in He.
  - destruct (expect p (c :: s)) eqn:He.
    + simplify_eq. by apply expect_app in He.
    + destruct (untilLit p s) as [[before' rest']|]; simplify_eq.
      cbn. f_equal. by apply IH.
Qed.

Lemma matchedText_app m rest : matchedText (m ++ rest) rest = m.
Proof.
  unfold matchedText. rewrite length_app.
  replace (length m + length rest - length rest)%nat with (length m) by lia.
  by rewrite take_app_length.
Qed.

Ltac scan_apps :=
  repeat match goal with
         | H : expect _ _ = Some _ |- _ => apply expect_app in H
         | H : takeWhile _ _ = (_, _) |- _ => apply takeWhile_app in H
         | H : takeSome _ _ = Some _ |- _ => apply takeSome_app in H
         | H : oneOf _ _ = Some _ |- _ => apply oneOf_app in H
         | H : untilLit _ _ = Some _ |- _ => apply untilLit_app in H
         end; subst.

Lemma noChinese_app a b : noChinese (a ++ b) <-> noChinese a /\ noChinese b.
Proof. unfold noChinese. by rewrite existsb_app, orb_false_iff. Qed.

Lemma noChinese_tail c s : noChinese (c :: s) -> noChinese s.
Proof. unfold noChinese. cbn. intros H. by apply orb_false_elim in H as [_ H]. Qed.

Lemma noChinese_not_convertible s :
  noChinese s -> isOnlyChinese (cleanString s) = false.
Proof. intros H. by rewrite isOnlyChinese_cleanString. Qed.

(** A replacement whose callback returns the matched text, in the same
    state, on every string of a class closed under the scan, returns its
    input. *)
Lemma replaceAll_identity {G S : Type} (P : jsstring -> Prop)
    (matchAt : jsstring -> option (G * jsstring))
    (callback : jsstring -> G -> S -> jsstring * S) :
  (forall c s, P (c :: s) -> P s) ->
  (forall s groups rest,
      P s -> matchAt s = Some (groups, rest) ->
      P rest /\ matchedText s rest ++ rest = s /\
      forall st, callback (matchedText s rest) groups st =
                   (matchedText s rest, st)) ->
  forall fuel s st, P s -> replaceAll fuel matchAt callback s st = (s, st).
Proof.
  intros Htail Hmatch. induction fuel as [|fuel IH]; intros s st Hs; [done|].
  cbn [replaceAll]. destruct (matchAt s) as [[groups rest]|] eqn:Hm.
  - destruct (Hmatch _ _ _ Hs Hm) as (Hrest & Happ & Hcb).
    by rewrite Hcb, (IH _ _ Hrest), Happ.
  - destruct s as [|c s]; [done|]. by rewrite (IH _ _ (Htail _ _ Hs)).
Qed.

(** A replacement whose pattern starts with a literal that the input
    does not contain returns its input. *)
Lemma replaceAll_absent {G S : Type} (p : jsstring)
    (matchAt : jsstring -> option (G * jsstring))
    (callback : jsstring -> G -> S -> jsstring * S) :
  (forall s, startsWith p s = false -> matchAt s = None) ->
  forall fuel s st,
    includes p s = false -> replaceAll fuel matchAt callback s st = (s, st).
Proof.
  intros Hp. apply (replaceAll_identity (fun s => includes p s = false)).
  - intros c s H. cbn [includes] in H. by apply orb_false_elim in H as [_ H].
  - intros s groups rest H Hm. destruct s as [|c s]; cbn [includes] in H;
      apply orb_false_elim in H as [H _]; by rewrite (Hp _ H) in Hm.
Qed.

Lemma untilBrace_app s e rest :
  untilBrace s = Some (e, rest) -> s = e ++ [rbrace] ++ rest.
Proof.
  revert e rest. induction s as [|c s IH]; intros e rest H; [done|].
  cbn [untilBrace] in H. destruct (c =? rbrace) eqn:Hc.
  - apply N.eqb_eq in Hc. by simplify_eq.
  - destruct (untilBrace s) as [[e' rest']|]; simplify_eq.
    cbn. f_equal. by apply IH.
Qed.

Lemma matchVar_app s e rest :
  matchVar s = Some (e, rest) -> s = [dollar; lbrace] ++ e ++ [rbrace] ++ rest.
Proof.
  unfold matchVar. intros H.
  destruct s as [|c1 [|c2 s]]; [done|done|].
  destruct ((c1 =? dollar) && (c2 =? lbrace)) eqn:Hc; [|done].
  apply andb_prop in Hc as [H1 H2]. apply N.eqb_eq in H1, H2. subst.
  destruct (untilBrace s) as [[e' rest']|] eqn:Hu; [|done].
  apply untilBrace_app in Hu. by destruct e'; simplify_eq.
Qed.

(** The text of a template outside its interpolations has no ideograph
    when the template has none. *)
Lemma stripVars_noChinese fuel :
  forall s, noChinese s -> noChinese (stripVars (scanVars fuel s)).
Proof.
  induction fuel as [|fuel IH]; intros s Hs; [done|].
  cbn [scanVars]. destruct s as [|c s]; [done|].
  destruct (matchVar (c :: s)) as [[e rest]|] eqn:Hm.
  - cbn [stripVars]. apply IH. apply matchVar_app in Hm. rewrite Hm in Hs.
    repeat (apply noChinese_app in Hs as [_ Hs]). done.
  - cbn [stripVars]. unfold noChinese in *. cbn [existsb] in *.
    apply orb_false_elim in Hs as [-> Hs]. by apply IH.
Qed.

Lemma convertTemplateContent_noChinese wrap matched templateContent st :
  noChinese templateContent ->
  convertTemplateContent wrap matched templateContent st = (matched, st).
Proof.
  intros H. apply convertTemplateContent_no_body_text.
  unfold extractTemplateVars. destruct (substVars 1 _). cbn [hasChinese].
  rewrite isOnlyChinese_spec. by apply stripVars_noChinese.
Qed.

Lemma matchInterpolation_app s groups rest :
  matchInterpolation s = Some (groups, rest) -> matchedText s rest ++ rest = s.
Proof.
  unfold matchInterpolation. intros H. repeat case_match; simplify_eq.
  scan_apps. by rewrite !app_assoc, matchedText_app.
Qed.

(** The segments of a text between two tags, put together again, are
    the text. *)
Lemma scanInterpolations_concat fuel :
  forall s before segments afterText,
    scanInterpolations fuel s before = (segments, afterText) ->
    concat (map (fun segment => segment.1 ++ segment.2) segments) ++ afterText
      = before ++ s.
Proof.
  induction fuel as [|fuel IH]; intros s before segments afterText H;
    cbn [scanInterpolations] in H; [by simplify_eq|].
  destruct (matchInterpolation s) as [[u rest]|] eqn:Hm.
  - destruct (scanInterpolations fuel rest []) as [more after] eqn:Hs.
    simplify_eq. apply IH in Hs. apply matchInterpolation_app in Hm.
    cbn. rewrite <- !app_assoc, Hs. cbn. by rewrite Hm.
  - destruct s as [|c s]; [by simplify_eq; rewrite app_nil_r|].
    apply IH in H. by rewrite <- app_assoc in H.
Qed.

Lemma scanInterpolations_noChinese fuel :
  forall s before segments afterText,
    scanInterpolations fuel s before = (segments, afterText) ->
    noChinese (before ++ s) ->
    Forall (fun segment => noChinese segment.1) segments /\
    noChinese afterText.
Proof.
  induction fuel as [|fuel IH]; intros s before segments afterText H Hn;
    cbn [scanInterpolations] in H; [by simplify_eq|].
  destruct (matchInterpolation s) as [[u rest]|] eqn:Hm.
  - destruct (scanInterpolations fuel rest []) as [more after] eqn:Hs.
    simplify_eq. apply matchInterpolation_app in Hm.
    apply noChinese_app in Hn as [Hb Hn]. rewrite <- Hm in Hn.
    apply noChinese_app in Hn as [_ Hn].
    destruct (IH _ _ _ _ Hs Hn) as [Hmore Hafter].
    split; [by constructor|done].
  - destruct s as [|c s].
    + simplify_eq. rewrite app_nil_r in Hn. by split.
    + apply (IH _ _ _ _ H). by rewrite <- app_assoc.
Qed.

Lemma convertPiece_noChinese original st :
  noChinese original -> convertPiece original st = (original, st).
Proof.
  intros H. unfold convertPiece. by rewrite noChinese_not_convertible.
Qed.

Lemma pushText_noChinese piece st :
  noChinese piece ->
  exists parts, pushText piece st = (parts, st) /\ concat parts = piece.
Proof.
  intros H. unfold pushText. destruct piece as [|c piece]; [by exists []|].
  rewrite convertPiece_noChinese by done. eexists. split; [done|].
  cbn. by rewrite app_nil_r.
Qed.

Lemma convertSegments_noChinese segments afterText st :
  Forall (fun segment => noChinese segment.1) segments ->
  noChinese afterText ->
  exists parts,
    convertSegments segments afterText st = (parts, st) /\
    concat parts =
      concat (map (fun segment => segment.1 ++ segment.2) segments)
        ++ afterText.
Proof.
  intros Hsegments Hafter.
  induction Hsegments as [|[beforeText interpolation] segments Hb _ IH];
    cbn [convertSegments].
  - by apply pushText_noChinese.
  - destruct (pushText_noChinese beforeText st Hb) as (parts & -> & Hparts).
    destruct IH as (more & -> & Hmore).
    eexists. split; [done|].
    rewrite concat_app. cbn. by rewrite Hparts, Hmore, <- !app_assoc.
Qed.

Lemma convertTextNode_noChinese matched text st :
  noChinese text -> convertTextNode matched text st = (matched, st).
Proof.
  intros H. unfold convertTextNode.
  destruct (includes (lit "{{") text && includes (lit "}}") text).
  - destruct (scanInterpolations (S (length text)) text [])
      as [segments afterText] eqn:Hs.
    destruct (scanInterpolations_noChinese _ _ _ _ _ Hs H) as [Hseg Hafter].
    apply scanInterpolations_concat in Hs.
    destruct (convertSegments_noChinese segments afterText st Hseg Hafter)
      as (parts & -> & Hparts).
    rewrite Hparts, Hs. cbn [app]. rewrite jsEq_refl. cbn.
    by rewrite andb_false_r.
  - by rewrite noChinese_not_convertible.
Qed.

(** *** The passes on markup without ideographs *)

Ltac match_pieces Hm Hs :=
  repeat case_match; simplify_eq; scan_apps;
  repeat (apply noChinese_app in Hs as [? Hs]);
  split_and!; [done|by rewrite !app_assoc, matchedText_app|intros st].

Lemma interpolatedString_identity s groups rest :
  noChinese s -> matchInterpolatedString s = Some (groups, rest) ->
  noChinese rest /\ matchedText s rest ++ rest = s /\
  forall st, convertInterpolatedString (matchedText s rest) groups st =
               (matchedText s rest, st).
Proof.
  intros Hs Hm. unfold matchInterpolatedString in Hm. match_pieces Hm Hs.
  unfold convertInterpolatedString. case_match; [done|].
  by rewrite noChinese_not_convertible.
Qed.

Lemma interpolatedTemplate_identity s groups rest :
  noChinese s -> matchInterpolatedTemplate s = Some (groups, rest) ->
  noChinese rest /\ matchedText s rest ++ rest = s /\
  forall st, convertInterpolatedTemplate (matchedText s rest) groups st =
               (matchedText s rest, st).
Proof.
  intros Hs Hm. unfold matchInterpolatedTemplate in Hm. match_pieces Hm Hs.
  unfold convertInterpolatedTemplate. case_match; [done|].
  by apply convertTemplateContent_noChinese.
Qed.

Lemma textNode_identity s groups rest :
  noChinese s -> matchTextNode s = Some (groups, rest) ->
  noChinese rest /\ matchedText s rest ++ rest = s /\
  forall st, convertTextNode (matchedText s rest) groups st =
               (matchedText s rest, st).
Proof.
  intros Hs Hm. unfold matchTextNode in Hm. match_pieces Hm Hs.
  by apply convertTextNode_noChinese.
Qed.

Lemma staticAttribute_identity s groups rest :
  noChinese s -> matchStaticAttribute s = Some (groups, rest) ->
  noChinese rest /\ matchedText s rest ++ rest = s /\
  forall st, convertStaticAttribute (matchedText s rest) groups st =
               (matchedText s rest, st).
Proof.
  intros Hs Hm. unfold matchStaticAttribute in Hm. match_pieces Hm Hs.
  unfold convertStaticAttribute. case_match; [done|].
  by rewrite noChinese_not_convertible.
Qed.

Lemma boundLiteral_identity s groups rest :
  noChinese s -> matchBoundLiteral s = Some (groups, rest) ->
  noChinese rest /\ matchedText s rest ++ rest = s /\
  forall st, convertBoundLiteral (matchedText s rest) groups st =
               (matchedText s rest, st).
Proof.
  intros Hs Hm. unfold matchBoundLiteral in Hm. match_pieces Hm Hs.
  unfold convertBoundLiteral. by rewrite noChinese_not_convertible.
Qed.

Lemma boundTemplate_identity s groups rest :
  noChinese s -> matchBoundTemplate s = Some (groups, rest) ->
  noChinese rest /\ matchedText s rest ++ rest = s /\
  forall st, convertBoundTemplate (matchedText s rest) groups st =
               (matchedText s rest, st).
Proof.
  intros Hs Hm. unfold matchBoundTemplate in Hm. match_pieces Hm Hs.
  unfold convertBoundTemplate. by apply convertTemplateContent_noChinese.
Qed.

Lemma matchComment_absent s :
  startsWith (lit "<!--") s = false -> matchComment s = None.
Proof. intros H. unfold matchComment, expect. by rewrite H. Qed.

Lemma matchPlaceholder_absent s :
  startsWith (lit "___COMMENT_PLACEHOLDER___") s = false ->
  matchPlaceholder s = None.
Proof. intros H. unfold matchPlaceholder, expect. by rewrite H. Qed.

(** The six passes over the text return markup without ideographs as it
    is, in the same state. *)
Lemma passes_noChinese s st :
  noChinese s ->
  forall r st',
    (let '(result, st) :=
       replace matchInterpolatedString convertInterpolatedString s st in
     let '(result, st) :=
       replace matchInterpolatedTemplate convertInterpolatedTemplate result st in
     let '(result, st) := replace matchTextNode convertTextNode result st in
     let '(result, st) :=
       replace matchStaticAttribute convertStaticAttribute result st in
     let '(result, st) :=
       replace matchBoundLiteral convertBoundLiteral result st in
     replace matchBoundTemplate convertBoundTemplate result st) = (r, st') ->
    r = s /\ st' = st.
Proof.
  intros Hs r st'. unfold replace.
  rewrite (replaceAll_identity noChinese _ _ noChinese_tail
             interpolatedString_identity) by done.
  rewrite (replaceAll_identity noChinese _ _ noChinese_tail
             interpolatedTemplate_identity) by done.
  rewrite (replaceAll_identity noChinese _ _ noChinese_tail
             textNode_identity) by done.
  rewrite (replaceAll_identity noChinese _ _ noChinese_tail
             staticAttribute_identity) by done.
  rewrite (replaceAll_identity noChinese _ _ noChinese_tail
             boundLiteral_identity) by done.
  rewrite (replaceAll_identity noChinese _ _ noChinese_tail
             boundTemplate_identity) by done.
  intros H. by simplify_eq.
Qed.

(** *** Comments put aside and put back *)

Lemma lit_pretty_N_go x :
  forall s, lit (pretty_N_go x s) = lit (pretty_N_go x EmptyString) ++ lit s.
Proof.
  induction (N.lt_wf_0 x) as [x _ IH]. intros s.
  destruct (decide (0 < x)%N) as [Hx|Hx].
  - rewrite !(pretty_N_go_step x) by done.
    assert (x `div` 10 < x)%N as Hlt by (by apply N.div_lt).
    rewrite (IH _ Hlt (String (pretty_N_char (x `mod` 10)) s)).
    rewrite (IH _ Hlt (String (pretty_N_char (x `mod` 10)) EmptyString)).
    cbn [lit]. by rewrite <- app_assoc.
  - replace x with 0%N by lia. by rewrite !pretty_N_go_0.
Qed.

Lemma pretty_N_char_digit d : isDigit (N_of_ascii (pretty_N_char d)) = true.
Proof. unfold pretty_N_char. by repeat case_match. Qed.

Lemma pretty_N_char_value d :
  (d < 10)%N -> (N_of_ascii (pretty_N_char d) - 0x30 = d)%N.
Proof.
  intros H.
  assert (d = 0 \/ d = 1 \/ d = 2 \/ d = 3 \/ d = 4 \/ d = 5 \/ d = 6 \/
          d = 7 \/ d = 8 \/ d = 9)%N as Hd by lia.
  repeat destruct Hd as [->|Hd]; try subst d; reflexivity.
Qed.

Lemma pretty_N_go_digits x :
  forallb isDigit (lit (pretty_N_go x EmptyString)) = true /\
  fold_left (fun n c => (10 * n + N.to_nat (c - 0x30))%nat)
            (lit (pretty_N_go x EmptyString)) O = N.to_nat x.
Proof.
  induction (N.lt_wf_0 x) as [x _ IH].
  destruct (decide (0 < x)%N) as [Hx|Hx].
  - rewrite (pretty_N_go_step x) by done. rewrite lit_pretty_N_go.
    destruct (IH (x `div` 10)%N) as [Hd Hv]; [by apply N.div_lt|].
    split.
    + rewrite forallb_app, Hd. cbn. by rewrite pretty_N_char_digit.
    + rewrite fold_left_app, Hv. cbn.
      rewrite pretty_N_char_value by (by apply N.mod_lt).
      pose proof (N.div_mod x 10 ltac:(done)). lia.
  - replace x with 0%N by lia. by rewrite pretty_N_go_0.
Qed.

(** The decimal digits of a number: digits only, at least one, and
    [parseInt] reads the number back. *)
Lemma pretty_digits (k : nat) :
  forallb isDigit (lit (pretty k)) = true /\
  lit (pretty k) <> [] /\
  parseInt (lit (pretty k)) = k.
Proof.
  unfold pretty, pretty_nat, pretty, pretty_N, parseInt.
  destruct (decide (N.of_nat k = 0%N)) as [H0|H0].
  - split_and!; [done|done|]. cbn. lia.
  - destruct (pretty_N_go_digits (N.of_nat k)) as [Hd Hv].
    split_and!; [done| |].
    + rewrite (pretty_N_go_step (N.of_nat k)) by lia.
      rewrite lit_pretty_N_go. cbn [lit]. intros Hnil.
      by apply app_eq_nil in Hnil as [_ Hnil].
    + rewrite Hv. apply Nat2N.id.
Qed.

Lemma takeWhile_all cls taken rest :
  forallb cls taken = true ->
  match rest with [] => True | c :: _ => cls c = false end ->
  takeWhile cls (taken ++ rest) = (taken, rest).
Proof.
  intros Ht Hr. induction taken as [|c taken IH]; cbn in *.
  - destruct rest as [|c rest]; [done|]. cbn. by rewrite Hr.
  - apply andb_prop in Ht as [-> Ht]. by rewrite IH.
Qed.

Lemma startsWith_prefix p x : startsWith p (p ++ x) = true.
Proof.
  induction p as [|a p IH]; [done|]. cbn. by rewrite N.eqb_refl, IH.
Qed.

Lemma expect_prefix p x : expect p (p ++ x) = Some x.
Proof. unfold expect. by rewrite startsWith_prefix, drop_app_length. Qed.

Lemma startsWith_app_long p a z :
  (length p <= length a)%nat -> startsWith p (a ++ z) = startsWith p a.
Proof.
  revert a. induction p as [|c p IH]; intros [|b a] H; cbn in *;
    try done; try lia.
  rewrite IH by lia. done.
Qed.

Lemma includes_startsWith p s : includes p s = false -> startsWith p s = false.
Proof.
  destruct s; cbn [includes]; intros H; by apply orb_false_elim in H as [H _].
Qed.

Lemma includes_app p m rest : includes p (m ++ rest) = false -> includes p rest = false.
Proof.
  induction m as [|c m IH]; [done|]. cbn [app includes]. intros H.
  apply orb_false_elim in H as [_ H]. by apply IH.
Qed.

(** The placeholder made for comment number [k] is matched as a whole,
    with the digits of [k] as its group. *)
Lemma matchPlaceholder_generated (k : nat) tail :
  matchPlaceholder
    ((lit "___COMMENT_PLACEHOLDER___" ++ lit (pretty k) ++ lit "___") ++ tail)
  = Some (lit (pretty k), tail).
Proof.
  destruct (pretty_digits k) as (Hd & Hne & _).
  unfold matchPlaceholder. rewrite <- !app_assoc, expect_prefix.
  unfold takeSome. rewrite takeWhile_all; [|done|done].
  destruct (lit (pretty k)) eqn:Hk; [done|]. by rewrite expect_prefix.
Qed.

(** No match starts in copied text and runs into a placeholder: the
    character after the literal would be one of the literal itself, not a
    digit. *)
Lemma matchPlaceholder_overlap pre y :
  pre <> [] ->
  ((25 <= length pre)%nat ->
   startsWith (lit "___COMMENT_PLACEHOLDER___") pre = false) ->
  matchPlaceholder (pre ++ lit "___COMMENT_PLACEHOLDER___" ++ y) = None.
Proof.
  intros Hne Hlong. unfold matchPlaceholder, expect.
  destruct (decide (25 <= length pre)%nat) as [Hl|Hl].
  - rewrite startsWith_app_long by (cbn; lia). by rewrite Hlong.
  - destruct (startsWith _ (pre ++ _)); [|done].
    change (length (lit "___COMMENT_PLACEHOLDER___")) with 25%nat.
    rewrite drop_app_ge by lia.
    assert (exists j, (25 - length pre = S j)%nat /\ (j < 24)%nat)
      as (j & -> & Hj).
    { destruct pre; [done|]. cbn [length] in *.
      exists (24 - S (length pre))%nat. lia. }
    rewrite drop_app_le by (cbn; lia).
    assert (exists c t,
               drop (S j) (lit "___COMMENT_PLACEHOLDER___") = c :: t /\
               isDigit c = false) as (c & t & -> & Hc).
    { do 24 (destruct j as [|j]; [by eexists _, _|]). lia. }
    unfold takeSome. cbn. by rewrite Hc.
Qed.

Lemma matchComment_app s groups rest :
  matchComment s = Some (groups, rest) -> matchedText s rest ++ rest = s.
Proof.
  unfold matchComment. intros H. repeat case_match; simplify_eq.
  scan_apps. by rewrite !app_assoc, matchedText_app.
Qed.

Lemma protectComment_eq matched u comments :
  protectComment matched u comments =
    (lit "___COMMENT_PLACEHOLDER___" ++ lit (pretty (length comments))
       ++ lit "___", comments ++ [matched]).
Proof.
  unfold protectComment. rewrite length_app. cbn [length].
  by replace (length comments + 1 - 1)%nat with (length comments) by lia.
Qed.

(** In the result of pass 0, the pattern of pass 6 matches nowhere in the
    text copied from markup that does not hold the placeholder literal. *)
Lemma matchPlaceholder_copied fuel :
  forall s comments pre,
    pre <> [] ->
    includes (lit "___COMMENT_PLACEHOLDER___") (pre ++ s) = false ->
    matchPlaceholder
      (pre ++ (replaceAll fuel matchComment protectComment s comments).1)
    = None.
Proof.
  induction fuel as [|fuel IH]; intros s comments pre Hne Hs.
  - apply matchPlaceholder_absent. by apply includes_startsWith.
  - cbn [replaceAll]. destruct (matchComment s) as [[u rest]|] eqn:Hm.
    + rewrite protectComment_eq.
      destruct (replaceAll fuel matchComment protectComment rest _)
        as [tail comments'].
      cbn [fst]. rewrite <- !app_assoc.
      apply matchPlaceholder_overlap; [done|]. intros Hl.
      apply includes_startsWith in Hs.
      by rewrite startsWith_app_long in Hs by (cbn; lia).
    + destruct s as [|c s].
      * apply matchPlaceholder_absent. by apply includes_startsWith.
      * specialize (IH s comments (pre ++ [c])).
        destruct (replaceAll fuel matchComment protectComment s comments)
          as [tail comments'].
        cbn [fst] in *.
        replace (pre ++ c :: tail) with ((pre ++ [c]) ++ tail)
          by (by rewrite <- app_assoc).
        apply IH; [by destruct pre|by rewrite <- app_assoc].
Qed.

(** Pass 6 undoes pass 0. *)
Lemma restore_protect fuel :
  forall s comments r comments',
    includes (lit "___COMMENT_PLACEHOLDER___") s = false ->
    replaceAll fuel matchComment protectComment s comments = (r, comments') ->
    (exists new, comments' = comments ++ new) /\
    forall later fuel',
      (length r < fuel')%nat ->
      replaceAll fuel' matchPlaceholder (restoreComment (comments' ++ later))
                 r tt = (s, tt).
Proof.
  induction fuel as [|fuel IH]; intros s comments r comments' Hs Hr.
  - cbn in Hr. simplify_eq. split; [exists []; by rewrite app_nil_r|].
    intros later fuel' _.
    by apply (replaceAll_absent (lit "___COMMENT_PLACEHOLDER___") _ _
                matchPlaceholder_absent).
  - cbn [replaceAll] in Hr.
    destruct (matchComment s) as [[u rest]|] eqn:Hm.
    + rewrite protectComment_eq in Hr.
      destruct (replaceAll fuel matchComment protectComment rest _)
        as [tail comments''] eqn:Htail.
      simplify_eq. apply matchComment_app in Hm.
      assert (includes (lit "___COMMENT_PLACEHOLDER___") rest = false)
        as Hrest by (rewrite <- Hm in Hs; by apply includes_app in Hs).
      destruct (IH _ _ _ _ Hrest Htail) as [[new ->] Hrestore].
      split; [exists (matchedText s rest :: new); by rewrite <- app_assoc|].
      intros later [|fuel'] Hlen; [lia|].
      cbn [replaceAll]. rewrite matchPlaceholder_generated.
      unfold restoreComment at 1.
      destruct (pretty_digits (length comments)) as (_ & _ & ->).
      rewrite <- !app_assoc. cbn [app]. rewrite nth_middle.
      replace (comments ++ matchedText s rest :: new ++ later)
        with (((comments ++ [matchedText s rest]) ++ new) ++ later)
        by (by rewrite <- !app_assoc).
      rewrite Hrestore; [by rewrite Hm|].
      rewrite !length_app in Hlen.
      change (length (lit "___")) with 3%nat in Hlen. lia.
    + destruct s as [|c s].
      * simplify_eq. split; [exists []; by rewrite app_nil_r|].
        intros later fuel' _.
        by apply (replaceAll_absent (lit "___COMMENT_PLACEHOLDER___") _ _
                    matchPlaceholder_absent).
      * destruct (replaceAll fuel matchComment protectComment s comments)
          as [tail comments''] eqn:Htail.
        simplify_eq.
        assert (includes (lit "___COMMENT_PLACEHOLDER___") s = false)
          as Hrest by (by apply (includes_app _ [c]) in Hs).
        destruct (IH _ _ _ _ Hrest Htail) as [Hnew Hrestore].
        split; [done|]. intros later [|fuel'] Hlen; [lia|].
        cbn [replaceAll].
        pose proof (matchPlaceholder_copied fuel s comments [c]
                      ltac:(done) Hs) as Hnone.
        rewrite Htail in Hnone. cbn [fst app] in Hnone. rewrite Hnone.
        rewrite Hrestore; [done|]. cbn [length] in Hlen. lia.
Qed.

(** X11. Markup whose text outside comments has no ideograph, and which
    does not hold the placeholder literal, is returned by
    [convertTemplate] exactly as it is, comments included, and the state
    is left as it was: nothing is looked up and nothing is recorded.
    Without a comment opener the text outside comments is the markup
    itself. *)
Theorem markup_without_chinese templateContent st :
  includes (lit "___COMMENT_PLACEHOLDER___") templateContent = false ->
  noChinese (outsideComments templateContent) ->
  convertTemplate templateContent st = (templateContent, st) /\
  (includes (lit "<!--") templateContent = false ->
   outsideComments templateContent = templateContent).
Proof.
  intros Hplaceholder Hs. split.
  - unfold convertTemplate. destruct templateContent as [|c s]; [done|].
    unfold outsideComments in Hs.
    destruct (replace matchComment protectComment (c :: s) [])
      as [r0 comments] eqn:H0.
    cbn [fst] in Hs.
    pose proof (passes_noChinese r0 st Hs) as Hpasses.
    destruct (replace matchInterpolatedString _ r0 st) as [r1 st1].
    destruct (replace matchInterpolatedTemplate _ r1 st1) as [r2 st2].
    destruct (replace matchTextNode _ r2 st2) as [r3 st3].
    destruct (replace matchStaticAttribute _ r3 st3) as [r4 st4].
    destruct (replace matchBoundLiteral _ r4 st4) as [r5 st5].
    destruct (replace matchBoundTemplate _ r5 st5) as [r6 st6].
    destruct (Hpasses r6 st6 eq_refl) as [-> ->].
    destruct (restore_protect _ _ _ _ _ Hplaceholder H0) as [_ Hrestore].
    specialize (Hrestore [] (S (length r0)) ltac:(lia)).
    rewrite app_nil_r in Hrestore. unfold replace. by rewrite Hrestore.
  - intros Hcomment. unfold outsideComments, replace.
    by rewrite (replaceAll_absent (lit "<!--") _ _ matchComment_absent).
Qed.

Lemma markup_without_chinese_witness :
  convertTemplate
    (lit "<!-- " ++ [0x6CE8; 0x91CA] ++ lit " --><p class='a'>{{ msg }}</p>")
    initialState =
  (lit "<!-- " ++ [0x6CE8; 0x91CA] ++ lit " --><p class='a'>{{ msg }}</p>",
   initialState).
Proof.
  apply markup_without_chinese.
  - vm_compute. reflexivity.
  - vm_compute. reflexivity.
Defined.

(** X12. Pass 6 of [convertTemplate] undoes pass 0: for markup that does
    not hold the placeholder literal, replacing every comment by its
    numbered placeholder and then every placeholder by the stored comment
    gives back the markup. *)
Theorem comments_restored templateContent :
  includes (lit "___COMMENT_PLACEHOLDER___") templateContent = false ->
  let '(result, comments) :=
    replace matchComment protectComment templateContent [] in
  replace matchPlaceholder (restoreComment comments) result tt =
    (templateContent, tt).
Proof.
  intros Hplaceholder.
  destruct (replace matchComment protectComment templateContent [])
    as [r0 comments] eqn:H0.
  destruct (restore_protect _ _ _ _ _ Hplaceholder H0) as [_ Hrestore].
  specialize (Hrestore [] (S (length r0)) ltac:(lia)).
  by rewrite app_nil_r in Hrestore.
Qed.

Lemma comments_restored_witness :
  replace matchPlaceholder
    (restoreComment [lit "<!--a-->"; lit "<!--b-->"])
    (lit "___COMMENT_PLACEHOLDER___0___x___COMMENT_PLACEHOLDER___1___") tt =
  (lit "<!--a-->x<!--b-->", tt).
Proof.
  apply (comments_restored (lit "<!--a-->x<!--b-->")).
  vm_compute. reflexivity.
Defined.

(** ** parser.js: the component put together again *)

Lemma findFrom_found search s :
  forall i r,
    findFrom search s i = Some r ->
    exists k, r = (i + k)%nat /\ (k <= length s)%nat /\
              startsWith search (drop k s) = true.
Proof.
  induction s as [|c s IH]; intros i r H; cbn [findFrom] in H.
  - destruct (startsWith search []) eqn:Hs; [|done]. simplify_eq.
    exists 0%nat. split_and!; [lia|done|done].
  - destruct (startsWith search (c :: s)) eqn:Hs.
    + simplify_eq. exists 0%nat. split_and!; [lia|cbn; lia|done].
    + destruct (IH _ _ H) as (k & -> & Hk & Hd).
      exists (S k). split_and!; [lia|cbn; lia|done].
Qed.

(** An index answered by [indexOf] is one where the text occurs, at or
    after the position. *)
Lemma indexOf_found search s position i :
  indexOf search s position = Z.of_nat i ->
  (clampIndex s position <= i)%nat /\
  (i + length search <= length s)%nat /\
  s = take i s ++ search ++ drop (i + length search) s.
Proof.
  unfold indexOf. intros H.
  destruct (findFrom search (drop (clampIndex s position) s)
              (clampIndex s position)) as [r|] eqn:Hf; [|lia].
  assert (r = i) as -> by lia.
  destruct (findFrom_found _ _ _ _ Hf) as (k & -> & Hk & Hs).
  rewrite drop_drop in Hs. pose proof (startsWith_length _ _ Hs) as Hl.
  rewrite length_drop in Hl, Hk.
  apply startsWith_app in Hs. rewrite drop_drop in Hs.
  split_and!; [lia| |].
  - assert (clampIndex s position <= length s)%nat by (unfold clampIndex; lia).
    destruct (decide (length search = 0)%nat); lia.
  - rewrite <- Hs. by rewrite take_drop.
Qed.

Lemma clampIndex_nat s (i : nat) :
  (i <= length s)%nat -> clampIndex s (Z.of_nat i) = i.
Proof. unfold clampIndex. lia. Qed.

Lemma clampIndex_negative s i : (i <= 0)%Z -> clampIndex s i = 0%nat.
Proof. unfold clampIndex. lia. Qed.

Lemma substring_nat s (i j : nat) :
  (i <= j)%nat -> (j <= length s)%nat ->
  substring s (Z.of_nat i) (Z.of_nat j) = take (j - i) (drop i s).
Proof.
  intros Hij Hj. unfold substring.
  rewrite !clampIndex_nat by lia.
  by rewrite Nat.max_r, Nat.min_l by lia.
Qed.

Lemma substringFrom_nat s (i : nat) :
  (i <= length s)%nat -> substringFrom s (Z.of_nat i) = drop i s.
Proof.
  intros Hi. unfold substringFrom. rewrite substring_nat by lia.
  apply take_ge. rewrite length_drop. lia.
Qed.

Lemma indexOf_cases search s position :
  indexOf search s position = (-1)%Z \/
  exists i, indexOf search s position = Z.of_nat i.
Proof.
  unfold indexOf. destruct (findFrom _ _ _) as [i|]; [right; by exists i|by left].
Qed.

Section ParseVueFileFacts.

Variable sfcParse : jsstring -> option descriptor.
Variable parse : jsstring -> option node.
Variable printCode : node -> jsstring.
Variable print : jsstring -> node -> jsstring.

(** The result when both blocks are present and found. *)
Lemma parseVueFile_found source d tpl scr ts ss st :
  sfcParse source = Some d ->
  template d = Some tpl ->
  scriptBlockOf d = Some scr ->
  indexOf tpl source 0 = Z.of_nat ts ->
  indexOf scr source (Z.of_nat (ts + length tpl)) = Z.of_nat ss ->
  parseVueFile sfcParse parse printCode print source st =
    let '(tpl', st1) := convertTemplate tpl st in
    let '(scr', st2) := convertScript parse printCode print scr st1 in
    (Returned (take ts source ++ tpl'
                 ++ take (ss - (ts + length tpl)) (drop (ts + length tpl) source)
                 ++ scr' ++ drop (ss + length scr) source), st2).
Proof.
  intros Hparse Ht Hs Hts Hss. unfold parseVueFile.
  rewrite Hparse, Ht. fold (scriptBlockOf d). rewrite Hs.
  destruct (convertTemplate tpl st) as [tpl' st1].
  destruct (convertScript parse printCode print scr st1) as [scr' st2].
  rewrite Hts. rewrite <- Nat2Z.inj_add, Hss.
  destruct (indexOf_found _ _ _ _ Hts) as (_ & Hlt & _).
  destruct (indexOf_found _ _ _ _ Hss) as (Hge & Hls & _).
  rewrite clampIndex_nat in Hge by lia.
  change 0%Z with (Z.of_nat 0).
  rewrite !substring_nat by lia. rewrite <- Nat2Z.inj_add.
  rewrite substringFrom_nat by lia.
  rewrite drop_0, Nat.sub_0_r. by rewrite <- !app_assoc.
Qed.

End ParseVueFileFacts.

Lemma drop_two (a b c : jsstring) :
  drop (length a + length b) (a ++ b ++ c) = c.
Proof. by rewrite app_assoc, <- length_app, drop_app_length. Qed.

(** X13. [parseVueFile] puts the component together again around its two
    blocks: when the template content and the script content are found
    where they stand (the first occurrence of each, the script looked for
    after the template), the result is the source with the template
    content replaced by the result of [convertTemplate] and the script
    content by the result of [convertScript], run in this order on the
    same state; everything before, between and after the two blocks is
    copied as it is. *)
Theorem parseVueFile_reassembles sfcParse parse printCode print
    before tpl middle scr after d st :
  let source := before ++ tpl ++ middle ++ scr ++ after in
  sfcParse source = Some d ->
  template d = Some tpl ->
  scriptBlockOf d = Some scr ->
  indexOf tpl source 0 = Z.of_nat (length before) ->
  indexOf scr source (Z.of_nat (length before + length tpl)) =
    Z.of_nat (length before + length tpl + length middle) ->
  parseVueFile sfcParse parse printCode print source st =
    let '(tpl', st1) := convertTemplate tpl st in
    let '(scr', st2) := convertScript parse printCode print scr st1 in
    (Returned (before ++ tpl' ++ middle ++ scr' ++ after), st2).
Proof.
  intros source Hparse Ht Hs Hts Hss.
  rewrite (parseVueFile_found _ _ _ _ _ _ _ _ _ _ st Hparse Ht Hs Hts Hss).
  destruct (convertTemplate tpl st) as [tpl' st1].
  destruct (convertScript parse printCode print scr st1) as [scr' st2].
  unfold source. rewrite take_app_length.
  replace (length before + length tpl + length middle
           - (length before + length tpl))%nat with (length middle) by lia.
  rewrite drop_two, take_app_length.
  replace (length before + length tpl + length middle + length scr)%nat
    with ((length before + length tpl) + (length middle + length scr))%nat
    by lia.
  by rewrite <- drop_drop, !drop_two.
Qed.

Lemma parseVueFile_reassembles_witness :
  parseVueFile sampleSfc sampleParse samplePrint sampleReprint templateFirst
               skipRun =
    (Returned
       (lit "<template><p>{{ $t('common.delete') }}</p></template>"
          ++ lit "<script>$i18n.t(" ++ [quote] ++ lit "common.delete"
          ++ [quote] ++ lit ")</script>"),
     skipRun).
Proof.
  etrans.
  - apply (parseVueFile_reassembles sampleSfc sampleParse samplePrint
             sampleReprint (lit "<template>") sampleTemplate
             (lit "</template><script>") sampleScript (lit "</script>")
             {| template := Some sampleTemplate; script := Some sampleScript;
                scriptSetup := None |} skipRun).
    + vm_compute. reflexivity.
    + vm_compute. reflexivity.
    + vm_compute. reflexivity.
    + vm_compute. reflexivity.
    + vm_compute. reflexivity.
  - vm_compute. reflexivity.
Defined.

(** X14. [parseVueFile] returns the source exactly as it is, in the same
    state, when each block that is present is found in the source (the
    script at or after the end of the template) and is returned unchanged
    by its converter. *)
Theorem parseVueFile_unchanged sfcParse parse printCode print source d st :
  sfcParse source = Some d ->
  (forall tpl,
      template d = Some tpl ->
      indexOf tpl source 0 <> (-1)%Z /\ convertTemplate tpl st = (tpl, st)) ->
  (forall scr,
      scriptBlockOf d = Some scr ->
      indexOf scr source
        (match template d with
         | Some tpl => indexOf tpl source 0 + Z.of_nat (length tpl)
         | None => 0
         end) <> (-1)%Z /\
      convertScript parse printCode print scr st = (scr, st)) ->
  parseVueFile sfcParse parse printCode print source st = (Returned source, st).
Proof.
  intros Hparse Htpl Hscr.
  destruct (template d) as [tpl|] eqn:Ht;
    destruct (scriptBlockOf d) as [scr|] eqn:Hs.
  - destruct (Htpl _ eq_refl) as [Hfound Hsame].
    destruct (indexOf_cases tpl source 0) as [|[ts Hts]]; [done|].
    destruct (Hscr _ eq_refl) as [Hfound' Hsame']. rewrite Hts in Hfound'.
    rewrite <- Nat2Z.inj_add in Hfound'.
    destruct (indexOf_cases scr source (Z.of_nat (ts + length tpl)))
      as [|[ss Hss]]; [done|].
    rewrite (parseVueFile_found _ _ _ _ _ _ _ _ _ _ st Hparse Ht Hs Hts Hss).
    rewrite Hsame, Hsame'. f_equal. f_equal.
    destruct (indexOf_found _ _ _ _ Hts) as (_ & Hlt & Heq).
    destruct (indexOf_found _ _ _ _ Hss) as (Hge & Hls & Heq').
    rewrite clampIndex_nat in Hge by lia.
    assert (take (ts + length tpl) source = take ts source ++ tpl) as Hci.
    { rewrite Heq at 1. rewrite app_assoc. apply take_app_length'.
      rewrite length_app, length_take. lia. }
    assert (take ss source =
            take (ts + length tpl) source
              ++ take (ss - (ts + length tpl)) (drop (ts + length tpl) source))
      as Hss'.
    { rewrite take_take_drop. f_equal. lia. }
    rewrite app_assoc, <- Hci, (app_assoc (take (ts + length tpl) source)).
    rewrite <- Hss'. symmetry. exact Heq'.
  - destruct (Htpl _ eq_refl) as [Hfound Hsame].
    destruct (indexOf_cases tpl source 0) as [|[ts Hts]]; [done|].
    destruct (indexOf_found _ _ _ _ Hts) as (_ & Hlt & Heq).
    unfold parseVueFile. rewrite Hparse, Ht. fold (scriptBlockOf d).
    rewrite Hs, Hsame, Hts. rewrite <- Nat2Z.inj_add.
    change 0%Z with (Z.of_nat 0). rewrite substring_nat by lia.
    rewrite substringFrom_nat by lia.
    rewrite drop_0, Nat.sub_0_r, <- app_assoc. by rewrite <- Heq.
  - destruct (Hscr _ eq_refl) as [Hfound Hsame].
    destruct (indexOf_cases scr source 0) as [|[ss Hss]]; [done|].
    destruct (indexOf_found _ _ _ _ Hss) as (_ & Hls & Heq).
    unfold parseVueFile. rewrite Hparse, Ht. fold (scriptBlockOf d).
    rewrite Hs, Hsame, Hss. rewrite <- Nat2Z.inj_add.
    change 0%Z with (Z.of_nat 0). rewrite substring_nat by lia.
    rewrite substringFrom_nat by lia.
    rewrite drop_0, Nat.sub_0_r. cbn [app]. rewrite <- app_assoc.
    by rewrite <- Heq.
  - unfold parseVueFile. rewrite Hparse, Ht. fold (scriptBlockOf d).
    rewrite Hs. change 0%Z with (Z.of_nat 0).
    rewrite substringFrom_nat by lia. by rewrite drop_0.
Qed.

Lemma parseVueFile_unchanged_witness :
  parseVueFile sampleSfc sampleParse samplePrint sampleReprint
    (lit "<template><p>ok</p></template><script>" ++ plainSource
       ++ lit "</script>") initialState =
  (Returned (lit "<template><p>ok</p></template><script>" ++ plainSource
               ++ lit "</script>"), initialState).
Proof.
  apply (parseVueFile_unchanged sampleSfc sampleParse samplePrint
           sampleReprint _
           {| template := Some (lit "<p>ok</p>"); script := Some plainSource;
              scriptSetup := None |}).
  - vm_compute. reflexivity.
  - intros tpl H. injection H as <-. split.
    + vm_compute. discriminate.
    + vm_compute. reflexivity.
  - intros scr H. injection H as <-. split.
    + vm_compute. discriminate.
    + vm_compute. reflexivity.
Defined.

Lemma substringFrom_drop s i : substringFrom s i = drop (Z.to_nat i) s.
Proof.
  unfold substringFrom, substring.
  rewrite (clampIndex_nat s (length s)) by lia.
  assert (clampIndex s i <= length s)%nat as Hle by (unfold clampIndex; lia).
  rewrite Nat.max_r, Nat.min_l by lia.
  rewrite take_ge by (rewrite length_drop; lia).
  destruct (decide (Z.to_nat i <= length s)%nat) as [Hi|Hi].
  - f_equal. unfold clampIndex. lia.
  - rewrite !drop_ge; [done|lia|unfold clampIndex; lia].
Qed.

(** X15. When the script content is not found at or after the end of the
    template content, as in a component whose script block stands before
    its template block, [parseVueFile] does not fail and does not put the
    component together again: after the converted template it copies the
    source from its start up to the end of the template content a second
    time, then the converted script, then the source from the index that
    is the length of the script content less one. *)
Theorem parseVueFile_script_not_found sfcParse parse printCode print
    source d tpl scr ts st :
  sfcParse source = Some d ->
  template d = Some tpl ->
  scriptBlockOf d = Some scr ->
  indexOf tpl source 0 = Z.of_nat ts ->
  indexOf scr source (Z.of_nat (ts + length tpl)) = (-1)%Z ->
  parseVueFile sfcParse parse printCode print source st =
    let '(tpl', st1) := convertTemplate tpl st in
    let '(scr', st2) := convertScript parse printCode print scr st1 in
    (Returned (take ts source ++ tpl' ++ take (ts + length tpl) source
                 ++ scr' ++ drop (length scr - 1) source), st2).
Proof.
  intros Hparse Ht Hs Hts Hss. unfold parseVueFile.
  rewrite Hparse, Ht. fold (scriptBlockOf d). rewrite Hs.
  destruct (convertTemplate tpl st) as [tpl' st1].
  destruct (convertScript parse printCode print scr st1) as [scr' st2].
  rewrite Hts. rewrite <- Nat2Z.inj_add, Hss.
  destruct (indexOf_found _ _ _ _ Hts) as (_ & Hlt & _).
  change 0%Z with (Z.of_nat 0). rewrite substring_nat by lia.
  rewrite substringFrom_drop. unfold substring.
  rewrite clampIndex_nat by lia. rewrite clampIndex_negative by lia.
  rewrite Nat.max_l, Nat.min_r by lia.
  rewrite !drop_0, !Nat.sub_0_r.
  replace (Z.to_nat (-1 + Z.of_nat (length scr))) with (length scr - 1)%nat
    by lia.
  by rewrite <- !app_assoc.
Qed.

Lemma parseVueFile_script_not_found_witness :
  parseVueFile sampleSfc sampleParse samplePrint sampleReprint scriptFirst
               skipRun =
    (Returned
       (lit "<script>" ++ sampleScript ++ lit "</script><template>"
          ++ lit "<p>{{ $t('common.delete') }}</p>"
          ++ lit "<script>" ++ sampleScript ++ lit "</script><template>"
          ++ sampleTemplate
          ++ lit "$i18n.t(" ++ [quote] ++ lit "common.delete" ++ [quote]
          ++ lit ")"
          ++ lit "ript>" ++ sampleScript ++ lit "</script><template>"
          ++ sampleTemplate ++ lit "</template>"),
     skipRun).
Proof.
  etrans.
  - apply (parseVueFile_script_not_found sampleSfc sampleParse samplePrint
             sampleReprint scriptFirst
             {| template := Some sampleTemplate; script := Some sampleScript;
                scriptSetup := None |} sampleTemplate sampleScript 31 skipRun).
    + vm_compute. reflexivity.
    + vm_compute. reflexivity.
    + vm_compute. reflexivity.
    + vm_compute. reflexivity.
    + vm_compute. reflexivity.
  - vm_compute. reflexivity.
Defined.

(** ** utils.js: the report of unmatched texts *)

(** The four replacements together escape each character on its own: no
    replacement touches what an earlier one has written. *)
Lemma escapeText_app a b : escapeText (a ++ b) = escapeText a ++ escapeText b.
Proof. unfold escapeText, replaceChar. by rewrite !flat_map_app. Qed.

Lemma escapeText_one c : escapeText [c] = escapeChar c.
Proof.
  unfold escapeChar.
  destruct (c =? backslash) eqn:H1; [by apply N.eqb_eq in H1 as ->|].
  destruct (c =? lineFeed) eqn:H2; [by apply N.eqb_eq in H2 as ->|].
  destruct (c =? carriageReturn) eqn:H3; [by apply N.eqb_eq in H3 as ->|].
  destruct (c =? tab) eqn:H4; [by apply N.eqb_eq in H4 as ->|].
  unfold escapeText, replaceChar. cbn [flat_map]. rewrite H1. cbn.
  rewrite H2. cbn. rewrite H3. cbn. by rewrite H4.
Qed.

Lemma escapeText_chars text : escapeText text = flat_map escapeChar text.
Proof.
  induction text as [|c text IH]; [done|].
  change (c :: text) with ([c] ++ text).
  by rewrite escapeText_app, escapeText_one, IH.
Qed.

Lemma escapeChar_visible c :
  Forall (fun x => x <> lineFeed /\ x <> carriageReturn /\ x <> tab)
         (escapeChar c).
Proof.
  unfold escapeChar.
  destruct (c =? backslash) eqn:H1; [by repeat constructor|].
  destruct (c =? lineFeed) eqn:H2; [by repeat constructor|].
  destruct (c =? carriageReturn) eqn:H3; [by repeat constructor|].
  destruct (c =? tab) eqn:H4; [by repeat constructor|].
  apply N.eqb_neq in H2, H3, H4. by repeat constructor.
Qed.

Lemma escapeChar_cases c :
  (escapeChar c = [c] /\ c <> backslash) \/
  (exists x, escapeChar c = [backslash; x] /\
             forall c', escapeChar c' = [backslash; x] -> c' = c).
Proof.
  assert (forall c' x, escapeChar c' = [backslash; x] ->
            (c' = backslash /\ x = backslash) \/
            (c' = lineFeed /\ x = 0x6E) \/
            (c' = carriageReturn /\ x = 0x72) \/
            (c' = tab /\ x = 0x74)) as Hinv.
  { intros c' x. unfold escapeChar.
    destruct (c' =? backslash) eqn:H1;
      [apply N.eqb_eq in H1; intros ?; simplify_eq; auto|].
    destruct (c' =? lineFeed) eqn:H2;
      [apply N.eqb_eq in H2; intros ?; simplify_eq; auto|].
    destruct (c' =? carriageReturn) eqn:H3;
      [apply N.eqb_eq in H3; intros ?; simplify_eq; auto|].
    destruct (c' =? tab) eqn:H4;
      [apply N.eqb_eq in H4; intros ?; simplify_eq; auto 6|].
    done. }
  unfold escapeChar.
  destruct (c =? backslash) eqn:H1.
  { apply N.eqb_eq in H1 as ->. right. exists backslash. split; [done|].
    intros c' H. by destruct (Hinv _ _ H) as [[? ?]|[[? ?]|[[? ?]|[? ?]]]]. }
  destruct (c =? lineFeed) eqn:H2.
  { apply N.eqb_eq in H2 as ->. right. exists 0x6E. split; [done|].
    intros c' H. by destruct (Hinv _ _ H) as [[? ?]|[[? ?]|[[? ?]|[? ?]]]]. }
  destruct (c =? carriageReturn) eqn:H3.
  { apply N.eqb_eq in H3 as ->. right. exists 0x72. split; [done|].
    intros c' H. by destruct (Hinv _ _ H) as [[? ?]|[[? ?]|[[? ?]|[? ?]]]]. }
  destruct (c =? tab) eqn:H4.
  { apply N.eqb_eq in H4 as ->. right. exists 0x74. split; [done|].
    intros c' H. by destruct (Hinv _ _ H) as [[? ?]|[[? ?]|[[? ?]|[? ?]]]]. }
  left. split; [done|]. by apply N.eqb_neq.
Qed.

Lemma escapeChar_inj text1 :
  forall text2,
    flat_map escapeChar text1 = flat_map escapeChar text2 -> text1 = text2.
Proof.
  induction text1 as [|c1 text1 IH]; intros [|c2 text2] H; cbn in H.
  - done.
  - destruct (escapeChar_cases c2) as [[Hc _]|(x & Hc & _)];
      rewrite Hc in H; done.
  - destruct (escapeChar_cases c1) as [[Hc _]|(x & Hc & _)];
      rewrite Hc in H; done.
  - destruct (escapeChar_cases c1) as [[H1 Hn1]|(x1 & H1 & Hu1)];
      destruct (escapeChar_cases c2) as [[H2 Hn2]|(x2 & H2 & Hu2)];
      rewrite H1, H2 in H; cbn in H; simplify_eq.
    + f_equal. by apply IH.
    + rewrite (Hu1 _ H2). f_equal. by apply IH.
Qed.

Lemma joinWith_lines {A} (f : A -> jsstring) sep x l :
  joinWith sep (map f (x :: l)) ++ sep =
    concat (map (fun y => f y ++ sep) (x :: l)).
Proof.
  revert x. induction l as [|y l IH]; intros x.
  - cbn. by rewrite app_nil_r.
  - change (joinWith sep (map f (x :: y :: l)))
      with (f x ++ sep ++ joinWith sep (map f (y :: l))).
    rewrite <- !app_assoc, IH. cbn. by rewrite <- !app_assoc.
Qed.

(** X16. [saveUnmatchedKeys] writes nothing when no text is unmatched.
    Otherwise it appends the header and one line for each unmatched text,
    in the order in which the texts were recorded: the text between two
    apostrophes, escaped.  An escaped text holds no line feed, carriage
    return or tab, so each text takes exactly one line whatever it
    holds, and two different texts are never written as the same line. *)
Theorem saveUnmatchedKeys_lines timestamp st nomatch :
  (unmatchedTexts st = [] ->
   saveUnmatchedKeys timestamp st nomatch = nomatch) /\
  (unmatchedTexts st <> [] ->
   saveUnmatchedKeys timestamp st nomatch =
     nomatch ++ reportHeader timestamp (length (unmatchedTexts st))
       ++ concat (map (fun text => ([apostrophe] ++ escapeText text
                                      ++ [apostrophe]) ++ [lineFeed])
                      (unmatchedTexts st))) /\
  (forall text,
      Forall (fun c => c <> lineFeed /\ c <> carriageReturn /\ c <> tab)
             (escapeText text)) /\
  (forall text1 text2, escapeText text1 = escapeText text2 -> text1 = text2).
Proof.
  split_and!.
  - unfold saveUnmatchedKeys. by intros ->.
  - unfold saveUnmatchedKeys. intros Hne.
    destruct (unmatchedTexts st) as [|text texts]; [done|].
    by rewrite joinWith_lines.
  - intros text. rewrite escapeText_chars.
    induction text as [|c text IH]; [constructor|].
    cbn [flat_map]. apply Forall_app. split; [apply escapeChar_visible|done].
  - intros text1 text2. rewrite !escapeText_chars. apply escapeChar_inj.
Qed.

(** ** parser.js: one run *)

Lemma parseVueFile_keeps (I : state -> Prop) sfcParse parse printCode print
    source st :
  (forall chineseText st, I st -> I (getKeyForChinese chineseText st).2) ->
  I st -> I (parseVueFile sfcParse parse printCode print source st).2.
Proof.
  intros Hres Hst. unfold parseVueFile.
  destruct (sfcParse source) as [d|]; [|done].
  destruct (template d) as [tpl|].
  - pose proof (convertTemplate_keeps I Hres tpl st Hst) as H1.
    destruct (convertTemplate tpl st) as [tpl' st1].
    destruct (match script d with Some b => Some b | None => scriptSetup d end)
      as [scr|]; [|done].
    pose proof (convertScript_keeps I Hres printCode parse print scr st1 H1)
      as H2.
    by destruct (convertScript parse printCode print scr st1).
  - destruct (match script d with Some b => Some b | None => scriptSetup d end)
      as [scr|]; [|done].
    pose proof (convertScript_keeps I Hres printCode parse print scr st Hst)
      as H2.
    by destruct (convertScript parse printCode print scr st).
Qed.

(** X17. One run of [convertVueFile] on an existing component starts from
    an empty set of unmatched texts, with the options and the language
    pack of the run.  At its end every recorded text is one that
    resolution misses under these options and this pack, and no text is
    recorded twice; the dictionary and the options are those the run
    started with.  When the Vue parser reports errors, the component and
    nomatch.txt are left as they were; otherwise the report of the
    recorded texts is appended to nomatch.txt. *)
Theorem convertVueFile_report sfcParse parse printCode print filePath pack
    skip path timestamp source nomatch st :
  endsWith (lit ".vue") filePath = true ->
  let start :=
    usePack pack (setConvertOptions skip path (resetUnmatchedTexts st)) in
  let '(content, nomatch', st') :=
    convertVueFile sfcParse parse printCode print filePath true pack skip
                   path timestamp source nomatch st in
  unmatchedTexts start = [] /\
  recordsMissesOf start st' /\
  NoDup (unmatchedTexts st') /\
  (sfcParse source = None -> content = source /\ nomatch' = nomatch) /\
  (sfcParse source <> None ->
   nomatch' = saveUnmatchedKeys timestamp st' nomatch).
Proof.
  intros Hvue start. unfold convertVueFile. rewrite Hvue. cbn [negb].
  fold start.
  assert (unmatchedTexts start = []) as Hempty by (by destruct pack).
  pose proof (parseVueFile_keeps (recordsMissesOf start) sfcParse parse
                printCode print source start
                (recordsMissesOf_resolution start)
                (recordsMissesOf_refl start)) as Hrun.
  assert (forall r, (parseVueFile sfcParse parse printCode print source start).1
                    = r -> sfcParse source = None -> r = Thrown) as Hthrown.
  { intros r <- Hnone. unfold parseVueFile. by rewrite Hnone. }
  assert (forall r, (parseVueFile sfcParse parse printCode print source start).1
                    = r -> sfcParse source <> None -> r <> Thrown) as Hreturned.
  { intros r <-. unfold parseVueFile.
    destruct (sfcParse source); [|done]. intros _. by repeat case_match. }
  destruct (parseVueFile sfcParse parse printCode print source start)
    as [[content|] st'].
  - cbn [snd fst] in *. split_and!; [done|done| | |done].
    + destruct Hrun as (_ & _ & Hnd & _). apply Hnd. rewrite Hempty.
      constructor.
    + intros Hnone. by specialize (Hthrown _ eq_refl Hnone).
  - cbn [snd fst] in *. split_and!; [done|done| |done|].
    + destruct Hrun as (_ & _ & Hnd & _). apply Hnd. rewrite Hempty.
      constructor.
    + intros Hsome. by destruct (Hreturned _ eq_refl Hsome).
Qed.

Lemma convertVueFile_report_witness :
  let '(content, nomatch', st') :=
    convertVueFile sampleSfc sampleParse samplePrint sampleReprint
                   (lit "a.vue") true PackMissing true None [] templateFirst
                   [] initialState in
  NoDup (unmatchedTexts st').
Proof.
  pose proof (convertVueFile_report sampleSfc sampleParse samplePrint
                sampleReprint (lit "a.vue") PackMissing true None []
                templateFirst [] initialState) as H.
  cbv zeta in H. revert H.
  destruct (convertVueFile _ _ _ _ _ _ _ _ _ _ _ _ _) as [[content nomatch'] st'].
  intros H. apply H. vm_compute. reflexivity.
Defined.

(** ** The earlier version of the visitor *)

Lemma legacy_visitLiteral_in_console fuel p value st :
  isInConsoleCall p = true ->
  Legacy.visitLiteral fuel p value st = (StringLiteral value, st).
Proof.
  intros H. destruct fuel; cbn [Legacy.visitLiteral]; by rewrite H.
Qed.

Section LegacyFacts.

Variable printCode : node -> jsstring.

Lemma legacy_visit_in_console n :
  forall p st,
    isInConsoleCall p = true ->
    Legacy.visit printCode p n st = (Returned n, st).
Proof.
  induction n as [name|value|raw|quasis expressions IH|operator l r IHl IHr
                 |callee arguments IHc IHa|object property IHo IHp
                 |properties IH|key value IHk IHv|type children IH]
    using node_forall_ind; intros p st Hp.
  - done.
  - cbn [Legacy.visit]. by rewrite legacy_visitLiteral_in_console.
  - done.
  - cbn [Legacy.visit]. rewrite Hp. unfold bind.
    rewrite visitAll_unchanged; [done|].
    eapply Forall_impl; [exact IH|]. cbn. intros n Hn st'.
    apply Hn. by apply isInConsoleCall_cons.
  - cbn [Legacy.visit]. unfold bind.
    rewrite IHl by by apply isInConsoleCall_cons.
    rewrite IHr by by apply isInConsoleCall_cons. done.
  - cbn [Legacy.visit]. unfold bind.
    rewrite IHc by by apply isInConsoleCall_cons.
    rewrite visitAll_unchanged; [done|].
    eapply Forall_impl; [exact IHa|]. cbn. intros n Hn st'.
    apply Hn. by apply isInConsoleCall_cons.
  - cbn [Legacy.visit]. unfold bind.
    rewrite IHo by by apply isInConsoleCall_cons.
    rewrite IHp by by apply isInConsoleCall_cons. done.
  - cbn [Legacy.visit]. unfold bind. rewrite visitAll_unchanged; [done|].
    eapply Forall_impl; [exact IH|]. cbn. intros n Hn st'.
    apply Hn. by apply isInConsoleCall_cons.
  - cbn [Legacy.visit]. unfold bind.
    rewrite IHk by by apply isInConsoleCall_cons.
    rewrite IHv by by apply isInConsoleCall_cons. done.
  - cbn [Legacy.visit]. unfold bind. rewrite visitAll_unchanged; [done|].
    eapply Forall_impl; [exact IH|]. cbn. intros n Hn st'.
    apply Hn. by apply isInConsoleCall_cons.
Qed.

End LegacyFacts.

(** X18. In the earlier version of the visitor too, every node below a
    call whose callee is a member of [console], at any depth, is returned
    as it is and the state is not touched: the whole call, its arguments
    and every string or template literal inside them stay unconverted. *)
Theorem legacy_console_call_untouched printCode property arguments frames p
    st n :
  let consoleCallee := MemberExpression (Identifier (lit "console")) property in
  Legacy.visit printCode (frames ++ FCall consoleCallee :: p) n st =
    (Returned n, st) /\
  Legacy.visit printCode p (CallExpression consoleCallee arguments) st =
    (Returned (CallExpression consoleCallee arguments), st).
Proof.
  intros consoleCallee.
  assert (forall q, isInConsoleCall (q ++ FCall consoleCallee :: p) = true)
    as Hq.
  { intros q. unfold isInConsoleCall. rewrite existsb_app. cbn.
    apply orb_true_r. }
  split.
  - apply legacy_visit_in_console, Hq.
  - cbn [Legacy.visit]. unfold bind.
    rewrite (legacy_visit_in_console printCode consoleCallee
               (FCall consoleCallee :: p) st (Hq [])).
    rewrite visitAll_unchanged; [done|].
    apply Forall_forall. intros m _ st'.
    apply legacy_visit_in_console, (Hq []).
Qed.

Section LegacyInvariant.

Variable I : state -> Prop.
Hypothesis I_resolution :
  forall chineseText st, I st -> I (getKeyForChinese chineseText st).2.

Variable printCode : node -> jsstring.

Lemma legacy_visitLiteral_keeps fuel :
  forall p value st, I st -> I (Legacy.visitLiteral fuel p value st).2.
Proof.
  induction fuel as [|fuel IH]; intros p value st Hst;
    cbn [Legacy.visitLiteral]; repeat case_match; simplify_eq; try done;
    repeat match goal with
           | H : getKeyForChinese ?t ?s = (_, ?s') |- _ =>
             assert (I s') by
               (replace s' with (getKeyForChinese t s).2 by (by rewrite H);
                by apply I_resolution);
             clear H
           | H : Legacy.visitLiteral fuel ?q ?v ?s = (_, ?s') |- _ =>
             assert (I s') by
               (replace s' with (Legacy.visitLiteral fuel q v s).2
                  by (by rewrite H);
                by apply IH);
             clear H
           end; done.
Qed.

Lemma legacy_keeps_visitNewLiteral p value :
  keeps I (Legacy.visitNewLiteral p value).
Proof.
  intros st Hst. unfold Legacy.visitNewLiteral.
  pose proof (legacy_visitLiteral_keeps 1 p value st Hst).
  by destruct (Legacy.visitLiteral 1 p value st).
Qed.

Lemma legacy_keeps_traverseCall p key visitRest :
  (forall q, keeps I (visitRest q)) ->
  keeps I (Legacy.traverseCall p key visitRest).
Proof.
  intros Hrest. unfold Legacy.traverseCall.
  apply keeps_bind; [apply legacy_keeps_visitNewLiteral|]. intros key'.
  apply keeps_bind; [apply Hrest|]. intros rest'. apply keeps_ret.
Qed.

Lemma legacy_keeps_traversePlusColon p key colon visitRest :
  (forall q, keeps I (visitRest q)) ->
  keeps I (Legacy.traversePlusColon p key colon visitRest).
Proof.
  intros Hrest. unfold Legacy.traversePlusColon.
  apply keeps_bind; [by apply legacy_keeps_traverseCall|]. intros call'.
  apply keeps_bind; [apply legacy_keeps_visitNewLiteral|]. intros colon'.
  apply keeps_ret.
Qed.

Ltac keeps_children IH :=
  apply keeps_visitAll; eapply Forall_impl; [exact IH|]; cbn;
  intros ? Hchild; apply Hchild.

Lemma legacy_visit_keeps n :
  forall p, keeps I (Legacy.visit printCode p n).
Proof.
  induction n as [name|value|raw|quasis expressions IH|operator l r IHl IHr
                 |callee arguments IHc IHa|object property IHo IHp
                 |properties IH|key value IHk IHv|type children IH]
    using node_forall_ind; intros p.
  - apply keeps_ret.
  - intros st Hst. cbn [Legacy.visit].
    pose proof (legacy_visitLiteral_keeps 1 p value st Hst).
    by destruct (Legacy.visitLiteral 1 p value st).
  - apply keeps_ret.
  - assert (keeps I
              (let* expressions' :=
                 visitAll (Legacy.visit printCode (FOther :: p)) expressions in
               ret (TemplateLiteral quasis expressions'))%visit) as Htr.
    { apply keeps_bind; [keeps_children IH|]. intros ?. apply keeps_ret. }
    assert (forall q,
               keeps I
                 (let* properties' :=
                    visitProperties (Legacy.visit printCode) expressions
                      (params (extractTemplateVars
                                 (getTemplateString printCode quasis
                                    expressions))) q in
                  ret [ObjectExpression properties'])%visit) as Hrest.
    { intros q. apply keeps_bind; [|intros ?; apply keeps_ret].
      apply keeps_visitProperties.
      eapply Forall_impl; [exact IH|]. cbn. intros e He q'. apply He. }
    cbn [Legacy.visit]. repeat case_match; try apply Htr;
      (apply keeps_bind; [by apply keeps_resolveKey|]); intros [key|];
      try apply Htr; repeat case_match; try apply keeps_throw;
      first [ by apply legacy_keeps_traversePlusColon
            | by apply legacy_keeps_traverseCall
            | apply legacy_keeps_traversePlusColon; intros ?; apply keeps_ret
            | apply legacy_keeps_traverseCall; intros ?; apply keeps_ret ].
  - cbn [Legacy.visit]. apply keeps_bind; [apply IHl|]. intros ?.
    apply keeps_bind; [apply IHr|]. intros ?. apply keeps_ret.
  - cbn [Legacy.visit]. apply keeps_bind; [apply IHc|]. intros callee'.
    apply keeps_bind; [keeps_children IHa|]. intros ?. apply keeps_ret.
  - cbn [Legacy.visit]. apply keeps_bind; [apply IHo|]. intros ?.
    apply keeps_bind; [apply IHp|]. intros ?. apply keeps_ret.
  - cbn [Legacy.visit]. apply keeps_bind; [keeps_children IH|]. intros ?.
    apply keeps_ret.
  - cbn [Legacy.visit]. apply keeps_bind; [apply IHk|]. intros ?.
    apply keeps_bind; [apply IHv|]. intros ?. apply keeps_ret.
  - cbn [Legacy.visit]. apply keeps_bind; [keeps_children IH|]. intros ?.
    apply keeps_ret.
Qed.

End LegacyInvariant.

(** X19. The earlier version of [convertScript] fails soft and keeps the
    state in order: when the parser throws, or a visitor method throws,
    it returns the script as it was (an empty script is returned without
    being parsed); and whatever happens, the dictionary
    and the options are unchanged, the unmatched texts recorded before
    are kept in front and in order, no text is added twice, and every
    text added is one that [getKeyForChinese] misses. *)
Theorem legacy_convertScript_fail_soft printCode parse print scriptContent st :
  (parse scriptContent = None ->
   Legacy.convertScript printCode parse print scriptContent st =
     (scriptContent, st)) /\
  (forall ast st',
      scriptContent <> [] ->
      parse scriptContent = Some ast ->
      Legacy.visit printCode [] ast st = (Thrown, st') ->
      Legacy.convertScript printCode parse print scriptContent st =
        (scriptContent, st')) /\
  recordsMissesOf st
    (Legacy.convertScript printCode parse print scriptContent st).2.
Proof.
  split_and!.
  - intros Hp. unfold Legacy.convertScript. rewrite Hp.
    by destruct scriptContent.
  - intros ast st' Hne Hp Hv. unfold Legacy.convertScript. rewrite Hp, Hv.
    by destruct scriptContent.
  - unfold Legacy.convertScript. destruct scriptContent as [|c s].
    + apply recordsMissesOf_refl.
    + destruct (parse (c :: s)) as [ast|]; [|apply recordsMissesOf_refl].
      pose proof (legacy_visit_keeps (recordsMissesOf st)
                    (recordsMissesOf_resolution st) printCode ast [] st
                    (recordsMissesOf_refl st)) as Hv.
      by destruct (Legacy.visit printCode [] ast st) as [[ast'|] st'].
Qed.

(** ** index.js: the command line *)

Lemma isSkipFlag_not_file arg :
  Cli.isSkipFlag arg = true ->
  endsWith (lit ".vue") arg = false /\ endsWith (lit ".js") arg = false.
Proof.
  unfold Cli.isSkipFlag, jsEq. intros H.
  apply orb_prop in H as [H|H]; apply bool_decide_eq_true in H; by subst.
Qed.

Lemma isMatchFlag_not_skip arg :
  Cli.isMatchFlag arg = true -> Cli.isSkipFlag arg = false.
Proof.
  unfold Cli.isMatchFlag, jsEq. intros H.
  apply orb_prop in H as [H|H]; apply bool_decide_eq_true in H; by subst.
Qed.

(** The loop over arguments without the flag of the path to match. *)
Ltac parseLoop_IH IH Hplain :=
  match goal with
  | |- context [Cli.parseLoop _ ?a] =>
    destruct (IH a Hplain) as (-> & -> & -> & ->)
  end.

Lemma parseLoop_plain args :
  forall acc,
    forallb (fun arg => negb (Cli.isMatchFlag arg)) args = true ->
    Cli.filePath (Cli.parseLoop args acc) =
      match last (List.filter (endsWith (lit ".vue")) args) with
      | Some file => Some file
      | None => Cli.filePath acc
      end /\
    Cli.zhFilePath (Cli.parseLoop args acc) =
      match last (List.filter
                    (fun arg => negb (endsWith (lit ".vue") arg)
                                && endsWith (lit ".js") arg) args) with
      | Some file => Some file
      | None => Cli.zhFilePath acc
      end /\
    Cli.skipUnmatched (Cli.parseLoop args acc) =
      Cli.skipUnmatched acc || existsb Cli.isSkipFlag args /\
    Cli.matchPath (Cli.parseLoop args acc) = Cli.matchPath acc.
Proof.
  induction args as [|arg args IH]; intros acc Hplain.
  - cbn [Cli.parseLoop List.filter existsb last]. by rewrite orb_false_r.
  - cbn [forallb] in Hplain. apply andb_prop in Hplain as [Harg Hplain].
    apply negb_true_iff in Harg.
    cbn [Cli.parseLoop List.filter existsb]. rewrite Harg.
    destruct (Cli.isSkipFlag arg) eqn:Hskip.
    + destruct (isSkipFlag_not_file _ Hskip) as [-> ->]. cbn [negb andb].
      parseLoop_IH IH Hplain.
      cbn [Cli.filePath Cli.zhFilePath Cli.skipUnmatched Cli.matchPath].
      by rewrite orb_true_r.
    + destruct (endsWith (lit ".vue") arg) eqn:Hvue; cbn [negb andb].
      * parseLoop_IH IH Hplain.
      cbn [Cli.filePath Cli.zhFilePath Cli.skipUnmatched Cli.matchPath].
        rewrite ?last_cons. cbn [orb]. split_and!; try done;
          match goal with |- context [last ?l] => by destruct (last l) end.
      * destruct (endsWith (lit ".js") arg) eqn:Hjs.
        -- parseLoop_IH IH Hplain.
      cbn [Cli.filePath Cli.zhFilePath Cli.skipUnmatched Cli.matchPath].
           rewrite ?last_cons. cbn [orb]. split_and!; try done;
          match goal with |- context [last ?l] => by destruct (last l) end.
        -- by destruct (IH acc Hplain) as (-> & -> & -> & ->).
Qed.

Lemma parseLoop_app args :
  forall acc rest,
    forallb (fun arg => negb (Cli.isMatchFlag arg)) args = true ->
    Cli.parseLoop (args ++ rest) acc = Cli.parseLoop rest (Cli.parseLoop args acc).
Proof.
  induction args as [|arg args IH]; intros acc rest Hplain; [done|].
  cbn [forallb] in Hplain. apply andb_prop in Hplain as [Harg Hplain].
  apply negb_true_iff in Harg.
  cbn [Cli.parseLoop app]. rewrite Harg.
  repeat case_match; by apply IH.
Qed.

(** X20. The command line of index.js.  Among arguments that do not hold
    the flag of the path to match, the last one that ends in .vue is the
    file to convert and the last one that ends in .js, and not in .vue,
    is the language pack; the skip option is set when --skip-unmatched or
    -s occurs anywhere.  The argument after --match-path or -mp is taken as the path whatever it
    is, and is not read as a flag or as a file; a flag of the path to
    match that comes last is ignored; without a .vue file nothing is
    converted. *)
Theorem cli_arguments args acc :
  (forallb (fun arg => negb (Cli.isMatchFlag arg)) args = true ->
   Cli.filePath (Cli.parseLoop args acc) =
     match last (List.filter (endsWith (lit ".vue")) args) with
     | Some file => Some file
     | None => Cli.filePath acc
     end /\
   Cli.zhFilePath (Cli.parseLoop args acc) =
     match last (List.filter
                   (fun arg => negb (endsWith (lit ".vue") arg)
                               && endsWith (lit ".js") arg) args) with
     | Some file => Some file
     | None => Cli.zhFilePath acc
     end /\
   Cli.skipUnmatched (Cli.parseLoop args acc) =
     Cli.skipUnmatched acc || existsb Cli.isSkipFlag args /\
   Cli.matchPath (Cli.parseLoop args acc) = Cli.matchPath acc /\
   forall flag value rest,
     Cli.isMatchFlag flag = true ->
     Cli.parseLoop (args ++ flag :: value :: rest) acc =
       Cli.parseLoop rest
         {| Cli.filePath := Cli.filePath (Cli.parseLoop args acc);
            Cli.zhFilePath := Cli.zhFilePath (Cli.parseLoop args acc);
            Cli.skipUnmatched := Cli.skipUnmatched (Cli.parseLoop args acc);
            Cli.matchPath := Some value |}) /\
  (forall flag, Cli.isMatchFlag flag = true ->
                Cli.parseLoop [flag] acc = acc) /\
  (Cli.filePath (Cli.parseLoop args Cli.initial) = None ->
   Cli.main args = Cli.Usage \/ Cli.main args = Cli.MissingFile).
Proof.
  split_and!.
  - intros Hplain.
    destruct (parseLoop_plain args acc Hplain) as (H1 & H2 & H3 & H4).
    split_and!; [done|done|done|done|].
    intros flag value rest Hflag. rewrite parseLoop_app by done.
    cbn [Cli.parseLoop]. by rewrite (isMatchFlag_not_skip _ Hflag), Hflag.
  - intros flag Hflag. cbn [Cli.parseLoop].
    by rewrite (isMatchFlag_not_skip _ Hflag), Hflag.
  - intros Hnone. unfold Cli.main. destruct args; [by left|].
    rewrite Hnone. by right.
Qed.

(** ** The parameters of a template literal *)

Lemma untilBrace_capture e rest :
  rbrace ∉ e -> untilBrace (e ++ [rbrace] ++ rest) = Some (e, rest).
Proof.
  induction e as [|c e IH]; intros He.
  - done.
  - apply not_elem_of_cons in He as [Hc He]. cbn [app untilBrace].
    apply N.eqb_neq in Hc. rewrite N.eqb_sym in Hc. rewrite Hc.
    change (e ++ rbrace :: rest) with (e ++ [rbrace] ++ rest).
    by rewrite IH.
Qed.

Lemma matchVar_marker e rest :
  e <> [] -> rbrace ∉ e ->
  matchVar ([dollar; lbrace] ++ e ++ [rbrace] ++ rest) = Some (e, rest).
Proof.
  intros Hne He. cbn [app matchVar]. rewrite ?N.eqb_refl. cbn [andb].
  change (e ++ rbrace :: rest) with (e ++ [rbrace] ++ rest).
  rewrite untilBrace_capture by done. by destruct e.
Qed.

(** The units of a segment without an interpolation marker are scanned
    one by one when what follows is empty or starts with a dollar. *)
Lemma scanVars_segment cooked :
  forall fuel following,
    includes (lit "${") cooked = false ->
    match following with [] => True | c :: _ => c = dollar end ->
    (length cooked <= fuel)%nat ->
    scanVars fuel (cooked ++ following) =
      map PUnit cooked ++ scanVars (fuel - length cooked) following.
Proof.
  induction cooked as [|c cooked IH]; intros fuel following Hq Hf Hfuel.
  - cbn. by rewrite Nat.sub_0_r.
  - destruct fuel as [|fuel]; [cbn in Hfuel; lia|].
    cbn [includes] in Hq. apply orb_false_elim in Hq as [Hhead Htail].
    cbn [app scanVars length map].
    assert (matchVar (c :: cooked ++ following) = None) as ->.
    { unfold matchVar.
      destruct (cooked ++ following) as [|d s] eqn:Hs; [done|].
      destruct ((c =? dollar) && (d =? lbrace)) eqn:Hcd; [|done].
      apply andb_prop in Hcd as [Hc Hd].
      apply N.eqb_eq in Hc, Hd. subst c d.
      destruct cooked as [|d' cooked'].
      - cbn in Hs. subst following. by subst.
      - cbn in Hs. injection Hs as -> _. by vm_compute in Hhead. }
    cbn [Nat.sub]. f_equal. apply IH; [done|done|cbn in Hfuel; lia].
Qed.

Lemma scanVars_nil fuel : scanVars fuel [] = [].
Proof. by destruct fuel. Qed.

Section TemplateLiteralPieces.

Variable printCode : node -> jsstring.

(** The scan of the text of a template literal finds the segments and
    the expressions of the literal, when no segment holds a marker of its
    own and no printed expression is empty or holds a closing brace. *)
Lemma scanVars_literal quasis :
  forall expressions fuel,
    length quasis = S (length expressions) ->
    Forall (fun cooked => includes (lit "${") cooked = false) quasis ->
    Forall (fun e => printCode e <> [] /\ rbrace ∉ printCode e) expressions ->
    (length (getTemplateString printCode quasis expressions) < fuel)%nat ->
    scanVars fuel (getTemplateString printCode quasis expressions) =
      literalPieces printCode quasis expressions.
Proof.
  induction quasis as [|cooked quasis IH];
    intros expressions fuel Hlen Hq He Hfuel; [done|].
  apply Forall_cons in Hq as [Hcooked Hq].
  destruct expressions as [|e expressions].
  - destruct quasis; [|done]. cbn [getTemplateString literalPieces].
    rewrite scanVars_segment; [by rewrite scanVars_nil|done|done|].
    cbn [getTemplateString] in Hfuel. rewrite length_app in Hfuel. lia.
  - apply Forall_cons in He as [[Hne Hbrace] He].
    cbn [getTemplateString literalPieces] in *.
    change (lit "${") with [dollar; lbrace] in *.
    change (lit "}") with [rbrace] in *.
    rewrite !length_app in Hfuel. cbn [length] in Hfuel.
    rewrite scanVars_segment; [|done|done|lia].
    f_equal.
    destruct (fuel - length cooked)%nat as [|fuel'] eqn:Hf; [lia|].
    cbn [scanVars app].
    pose proof (matchVar_marker (printCode e)
                  (getTemplateString printCode quasis expressions) Hne Hbrace)
      as Hm.
    cbn [app] in Hm. rewrite Hm. f_equal.
    apply IH; [cbn in Hlen; lia|done|done|lia].
Qed.

Lemma substVars_app_units k s ps :
  substVars k (map PUnit s ++ ps) =
    (s ++ (substVars k ps).1, (substVars k ps).2).
Proof.
  induction s as [|c s IH]; cbn [map app substVars].
  - by destruct (substVars k ps).
  - rewrite IH. done.
Qed.

Lemma stripVars_app_units s ps :
  stripVars (map PUnit s ++ ps) = s ++ stripVars ps.
Proof. induction s as [|c s IH]; [done|]. cbn. by rewrite IH. Qed.

Lemma literalPieces_substVars quasis :
  forall expressions k,
    length quasis = S (length expressions) ->
    substVars k (literalPieces printCode quasis expressions) =
      (withPlaceholders k quasis expressions,
       zip_with (fun i e => {| name := paramName i;
                               expr := trim (printCode e) |})
                (seq k (length expressions)) expressions) /\
    stripVars (literalPieces printCode quasis expressions) = concat quasis.
Proof.
  induction quasis as [|cooked quasis IH]; intros expressions k Hlen;
    [done|].
  destruct expressions as [|e expressions].
  - destruct quasis; [|done]. cbn [literalPieces withPlaceholders].
    rewrite substVars_app_units, stripVars_app_units. cbn.
    by rewrite !app_nil_r.
  - cbn [literalPieces withPlaceholders length seq zip_with concat].
    rewrite substVars_app_units, stripVars_app_units. cbn [substVars stripVars].
    destruct (IH expressions (S k)) as [-> ->]; [cbn in Hlen; lia|].
    done.
Qed.

Lemma pairParams_zip (expressions : list node) : forall k,
  pairParams
    (zip_with (fun i e => {| name := paramName i;
                             expr := trim (printCode e) |})
              (seq k (length expressions)) expressions)
    expressions =
  Some (zip_with (fun i e => initProperty (paramName i) e)
                 (seq k (length expressions)) expressions).
Proof.
  induction expressions as [|e expressions IH]; intros k; [done|].
  cbn [length seq zip_with pairParams name]. by rewrite IH.
Qed.

End TemplateLiteralPieces.

(** X21. The parameters of a template literal.  When no segment of the
    literal holds an interpolation marker of its own and no printed
    expression is empty or holds a closing brace, [extractTemplateVars]
    on the text built by [getTemplateString] finds exactly the
    expressions of the literal: the text is the segments with the
    placeholders param1, param2, ... in the places of the expressions,
    the i-th parameter holds the trimmed source of the i-th expression,
    [hasChinese] is decided on the segments alone, and the properties
    built for the call pair the i-th parameter name with the i-th
    expression; the builder does not throw. *)
Theorem template_literal_parameters printCode quasis expressions :
  length quasis = S (length expressions) ->
  Forall (fun cooked => includes (lit "${") cooked = false) quasis ->
  Forall (fun e => printCode e <> [] /\ rbrace ∉ printCode e) expressions ->
  let vars :=
    extractTemplateVars (getTemplateString printCode quasis expressions) in
  let indices := seq 1 (length expressions) in
  text vars = withPlaceholders 1 quasis expressions /\
  params vars =
    zip_with (fun i e => {| name := paramName i;
                            expr := trim (printCode e) |})
             indices expressions /\
  hasChinese vars = isOnlyChinese (concat quasis) /\
  pairParams (params vars) expressions =
    Some (zip_with (fun i e => initProperty (paramName i) e)
                   indices expressions).
Proof.
  intros Hlen Hq He vars indices. unfold vars, extractTemplateVars, pieces.
  rewrite (scanVars_literal printCode quasis expressions _ Hlen Hq He)
    by lia.
  destruct (literalPieces_substVars printCode quasis expressions 1 Hlen)
    as [-> ->].
  cbn [text params hasChinese]. split_and!; [done|done|done|].
  apply pairParams_zip.
Qed.

Lemma template_literal_parameters_witness :
  pairParams
    (params (extractTemplateVars
               (getTemplateString samplePrint [userText ++ [fullwidthColon]; []]
                                  [username])))
    [username] =
  Some [initProperty (lit "param1") username].
Proof.
  apply (template_literal_parameters samplePrint
           [userText ++ [fullwidthColon]; []] [username]).
  - reflexivity.
  - repeat constructor.
  - repeat constructor; [discriminate|].
    vm_compute. intros H. by repeat (apply elem_of_cons in H as [H|H]; [done|]);
      apply elem_of_nil in H.
Defined.
